(** * Shamir secret sharing over GF(2^16): a shallow embedding

    The development follows the Go sources:
    - the table generator ([multiplyGF16], [tableGenerator], [main]),
    - the field arithmetic of the library ([add], [mult], [div]),
    - polynomials ([makePolynomial], [evaluate], [interpolatePolynomial]),
    - the protocol ([Split], [Combine]) with its byte conversions.

    A [uint16] is a [Z] in [0, 65536); wrap-around is written out with
    [u16].  A Go [int] is a [Z].  Bytes are [Byte.byte].  A panic and an
    error return are distinct outcomes of the result type. *)

From Stdlib Require Import ZArith Lia List Bool Btauto Permutation Znumtheory.
From Stdlib Require Import Field.
From Stdlib.Strings Require Import Byte String.
From stdpp Require Import base list gmap.

Open Scope bool_scope.
Open Scope Z_scope.

(** ** Machine integers *)

Module U16.

Definition SizeGF16 : Z := 65536.
Definition ModuloGF16 : Z := SizeGF16 - 1.
Definition MaxPartsGF16 : Z := SizeGF16 - 1.
Definition ShareOverhead : Z := 2.

(** Conversion to [uint16] and the wrap-around of [uint16] arithmetic. *)
Definition u16 (z : Z) : Z := z mod 65536.

Definition is_u16 (z : Z) : Prop := 0 <= z < 65536.

Definition is_u16b (z : Z) : bool := (0 <=? z) && (z <? 65536).

Lemma is_u16b_spec z : is_u16b z = true <-> is_u16 z.
Proof. unfold is_u16b, is_u16. rewrite andb_true_iff. lia. Qed.

Lemma u16_range z : is_u16 (u16 z).
Proof. unfold is_u16, u16. apply Z.mod_pos_bound. lia. Qed.

Lemma u16_id z : is_u16 z -> u16 z = z.
Proof. unfold is_u16, u16. intros. apply Z.mod_small. lia. Qed.

Lemma lxor_u16 a b : is_u16 a -> is_u16 b -> is_u16 (Z.lxor a b).
Proof.
  unfold is_u16. intros [Ha Ha'] [Hb Hb']. split.
  - apply Z.lxor_nonneg. lia.
  - destruct (Z.eq_dec (Z.lxor a b) 0) as [->|Hne]; [lia|].
    assert (0 < Z.lxor a b) by (assert (0 <= Z.lxor a b) by (apply Z.lxor_nonneg; lia); lia).
    change 65536 with (2 ^ 16). apply Z.log2_lt_pow2; [lia|].
    pose proof (Z.log2_lxor a b Ha Hb).
    assert (Z.log2 a < 16).
    { destruct (Z.eq_dec a 0) as [->|]; [simpl; lia|]. apply Z.log2_lt_pow2; lia. }
    assert (Z.log2 b < 16).
    { destruct (Z.eq_dec b 0) as [->|]; [simpl; lia|]. apply Z.log2_lt_pow2; lia. }
    lia.
Qed.

(** Exclusive or is a commutative group of exponent two. *)
Ltac xor_bits :=
  apply Z.bits_inj'; intros; repeat rewrite Z.lxor_spec;
  repeat rewrite Z.bits_0; btauto.

Lemma lxor_swap a b c : Z.lxor a (Z.lxor b c) = Z.lxor b (Z.lxor a c).
Proof. xor_bits. Qed.

Lemma lxor_cancel a b : Z.lxor a (Z.lxor a b) = b.
Proof. xor_bits. Qed.

Lemma lxor_four a b c d :
  Z.lxor (Z.lxor a b) (Z.lxor c d) = Z.lxor (Z.lxor a c) (Z.lxor b d).
Proof. xor_bits. Qed.

Lemma land_lxor_distr a b c :
  Z.land (Z.lxor a b) c = Z.lxor (Z.land a c) (Z.land b c).
Proof.
  apply Z.bits_inj'; intros.
  rewrite !Z.lxor_spec, !Z.land_spec, Z.lxor_spec. btauto.
Qed.

Lemma testbit15 a : is_u16 a -> (32767 <? a) = Z.testbit a 15.
Proof.
  unfold is_u16. intros Ha.
  rewrite Z.testbit_odd, Z.shiftr_div_pow2 by lia.
  change (2 ^ 15) with 32768.
  destruct (Z.ltb_spec 32767 a).
  - assert (a / 32768 = 1) as ->.
    { pose proof (Z.div_lt_upper_bound a 32768 2).
      pose proof (Z.div_le_lower_bound a 32768 1). lia. }
    reflexivity.
  - rewrite Z.div_small by lia. reflexivity.
Qed.

Lemma mod2_odd b : (b mod 2 =? 1) = Z.odd b.
Proof.
  rewrite Zmod_odd. destruct (Z.odd b); reflexivity.
Qed.

End U16.
Export U16.

(** ** The table generator: carry-less multiplication

    [tables_generator.go], [multiplyGF16]: bit-serial multiplication of two
    polynomials over GF(2), reduced by [x^16 + x^12 + x^3 + x + 1]. *)

Module Gen.

Definition polynomial : Z := 4107. (* 0x100B *)

(** The loop [for a > 0 && b > 0 { ... }].  [b] is shifted right once per
    round, so sixteen rounds exhaust a [uint16]. *)
Fixpoint multiplyGF16_loop (fuel : nat) (a b p : Z) : Z :=
  match fuel with
  | O => p
  | S fuel' =>
      if (0 <? a) && (0 <? b) then
        let p := if b mod 2 =? 1 then Z.lxor p a else p in
        let b := Z.shiftr b 1 in
        let hasCarry := 32767 <? a in
        let a := u16 (Z.shiftl a 1) in
        let a := if hasCarry then Z.lxor a polynomial else a in
        multiplyGF16_loop fuel' a b p
      else p
  end.

Definition multiplyGF16 (a b : Z) : Z := multiplyGF16_loop 16 a b 0.

(** One round's update of [a]: multiplication by [x]. *)
Definition xtime (a : Z) : Z :=
  let hasCarry := 32767 <? a in
  let a := u16 (Z.shiftl a 1) in
  if hasCarry then Z.lxor a polynomial else a.

(** The sum the loop accumulates, without the early exit. *)
Fixpoint clmul (n : nat) (a b : Z) : Z :=
  match n with
  | O => 0
  | S n' => Z.lxor (if Z.odd b then a else 0) (clmul n' (xtime a) (Z.shiftr b 1))
  end.

Definition additive (n : Z) (f : Z -> Z) : Prop :=
  forall x y, 0 <= x < 2 ^ n -> 0 <= y < 2 ^ n ->
    f (Z.lxor x y) = Z.lxor (f x) (f y).

Definition basis16 : list Z :=
  [1; 2; 4; 8; 16; 32; 64; 128; 256; 512; 1024; 2048; 4096; 8192; 16384; 32768].

Lemma xtime_u16 a : is_u16 (xtime a).
Proof.
  unfold xtime. destruct (32767 <? a).
  - apply lxor_u16; [apply u16_range | unfold is_u16, polynomial; lia].
  - apply u16_range.
Qed.

Lemma xtime_0 : xtime 0 = 0.
Proof. reflexivity. Qed.

Lemma xtime_alt a :
  is_u16 a ->
  xtime a = Z.lxor (Z.land (Z.shiftl a 1) (Z.ones 16))
                   (if Z.testbit a 15 then polynomial else 0).
Proof.
  intros Ha. unfold xtime. rewrite (testbit15 a Ha).
  unfold u16. rewrite Z.land_ones by lia. change (2 ^ 16) with 65536.
  destruct (Z.testbit a 15); [reflexivity | now rewrite Z.lxor_0_r].
Qed.

Lemma xtime_lxor a b :
  is_u16 a -> is_u16 b -> xtime (Z.lxor a b) = Z.lxor (xtime a) (xtime b).
Proof.
  intros Ha Hb.
  rewrite !xtime_alt by (auto using lxor_u16).
  rewrite Z.shiftl_lxor, land_lxor_distr, Z.lxor_spec.
  destruct (Z.testbit a 15), (Z.testbit b 15); simpl; xor_bits.
Qed.

Lemma clmul_u16 n : forall a b, is_u16 a -> is_u16 (clmul n a b).
Proof.
  induction n as [|n IH]; intros a b Ha; simpl.
  - unfold is_u16; lia.
  - apply lxor_u16; [destruct (Z.odd b); [assumption | unfold is_u16; lia] |].
    apply IH, xtime_u16.
Qed.

Lemma clmul_0_l n : forall b, clmul n 0 b = 0.
Proof.
  induction n as [|n IH]; intros b; simpl; [reflexivity|].
  rewrite xtime_0, IH. now destruct (Z.odd b).
Qed.

Lemma clmul_0_r n : forall a, clmul n a 0 = 0.
Proof.
  induction n as [|n IH]; intros a; simpl; [reflexivity|].
  change (Z.shiftr 0 1) with 0. now rewrite IH.
Qed.

Lemma loop_clmul fuel : forall a b p,
  0 <= a -> 0 <= b ->
  multiplyGF16_loop fuel a b p = Z.lxor p (clmul fuel a b).
Proof.
  induction fuel as [|fuel IH]; intros a b p Ha Hb; simpl.
  - now rewrite Z.lxor_0_r.
  - destruct (Z.ltb_spec 0 a); simpl.
    + destruct (Z.ltb_spec 0 b); simpl.
      * fold (xtime a). rewrite IH.
        -- rewrite mod2_odd. destruct (Z.odd b).
           ++ now rewrite Z.lxor_assoc.
           ++ now rewrite Z.lxor_0_l.
        -- pose proof (xtime_u16 a) as Hx. unfold is_u16 in Hx. lia.
        -- apply Z.shiftr_nonneg. lia.
      * assert (b = 0) as -> by lia. simpl.
        rewrite clmul_0_r. now rewrite Z.lxor_0_r.
    + assert (a = 0) as -> by lia.
      rewrite xtime_0, clmul_0_l. destruct (Z.odd b); now rewrite Z.lxor_0_r.
Qed.

Lemma multiplyGF16_clmul a b :
  0 <= a -> 0 <= b -> multiplyGF16 a b = clmul 16 a b.
Proof.
  intros. unfold multiplyGF16. rewrite loop_clmul by assumption.
  apply Z.lxor_0_l.
Qed.

Lemma clmul_lxor_l n : forall a a' b,
  is_u16 a -> is_u16 a' ->
  clmul n (Z.lxor a a') b = Z.lxor (clmul n a b) (clmul n a' b).
Proof.
  induction n as [|n IH]; intros a a' b Ha Ha'; simpl; [reflexivity|].
  rewrite xtime_lxor, IH by (auto using xtime_u16).
  destruct (Z.odd b); xor_bits.
Qed.

Lemma clmul_lxor_r n : forall a b b',
  clmul n a (Z.lxor b b') = Z.lxor (clmul n a b) (clmul n a b').
Proof.
  induction n as [|n IH]; intros a b b'; simpl; [reflexivity|].
  rewrite Z.shiftr_lxor, IH.
  rewrite <- !Z.bit0_odd, Z.lxor_spec.
  destruct (Z.testbit b 0), (Z.testbit b' 0); simpl; xor_bits.
Qed.

(** Range and linearity of the multiplication itself. *)

Lemma multiplyGF16_u16 a b : is_u16 a -> is_u16 b -> is_u16 (multiplyGF16 a b).
Proof.
  intros Ha Hb. rewrite multiplyGF16_clmul by (unfold is_u16 in *; lia).
  now apply clmul_u16.
Qed.

Lemma multiplyGF16_lxor_l a a' b :
  is_u16 a -> is_u16 a' -> is_u16 b ->
  multiplyGF16 (Z.lxor a a') b = Z.lxor (multiplyGF16 a b) (multiplyGF16 a' b).
Proof.
  intros Ha Ha' Hb. pose proof (lxor_u16 _ _ Ha Ha').
  rewrite !multiplyGF16_clmul by (unfold is_u16 in *; lia).
  now apply clmul_lxor_l.
Qed.

Lemma multiplyGF16_lxor_r a b b' :
  is_u16 a -> is_u16 b -> is_u16 b' ->
  multiplyGF16 a (Z.lxor b b') = Z.lxor (multiplyGF16 a b) (multiplyGF16 a b').
Proof.
  intros Ha Hb Hb'. pose proof (lxor_u16 _ _ Hb Hb').
  rewrite !multiplyGF16_clmul by (unfold is_u16 in *; lia).
  apply clmul_lxor_r.
Qed.

Lemma multiplyGF16_0_l b : multiplyGF16 0 b = 0.
Proof. reflexivity. Qed.

Lemma loop_exit fuel a b p :
  (0 <? a) && (0 <? b) = false -> multiplyGF16_loop fuel a b p = p.
Proof. intros H. destruct fuel; simpl; [reflexivity | now rewrite H]. Qed.

Lemma multiplyGF16_0_r a : multiplyGF16 a 0 = 0.
Proof. apply loop_exit. apply andb_false_r. Qed.

Lemma multiplyGF16_1_r a : is_u16 a -> multiplyGF16 a 1 = a.
Proof.
  intros Ha. rewrite multiplyGF16_clmul by (unfold is_u16 in *; lia).
  change (clmul 16 a 1) with (Z.lxor a (clmul 15 (xtime a) 0)).
  now rewrite clmul_0_r, Z.lxor_0_r.
Qed.

(** Sixteen rounds are enough: more fuel changes nothing. *)
Lemma multiplyGF16_fuel fuel a b :
  is_u16 a -> is_u16 b -> (16 <= fuel)%nat ->
  multiplyGF16_loop fuel a b 0 = multiplyGF16 a b.
Proof.
  intros Ha Hb Hf.
  assert (Hgen : forall k n a b, 0 <= b < 2 ^ Z.of_nat n ->
             clmul (n + k) a b = clmul n a b).
  { intros k n. induction n as [|n IH]; intros x y Hy.
    - assert (y = 0) as -> by (simpl in Hy; lia). simpl.
      now rewrite clmul_0_r.
    - simpl. f_equal. apply IH.
      rewrite Z.shiftr_div_pow2 by lia. change (2 ^ 1) with 2.
      rewrite Nat2Z.inj_succ, Z.pow_succ_r in Hy by lia.
      split; [apply Z.div_pos; lia | apply Z.div_lt_upper_bound; lia]. }
  rewrite loop_clmul, multiplyGF16_clmul by (unfold is_u16 in *; lia).
  rewrite Z.lxor_0_l.
  replace fuel with (16 + (fuel - 16))%nat by lia.
  apply Hgen. exact Hb.
Qed.

(** *** Extension from the basis [2^i]

    Two additive maps that agree on the sixteen powers of two agree on
    every [uint16]. *)

Lemma additive_0 n f : 0 <= n -> additive n f -> f 0 = 0.
Proof.
  intros Hn Hf.
  assert (0 <= 0 < 2 ^ n) as H0 by (split; [lia | apply Z.pow_pos_nonneg; lia]).
  pose proof (Hf 0 0 H0 H0) as H. rewrite Z.lxor_0_l, Z.lxor_nilpotent in H.
  exact H.
Qed.

Lemma split_low_bit x : x = Z.lxor (Z.shiftl (Z.shiftr x 1) 1) (x mod 2).
Proof.
  apply Z.bits_inj'. intros n Hn.
  rewrite Z.lxor_spec.
  change (x mod 2) with (x mod 2 ^ 1).
  destruct (Z.eq_dec n 0) as [->|Hne].
  - rewrite Z.shiftl_spec_low by lia.
    rewrite Z.mod_pow2_bits_low by lia. reflexivity.
  - rewrite Z.shiftl_spec_high, Z.shiftr_spec by lia.
    replace (n - 1 + 1) with n by lia.
    rewrite Z.mod_pow2_bits_high by lia. now rewrite xorb_false_r.
Qed.

Lemma additive_ext_gen (n : nat) : forall f h,
  additive (Z.of_nat n) f -> additive (Z.of_nat n) h ->
  (forall i, 0 <= i < Z.of_nat n -> f (2 ^ i) = h (2 ^ i)) ->
  forall x, 0 <= x < 2 ^ Z.of_nat n -> f x = h x.
Proof.
  induction n as [|n IH]; intros f h Hf Hh Hb x Hx.
  - assert (x = 0) as -> by (simpl in Hx; lia).
    rewrite (additive_0 0 f), (additive_0 0 h); auto; lia.
  - rewrite Nat2Z.inj_succ in *.
    assert (Hpow : 2 ^ Z.succ (Z.of_nat n) = 2 * 2 ^ Z.of_nat n)
      by (apply Z.pow_succ_r; lia).
    assert (Hpos : 0 < 2 ^ Z.of_nat n) by (apply Z.pow_pos_nonneg; lia).
    assert (Hhalf : forall y, 0 <= y < 2 ^ Z.of_nat n ->
               0 <= Z.shiftl y 1 < 2 ^ Z.succ (Z.of_nat n)).
    { intros y Hy. rewrite Z.shiftl_mul_pow2 by lia. change (2 ^ 1) with 2. lia. }
    set (q := Z.shiftr x 1).
    assert (Hq : 0 <= q < 2 ^ Z.of_nat n).
    { unfold q. rewrite Z.shiftr_div_pow2 by lia. change (2 ^ 1) with 2.
      split; [apply Z.div_pos; lia | apply Z.div_lt_upper_bound; lia]. }
    assert (Hr : 0 <= x mod 2 < 2 ^ Z.succ (Z.of_nat n))
      by (pose proof (Z.mod_pos_bound x 2); lia).
    rewrite (split_low_bit x). fold q.
    rewrite Hf, Hh by auto.
    f_equal.
    + apply (IH (fun y => f (Z.shiftl y 1)) (fun y => h (Z.shiftl y 1))); auto.
      * intros a b Ha Hb'. rewrite Z.shiftl_lxor. apply Hf; auto.
      * intros a b Ha Hb'. rewrite Z.shiftl_lxor. apply Hh; auto.
      * intros i Hi. rewrite Z.shiftl_mul_pow2 by lia.
        rewrite <- Z.pow_add_r by lia. apply Hb. lia.
    + assert (x mod 2 = 0 \/ x mod 2 = 1) as [->| ->]
        by (pose proof (Z.mod_pos_bound x 2); lia).
      * rewrite (additive_0 (Z.succ (Z.of_nat n)) f),
          (additive_0 (Z.succ (Z.of_nat n)) h); auto; lia.
      * apply (Hb 0). lia.
Qed.

Lemma basis16_pow i : 0 <= i < 16 -> In (2 ^ i) basis16.
Proof.
  intros Hi.
  assert (i = 0 \/ i = 1 \/ i = 2 \/ i = 3 \/ i = 4 \/ i = 5 \/ i = 6 \/ i = 7 \/
          i = 8 \/ i = 9 \/ i = 10 \/ i = 11 \/ i = 12 \/ i = 13 \/ i = 14 \/
          i = 15) as H by lia.
  repeat (destruct H as [->|H]; [simpl; tauto|]). subst. simpl. tauto.
Qed.

Lemma additive_ext f h :
  additive 16 f -> additive 16 h ->
  (forall e, In e basis16 -> f e = h e) ->
  forall x, is_u16 x -> f x = h x.
Proof.
  intros Hf Hh Hb x Hx.
  apply (additive_ext_gen 16 f h); auto.
  intros i Hi. apply Hb, basis16_pow. exact Hi.
Qed.

Lemma additive_mul_l b : is_u16 b -> additive 16 (fun a => multiplyGF16 a b).
Proof. intros Hb x y Hx Hy. now apply multiplyGF16_lxor_l. Qed.

Lemma additive_mul_r a : is_u16 a -> additive 16 (fun b => multiplyGF16 a b).
Proof. intros Ha x y Hx Hy. now apply multiplyGF16_lxor_r. Qed.

Lemma multiplyGF16_1_l b : is_u16 b -> multiplyGF16 1 b = b.
Proof.
  intros Hb.
  apply (additive_ext (fun b => multiplyGF16 1 b) (fun b => b)).
  - apply additive_mul_r. unfold is_u16; lia.
  - intros x y _ _. reflexivity.
  - intros e He. unfold basis16 in He. simpl in He.
    repeat (destruct He as [<-|He]; [vm_compute; reflexivity|]). contradiction.
  - exact Hb.
Qed.

Global Opaque multiplyGF16.

(** *** Powers of the generator

    [tableGenerator] enumerates [generator^k] by repeated multiplication. *)

Definition generator : Z := 257.

Fixpoint gf_pow (g : Z) (k : nat) : Z :=
  match k with
  | O => 1
  | S k' => multiplyGF16 g (gf_pow g k')
  end.

(** Square-and-multiply, used to evaluate the few powers that decide the
    order of the generator. *)
Fixpoint fast_pow (g : Z) (p : positive) : Z :=
  match p with
  | xH => g
  | xO p' => let h := fast_pow g p' in multiplyGF16 h h
  | xI p' => let h := fast_pow g p' in multiplyGF16 g (multiplyGF16 h h)
  end.

(** The order of the multiplicative group. *)
Definition order : nat := Pos.to_nat 65535.

Lemma gf_pow_S g k : gf_pow g (S k) = multiplyGF16 g (gf_pow g k).
Proof. reflexivity. Qed.

Lemma generator_u16 : is_u16 generator.
Proof. unfold is_u16, generator. lia. Qed.

Lemma gf_pow_u16 g k : is_u16 g -> is_u16 (gf_pow g k).
Proof.
  intros Hg. induction k as [|k IH]; simpl.
  - unfold is_u16. lia.
  - now apply multiplyGF16_u16.
Qed.

Lemma generator_assoc_basis :
  forallb (fun e => forallb (fun e' =>
     multiplyGF16 (multiplyGF16 generator e) e' =?
     multiplyGF16 generator (multiplyGF16 e e')) basis16) basis16 = true.
Proof. vm_compute. reflexivity. Qed.

Lemma generator_assoc y z :
  is_u16 y -> is_u16 z ->
  multiplyGF16 (multiplyGF16 generator y) z =
  multiplyGF16 generator (multiplyGF16 y z).
Proof.
  intros Hy Hz. revert y Hy.
  pose proof generator_u16 as Hg.
  apply additive_ext.
  - intros a b Ha Hb.
    rewrite multiplyGF16_lxor_r, multiplyGF16_lxor_l;
      auto using multiplyGF16_u16.
  - intros a b Ha Hb.
    rewrite multiplyGF16_lxor_l, multiplyGF16_lxor_r;
      auto using multiplyGF16_u16.
  - intros e He. revert z Hz.
    assert (He' : is_u16 e).
    { unfold basis16 in He. simpl in He. unfold is_u16.
      repeat (destruct He as [<-|He]; [lia|]). contradiction. }
    apply additive_ext.
    + apply additive_mul_r. now apply multiplyGF16_u16.
    + intros a b Ha Hb.
      rewrite multiplyGF16_lxor_r, multiplyGF16_lxor_r;
        auto using multiplyGF16_u16.
    + intros e' He2.
      pose proof generator_assoc_basis as H.
      rewrite forallb_forall in H. specialize (H e He).
      rewrite forallb_forall in H. apply Z.eqb_eq, H, He2.
Qed.

Lemma gf_pow_add i j :
  gf_pow generator (i + j) =
  multiplyGF16 (gf_pow generator i) (gf_pow generator j).
Proof.
  pose proof generator_u16 as Hg.
  induction i as [|i IH]; simpl.
  - now rewrite multiplyGF16_1_l by (now apply gf_pow_u16).
  - rewrite IH. now rewrite generator_assoc by (now apply gf_pow_u16).
Qed.

Lemma fast_pow_spec p : fast_pow generator p = gf_pow generator (Pos.to_nat p).
Proof.
  pose proof generator_u16 as Hg.
  induction p as [p IH|p IH|]; simpl fast_pow.
  - rewrite Pos2Nat.inj_xI, IH.
    change (S (2 * Pos.to_nat p)) with (S (Pos.to_nat p + (Pos.to_nat p + 0)))%nat.
    rewrite Nat.add_0_r. simpl. now rewrite gf_pow_add.
  - rewrite Pos2Nat.inj_xO, IH.
    change (2 * Pos.to_nat p)%nat with (Pos.to_nat p + (Pos.to_nat p + 0))%nat.
    rewrite Nat.add_0_r. now rewrite gf_pow_add.
  - simpl. now rewrite multiplyGF16_1_r.
Qed.

Lemma gf_pow_order : gf_pow generator order = 1.
Proof. unfold order. rewrite <- fast_pow_spec. vm_compute. reflexivity. Qed.

Lemma gf_pow_cofactors :
  gf_pow generator (Pos.to_nat 21845) <> 1 /\
  gf_pow generator (Pos.to_nat 13107) <> 1 /\
  gf_pow generator (Pos.to_nat 3855) <> 1 /\
  gf_pow generator (Pos.to_nat 255) <> 1.
Proof.
  rewrite <- !fast_pow_spec. repeat split; vm_compute; discriminate.
Qed.

Lemma gf_pow_mul_one d a :
  gf_pow generator d = 1 -> gf_pow generator (a * d) = 1.
Proof.
  intros Hd. induction a as [|a IH]; simpl; [reflexivity|].
  rewrite gf_pow_add, Hd, IH. reflexivity.
Qed.

(** *** The order of the generator is 65535 = 3 * 5 * 17 * 257 *)

Lemma prime_by_check p :
  1 < p ->
  forallb (fun n => negb (p mod Z.of_nat n =? 0)) (seq 2 (Z.to_nat p - 2)) = true ->
  Z.prime p.
Proof.
  intros Hp Hc. split; [exact Hp|]. intros n Hn Hdiv.
  rewrite forallb_forall in Hc.
  assert (Hin : In (Z.to_nat n) (seq 2 (Z.to_nat p - 2))) by (apply in_seq; lia).
  specialize (Hc _ Hin). rewrite Z2Nat.id in Hc by lia.
  apply Z.mod_divide in Hdiv; [|lia].
  rewrite Hdiv in Hc. discriminate.
Qed.

Lemma prime_5 : Z.prime 5.
Proof. apply prime_by_check; [lia | vm_compute; reflexivity]. Qed.

Lemma prime_17 : Z.prime 17.
Proof. apply prime_by_check; [lia | vm_compute; reflexivity]. Qed.

Lemma prime_257 : Z.prime 257.
Proof. apply prime_by_check; [lia | vm_compute; reflexivity]. Qed.

Lemma cofactor_step p q r :
  Z.prime p -> (q | p * r) -> ~ (p | q) -> (q | r).
Proof.
  intros Hp Hq Hn. apply (Z.gauss q p r Hq).
  rewrite Z.gcd_comm. now apply Z.coprime_prime_l.
Qed.

Lemma divide_dec p q : p <> 0 -> {(p | q)} + {~ (p | q)}.
Proof.
  intros Hp. destruct (Z.eq_dec (q mod p) 0) as [H|H].
  - left. now apply Z.mod_divide.
  - right. intros Hd. apply H. now apply Z.mod_divide.
Qed.

Lemma divisor_65535 q :
  (q | 65535) -> 1 < q -> (3 | q) \/ (5 | q) \/ (17 | q) \/ (257 | q).
Proof.
  intros Hq H1.
  destruct (divide_dec 3 q ltac:(lia)) as [|H3]; [tauto|].
  destruct (divide_dec 5 q ltac:(lia)) as [|H5]; [tauto|].
  destruct (divide_dec 17 q ltac:(lia)) as [|H17]; [tauto|].
  destruct (divide_dec 257 q ltac:(lia)) as [|H257]; [tauto|].
  exfalso.
  change 65535 with (3 * 21845) in Hq.
  apply (cofactor_step 3 q _ Z.prime_3) in Hq; [|assumption].
  change 21845 with (5 * 4369) in Hq.
  apply (cofactor_step 5 q _ prime_5) in Hq; [|assumption].
  change 4369 with (17 * 257) in Hq.
  apply (cofactor_step 17 q _ prime_17) in Hq; [|assumption].
  change 257 with (257 * 1) in Hq.
  apply (cofactor_step 257 q _ prime_257) in Hq; [|assumption].
  apply Z.divide_1_r in Hq. lia.
Qed.

(** No smaller positive power of the generator is one. *)
Lemma gf_pow_ne_one d :
  (0 < d < order)%nat -> gf_pow generator d <> 1.
Proof.
  intros Hd H1.
  destruct (Nat.gcd_bezout_pos d order) as (a & b & Hab); [lia|].
  set (e := Nat.gcd d order) in *.
  assert (He1 : gf_pow generator e = 1).
  { pose proof (gf_pow_mul_one d a H1) as Ha.
    rewrite Hab, gf_pow_add in Ha.
    rewrite (gf_pow_mul_one order b gf_pow_order) in Ha.
    rewrite multiplyGF16_1_r in Ha by (apply gf_pow_u16, generator_u16).
    exact Ha. }
  destruct (Nat.gcd_divide_r d order) as [c Hc]. fold e in Hc.
  destruct (Nat.gcd_divide_l d order) as [c' Hc']. fold e in Hc'.
  clearbody e.
  assert (He : (0 < e <= d)%nat).
  { destruct c' as [|c'']; [lia|]. destruct e as [|e']; lia. }
  assert (Hcz : (Z.of_nat c | 65535)).
  { exists (Z.of_nat e). unfold order in Hc. lia. }
  assert (Hc1 : 1 < Z.of_nat c) by (unfold order in *; nia).
  pose proof gf_pow_cofactors as (F3 & F5 & F17 & F257).
  assert (Hkey : forall p r : positive,
             (Z.pos p * Z.pos r = 65535) -> (Z.pos p | Z.of_nat c) ->
             gf_pow generator (Pos.to_nat r) = 1).
  { intros p r Hpr [k Hk].
    assert (Hr : Pos.to_nat r = (Z.to_nat k * e)%nat) by (unfold order in Hc; nia).
    rewrite Hr. now apply gf_pow_mul_one. }
  destruct (divisor_65535 _ Hcz Hc1) as [H|[H|[H|H]]].
  - apply F3, (Hkey 3%positive 21845%positive); [reflexivity | exact H].
  - apply F5, (Hkey 5%positive 13107%positive); [reflexivity | exact H].
  - apply F17, (Hkey 17%positive 3855%positive); [reflexivity | exact H].
  - apply F257, (Hkey 257%positive 255%positive); [reflexivity | exact H].
Qed.

(** *** The powers of the generator are the non-zero field elements *)

Lemma gf_pow_times_order k : gf_pow generator (k * order) = 1.
Proof.
  rewrite Nat.mul_comm. induction k as [|k IH].
  - rewrite Nat.mul_0_r. reflexivity.
  - rewrite Nat.mul_succ_r, gf_pow_add, IH, gf_pow_order. reflexivity.
Qed.

Lemma gf_pow_ne i j :
  (i < j)%nat -> (j - i < order)%nat ->
  gf_pow generator i <> gf_pow generator j.
Proof.
  intros Hij Hlt Heq.
  pose proof generator_u16 as Hg.
  apply (gf_pow_ne_one (j - i)); [lia|].
  assert (H1 : multiplyGF16 (gf_pow generator i)
                 (gf_pow generator (i * (order - 1))) = 1).
  { rewrite <- gf_pow_add.
    replace (i + i * (order - 1))%nat with (i * order)%nat
      by (unfold order; lia).
    apply gf_pow_times_order. }
  rewrite Heq, <- gf_pow_add in H1.
  replace (j + i * (order - 1))%nat with ((j - i) + i * order)%nat in H1
    by (unfold order; lia).
  rewrite gf_pow_add, gf_pow_times_order in H1.
  now rewrite multiplyGF16_1_r in H1 by (now apply gf_pow_u16).
Qed.

Lemma gf_pow_inj i j :
  (i < order)%nat -> (j < order)%nat ->
  gf_pow generator i = gf_pow generator j -> i = j.
Proof.
  intros Hi Hj Heq.
  destruct (Nat.lt_trichotomy i j) as [H|[H|H]]; [|exact H|].
  - exfalso. apply (gf_pow_ne i j); auto. lia.
  - exfalso. apply (gf_pow_ne j i); auto. lia.
Qed.

Lemma gf_pow_nonzero k : gf_pow generator k <> 0.
Proof.
  intros H0.
  assert (H1 : multiplyGF16 (gf_pow generator k)
                 (gf_pow generator (k * (order - 1))) = 1).
  { rewrite <- gf_pow_add.
    replace (k + k * (order - 1))%nat with (k * order)%nat
      by (unfold order; lia).
    apply gf_pow_times_order. }
  rewrite H0, multiplyGF16_0_l in H1. discriminate.
Qed.

Lemma gf_pow_range k : 1 <= gf_pow generator k <= 65535.
Proof.
  pose proof (gf_pow_u16 generator k generator_u16) as H.
  pose proof (gf_pow_nonzero k). unfold is_u16 in H. lia.
Qed.

Lemma gf_pow_mod k : gf_pow generator k = gf_pow generator (k mod order).
Proof.
  assert (Ho : order <> 0%nat) by (unfold order; lia).
  rewrite (Nat.div_mod k order Ho) at 1.
  rewrite Nat.add_comm, gf_pow_add, Nat.mul_comm, gf_pow_times_order.
  apply multiplyGF16_1_r, gf_pow_u16, generator_u16.
Qed.

(** Every non-zero field element is a power of the generator. *)
Lemma gf_log_exists v :
  1 <= v <= 65535 ->
  exists k, (k < order)%nat /\ gf_pow generator k = v.
Proof.
  intros Hv.
  set (l := map (gf_pow generator) (seq 0 order)).
  set (l' := map Z.of_nat (seq 1 order)).
  assert (Hnd : List.NoDup l).
  { unfold l. apply NoDup_map_NoDup_ForallPairs; [|apply seq_NoDup].
    intros a b Ha Hb Hab. apply in_seq in Ha, Hb.
    apply gf_pow_inj; auto; lia. }
  assert (Hincl : incl l l').
  { intros x Hx. apply in_map_iff in Hx as (k & <- & _).
    pose proof (gf_pow_range k) as Hr.
    apply in_map_iff. exists (Z.to_nat (gf_pow generator k)).
    split; [lia|]. apply in_seq. unfold order. lia. }
  assert (Hlen : (length l' <= length l)%nat).
  { unfold l, l'. rewrite !length_map, !length_seq. lia. }
  pose proof (NoDup_length_incl Hnd Hlen Hincl) as Hback.
  assert (Hin : In v l').
  { apply in_map_iff. exists (Z.to_nat v). split; [lia|].
    apply in_seq. unfold order. lia. }
  apply Hback, in_map_iff in Hin as (k & Hk & Hin).
  apply in_seq in Hin. exists k. split; [lia | exact Hk].
Qed.

(** ** The table generator: the enumeration loop *)

Record gen_state := {
  product : Z;
  expTable : list Z;
  logTable : list Z;
  count : Z
}.

(** [make([]uint16, n)]: a slice of [n] zeroes. *)
Definition make (n : Z) : list Z := replicate (Z.to_nat n) 0.

Lemma length_make n : length (make n) = Z.to_nat n.
Proof. apply length_replicate. Qed.

Lemma lookup_make n i : (i < Z.to_nat n)%nat -> make n !! i = Some 0.
Proof. apply lookup_replicate_2. Qed.

Global Opaque make.

(** The state before the loop, for a generator [g]. *)
Definition gen_init (g : Z) : gen_state :=
  {| product := g;
     expTable := [1] ++ [g];
     logTable := <[Z.to_nat g := 1]> (make SizeGF16);
     count := 2 |}.

(** One round of [for product != 1 { ... }]. *)
Definition gen_step (g : Z) (s : gen_state) : gen_state :=
  let product := multiplyGF16 g (product s) in
  {| product := product;
     expTable := expTable s ++ [product];
     logTable := <[Z.to_nat product := u16 (count s)]> (logTable s);
     count := count s + 1 |}.

(** The loop; [None] when the fuel runs out before [product] is 1. *)
Fixpoint gen_loop (fuel : nat) (g : Z) (s : gen_state) : option gen_state :=
  if product s =? 1 then Some s
  else match fuel with
       | O => None
       | S fuel' => gen_loop fuel' g (gen_step g s)
       end.

Definition gen_iter (n : nat) (g : Z) (s : gen_state) : gen_state :=
  Nat.iter n (gen_step g) s.

Lemma gen_iter_0 g s : gen_iter 0 g s = s.
Proof. reflexivity. Qed.

Lemma gen_iter_S n g s : gen_iter (S n) g s = gen_iter n g (gen_step g s).
Proof. unfold gen_iter. apply Nat.iter_succ_r. Qed.

Lemma gen_loop_stops k : forall fuel g s,
  (forall j, (j < k)%nat -> product (gen_iter j g s) <> 1) ->
  product (gen_iter k g s) = 1 ->
  (k <= fuel)%nat ->
  gen_loop fuel g s = Some (gen_iter k g s).
Proof.
  induction k as [|k IH]; intros fuel g s Hbefore Hat Hfuel.
  - simpl in Hat. destruct fuel; simpl; rewrite Hat; reflexivity.
  - destruct fuel as [|fuel]; [lia|].
    pose proof (Hbefore 0%nat ltac:(lia)) as H0. simpl in H0.
    apply Z.eqb_neq in H0. cbn [gen_loop]. rewrite H0.
    rewrite gen_iter_S. apply IH.
    + intros j Hj. rewrite <- gen_iter_S. apply Hbefore. lia.
    + now rewrite <- gen_iter_S.
    + lia.
Qed.

Lemma gen_loop_runs_out fuel : forall g s,
  (forall j, (j <= fuel)%nat -> product (gen_iter j g s) <> 1) ->
  gen_loop fuel g s = None.
Proof.
  induction fuel as [|fuel IH]; intros g s H.
  - pose proof (H 0%nat ltac:(lia)) as H0. simpl in H0.
    apply Z.eqb_neq in H0. simpl. now rewrite H0.
  - pose proof (H 0%nat ltac:(lia)) as H0. simpl in H0.
    apply Z.eqb_neq in H0. simpl. rewrite H0. apply IH.
    intros j Hj. rewrite <- gen_iter_S. apply H. lia.
Qed.

(** The state after [n] rounds, for the generator 257. *)
Lemma gen_iter_succ n g s : gen_iter (S n) g s = gen_step g (gen_iter n g s).
Proof. reflexivity. Qed.

Lemma gen_iter_product n :
  product (gen_iter n generator (gen_init generator)) = gf_pow generator (S n).
Proof.
  induction n as [|n IH].
  - rewrite gen_iter_0. cbn [gen_init product gf_pow].
    symmetry. apply multiplyGF16_1_r, generator_u16.
  - rewrite gen_iter_succ. cbn [gen_step product]. rewrite IH.
    symmetry. apply gf_pow_S.
Qed.

Lemma gen_iter_count n g :
  count (gen_iter n g (gen_init g)) = Z.of_nat n + 2.
Proof.
  induction n as [|n IH]; [reflexivity|].
  rewrite gen_iter_succ. cbn [gen_step count]. rewrite IH. lia.
Qed.

Lemma gen_iter_expTable n :
  expTable (gen_iter n generator (gen_init generator)) =
  map (gf_pow generator) (seq 0 (n + 2)).
Proof.
  induction n as [|n IH].
  - rewrite gen_iter_0. cbn [gen_init expTable Nat.add seq map gf_pow app].
    now rewrite multiplyGF16_1_r by apply generator_u16.
  - rewrite gen_iter_succ.
    cbn [gen_step expTable]. rewrite IH, gen_iter_product.
    replace (S n + 2)%nat with (S (n + 2)) by lia.
    rewrite seq_S, map_app. cbn [map]. rewrite Nat.add_0_l.
    replace (n + 2)%nat with (S (S n)) by lia.
    rewrite (gf_pow_S generator (S n)). reflexivity.
Qed.

Lemma gen_iter_logTable_length n g :
  length (logTable (gen_iter n g (gen_init g))) = Z.to_nat SizeGF16.
Proof.
  induction n as [|n IH].
  - rewrite gen_iter_0. cbn [gen_init logTable].
    now rewrite length_insert, length_make.
  - rewrite gen_iter_succ.
    cbn [gen_step logTable]. now rewrite length_insert.
Qed.

Lemma gen_iter_logTable n : forall k,
  (n + 1 <= order)%nat -> (1 <= k <= n + 1)%nat ->
  logTable (gen_iter n generator (gen_init generator))
    !! Z.to_nat (gf_pow generator k) = Some (Z.of_nat k).
Proof.
  induction n as [|n IH]; intros k Hn Hk.
  - assert (k = 1%nat) as -> by lia.
    rewrite gen_iter_0. cbn [gen_init logTable].
    rewrite gf_pow_S. cbn [gf_pow].
    rewrite multiplyGF16_1_r by apply generator_u16.
    apply list_lookup_insert_eq. rewrite length_make.
    unfold generator, SizeGF16. lia.
  - rewrite gen_iter_succ.
    cbn [gen_step logTable].
    rewrite gen_iter_product, gen_iter_count, <- gf_pow_S.
    rewrite u16_id by (unfold is_u16, order in *; lia).
    pose proof (gf_pow_range k) as Hrk.
    pose proof (gf_pow_range (S (S n))) as Hrn.
    destruct (Nat.eq_dec k (S (S n))) as [->|Hne].
    + replace (Z.of_nat n + 2) with (Z.of_nat (S (S n))) by lia.
      apply list_lookup_insert_eq. rewrite gen_iter_logTable_length.
      unfold SizeGF16. lia.
    + rewrite list_lookup_insert_ne.
      * apply IH; lia.
      * intros Heq. apply Z2Nat.inj in Heq; [|lia|lia].
        symmetry in Heq. revert Heq. apply gf_pow_ne; lia.
Qed.

(** Entries of [logTable] that no power was stored at keep the zero that
    [make] initialised them with. *)
Lemma gen_iter_logTable_zero n i :
  (n + 1 <= order)%nat -> (i < Z.to_nat SizeGF16)%nat ->
  (forall k, (1 <= k <= n + 1)%nat -> Z.to_nat (gf_pow generator k) <> i) ->
  logTable (gen_iter n generator (gen_init generator)) !! i = Some 0.
Proof.
  induction n as [|n IH]; intros Hn Hi Hk.
  - rewrite gen_iter_0. cbn [gen_init logTable].
    rewrite list_lookup_insert_ne.
    + now apply lookup_make.
    + intros Heq. apply (Hk 1%nat); [lia|].
      rewrite gf_pow_S. cbn [gf_pow].
      now rewrite multiplyGF16_1_r by apply generator_u16.
  - rewrite gen_iter_succ.
    cbn [gen_step logTable]. rewrite gen_iter_product, <- gf_pow_S.
    rewrite list_lookup_insert_ne.
    + apply IH; auto; [lia|]. intros k Hk'. apply Hk. lia.
    + apply Hk. lia.
Qed.

(** *** The run of the generator and its tables *)

(** Index into a table with a [uint16]; never out of range for a table of
    65536 entries. *)
Definition index (t : list Z) (i : Z) : Z := default 0 (t !! Z.to_nat i).

Definition log_at (s : gen_state) (v : Z) : Z := index (logTable s) v.
Definition exp_at (s : gen_state) (k : Z) : Z := index (expTable s) k.

(** The enumeration for a generator [g], from the initial state. *)
Definition run (g : Z) (fuel : nat) : option gen_state :=
  gen_loop fuel g (gen_init g).

(** The state the loop ends in for the generator 257. *)
Definition final : gen_state :=
  gen_iter (order - 1) generator (gen_init generator).

Lemma run_generator fuel :
  (order - 1 <= fuel)%nat -> run generator fuel = Some final.
Proof.
  intros Hf. unfold run, final. apply gen_loop_stops; [| |exact Hf].
  - intros j Hj. rewrite gen_iter_product.
    apply gf_pow_ne_one. unfold order in *. lia.
  - rewrite gen_iter_product.
    replace (S (order - 1)) with order by (unfold order; lia).
    apply gf_pow_order.
Qed.

Lemma run_generator_inv fuel s : run generator fuel = Some s -> s = final.
Proof.
  intros H. destruct (Nat.le_gt_cases (order - 1) fuel) as [Hf|Hf].
  - rewrite (run_generator fuel Hf) in H. congruence.
  - unfold run in H. rewrite gen_loop_runs_out in H; [discriminate|].
    intros j Hj. rewrite gen_iter_product.
    apply gf_pow_ne_one. unfold order in *. lia.
Qed.

Lemma final_count : count final = SizeGF16.
Proof. unfold final. rewrite gen_iter_count. unfold order, SizeGF16. lia. Qed.

Lemma exp_at_final i :
  0 <= i <= 65535 -> exp_at final i = gf_pow generator (Z.to_nat i).
Proof.
  intros Hi. unfold exp_at, index, final.
  rewrite gen_iter_expTable, <- nth_lookup.
  rewrite (nth_indep _ 0 (gf_pow generator 0))
    by (rewrite length_map, length_seq; unfold order; lia).
  rewrite map_nth, seq_nth by (unfold order; lia).
  reflexivity.
Qed.

Lemma log_at_final k :
  (1 <= k <= order)%nat -> log_at final (gf_pow generator k) = Z.of_nat k.
Proof.
  intros Hk. unfold log_at, index, final.
  rewrite gen_iter_logTable; [reflexivity | |]; unfold order in *; lia.
Qed.

Lemma log_at_final_0 : log_at final 0 = 0.
Proof.
  unfold log_at, index, final.
  rewrite gen_iter_logTable_zero; [reflexivity | | |].
  - unfold order. lia.
  - unfold SizeGF16. lia.
  - intros k _. pose proof (gf_pow_range k). simpl. lia.
Qed.

(** The logarithm of [v]: an exponent in [1, 65535]. *)
Lemma log_at_final_spec v :
  1 <= v <= 65535 ->
  1 <= log_at final v <= 65535 /\
  gf_pow generator (Z.to_nat (log_at final v)) = v.
Proof.
  intros Hv. destruct (gf_log_exists v Hv) as (k & Hk & <-).
  destruct (Nat.eq_dec k 0%nat) as [->|Hk0].
  - replace (gf_pow generator 0%nat) with (gf_pow generator order)
      by (rewrite gf_pow_order; reflexivity).
    rewrite log_at_final by (unfold order; lia).
    split; [unfold order; lia|]. now rewrite Nat2Z.id.
  - rewrite log_at_final by lia.
    split; [unfold order in *; lia|]. now rewrite Nat2Z.id.
Qed.

(** *** The tool: self-check, emission and exit status *)

Definition error : Type := string.

(** What the operating system answers: the error of the write to standard
    error, and the first error met while creating and writing the table
    file ([None] is [nil]). *)
Record os_env := {
  stderr_WriteString : option error;
  emit_tables : option error
}.

(** [tableGenerator] for a generator constant [g]; the outer [None] is a
    loop that has not ended within the fuel. *)
Definition tableGenerator_for (g : Z) (fuel : nat) (env : os_env)
  : option (option error) :=
  match run g fuel with
  | None => None
  | Some s =>
      if negb (count s =? SizeGF16)
      then Some (stderr_WriteString env)
      else Some (emit_tables env)
  end.

Definition tableGenerator : nat -> os_env -> option (option error) :=
  tableGenerator_for generator.

(** [main]: the exit status. *)
Definition main_for (g : Z) (fuel : nat) (env : os_env) : option Z :=
  match tableGenerator_for g fuel env with
  | None => None
  | Some (Some _) => Some 1
  | Some None => Some 0
  end.

Definition main : nat -> os_env -> option Z := main_for generator.

(** C2 (amended): for every v in 1..65535 the logarithm table written by
    the generator holds an exponent in 1..65535 (the entry of 1 is 65535,
    not 0), and the generator 257 raised to that exponent, by the
    generator's own multiplication, is v. *)
Theorem logTable_exponent fuel s v :
  run generator fuel = Some s ->
  1 <= v <= 65535 ->
  1 <= log_at s v <= 65535 /\
  gf_pow generator (Z.to_nat (log_at s v)) = v.
Proof.
  intros Hrun Hv. apply run_generator_inv in Hrun as ->.
  now apply log_at_final_spec.
Qed.

Lemma logTable_exponent_witness :
  run generator (order - 1) = Some final /\
  1 <= 2 <= 65535 /\
  (1 <= log_at final 2 <= 65535 /\
   gf_pow generator (Z.to_nat (log_at final 2)) = 2).
Proof.
  split; [apply run_generator; lia|]. split; [lia|].
  apply (logTable_exponent (order - 1) final 2); [apply run_generator|]; lia.
Defined.

(** C2 as stated fails: the generator stores 65535 as the logarithm of 1,
    outside 0..65534. *)
Lemma logTable_range_counterexample :
  ~ (forall fuel s v,
       run generator fuel = Some s ->
       1 <= v <= 65535 ->
       0 <= log_at s v <= 65534 /\
       gf_pow generator (Z.to_nat (log_at s v)) = v).
Proof.
  intros H.
  destruct (H (order - 1)%nat final 1 (run_generator _ (Nat.le_refl _))
              ltac:(lia)) as [[_ Hle] _].
  assert (Hlog : log_at final (gf_pow generator order) = Z.of_nat order)
    by (apply log_at_final; unfold order; lia).
  rewrite gf_pow_order in Hlog. rewrite Hlog in Hle.
  unfold order in Hle. lia.
Qed.

(** C7: in the tables the generator produces from 0x1100B and 257,
    expTable[logTable[v]] = v for every v in 1..65535, and
    expTable[0] = 1. *)
Theorem table_round_trip fuel s :
  run generator fuel = Some s ->
  (forall v, 1 <= v <= 65535 -> exp_at s (log_at s v) = v) /\
  exp_at s 0 = 1.
Proof.
  intros Hrun. apply run_generator_inv in Hrun as ->. split.
  - intros v Hv. destruct (log_at_final_spec v Hv) as [Hr Hp].
    rewrite exp_at_final by lia. exact Hp.
  - rewrite exp_at_final by lia. reflexivity.
Qed.

Lemma table_round_trip_witness :
  run generator (order - 1) = Some final /\
  ((forall v, 1 <= v <= 65535 -> exp_at final (log_at final v) = v) /\
   exp_at final 0 = 1).
Proof.
  split; [apply run_generator; lia|].
  apply (table_round_trip (order - 1) final). apply run_generator. lia.
Defined.






Global Opaque final.

(** *** The multiplication is that of a field *)

Lemma u16_cases a :
  is_u16 a -> a = 0 \/ exists k, (k < order)%nat /\ gf_pow generator k = a.
Proof.
  intros Ha. destruct (Z.eq_dec a 0) as [->|Hne]; [now left|right].
  apply gf_log_exists. unfold is_u16 in Ha. lia.
Qed.

Lemma multiplyGF16_comm a b :
  is_u16 a -> is_u16 b -> multiplyGF16 a b = multiplyGF16 b a.
Proof.
  intros Ha Hb.
  destruct (u16_cases a Ha) as [->|(i & _ & <-)];
    [now rewrite multiplyGF16_0_l, multiplyGF16_0_r|].
  destruct (u16_cases b Hb) as [->|(j & _ & <-)];
    [now rewrite multiplyGF16_0_l, multiplyGF16_0_r|].
  rewrite <- !gf_pow_add. f_equal. lia.
Qed.

Lemma multiplyGF16_assoc a b c :
  is_u16 a -> is_u16 b -> is_u16 c ->
  multiplyGF16 a (multiplyGF16 b c) = multiplyGF16 (multiplyGF16 a b) c.
Proof.
  intros Ha Hb Hc.
  destruct (u16_cases a Ha) as [->|(i & _ & <-)];
    [now rewrite !multiplyGF16_0_l|].
  destruct (u16_cases b Hb) as [->|(j & _ & <-)];
    [now rewrite ?multiplyGF16_0_l, ?multiplyGF16_0_r, ?multiplyGF16_0_l|].
  destruct (u16_cases c Hc) as [->|(k & _ & <-)];
    [now rewrite ?multiplyGF16_0_r|].
  rewrite <- !gf_pow_add. f_equal. lia.
Qed.

(** The inverse of a non-zero element, as a power of the generator. *)
Lemma multiplyGF16_inverse a :
  is_u16 a -> a <> 0 ->
  exists b, is_u16 b /\ b <> 0 /\ multiplyGF16 b a = 1.
Proof.
  intros Ha Hne. destruct (u16_cases a Ha) as [->|(i & Hi & <-)]; [easy|].
  exists (gf_pow generator (order - i)). split; [|split].
  - apply gf_pow_u16, generator_u16.
  - apply gf_pow_nonzero.
  - rewrite <- gf_pow_add.
    replace (order - i + i)%nat with order by lia. apply gf_pow_order.
Qed.

Lemma multiplyGF16_integral a b :
  is_u16 a -> is_u16 b -> multiplyGF16 a b = 0 -> a = 0 \/ b = 0.
Proof.
  intros Ha Hb H.
  destruct (u16_cases a Ha) as [->|(i & _ & <-)]; [now left|].
  destruct (u16_cases b Hb) as [->|(j & _ & <-)]; [now right|].
  rewrite <- gf_pow_add in H. now apply gf_pow_nonzero in H.
Qed.

Lemma gf_pow_Zmod z :
  0 <= z ->
  gf_pow generator (Z.to_nat (z mod 65535)) = gf_pow generator (Z.to_nat z).
Proof.
  intros Hz.
  pose proof (Z.div_mod z 65535 ltac:(lia)) as Hdm.
  pose proof (Z.mod_pos_bound z 65535 ltac:(lia)) as Hm.
  assert (Hq : 0 <= z / 65535) by (apply Z.div_pos; lia).
  replace (Z.to_nat z)
    with (Z.to_nat (z mod 65535) + Z.to_nat (z / 65535) * order)%nat
    by (unfold order; lia).
  rewrite gf_pow_add, gf_pow_times_order.
  symmetry. apply multiplyGF16_1_r, gf_pow_u16, generator_u16.
Qed.

(** ** Further properties of the generator tool *)

(** The loop of [multiplyGF16] ends within sixteen rounds, whatever its
    operands, and its product is again a 16-bit value. *)
Theorem multiplyGF16_sixteen_rounds fuel a b :
  is_u16 a -> is_u16 b -> (16 <= fuel)%nat ->
  multiplyGF16_loop fuel a b 0 = multiplyGF16 a b /\
  is_u16 (multiplyGF16 a b).
Proof.
  intros Ha Hb Hf. split.
  - now apply multiplyGF16_fuel.
  - now apply multiplyGF16_u16.
Qed.

Lemma multiplyGF16_sixteen_rounds_witness :
  multiplyGF16_loop 20 3 7 0 = multiplyGF16 3 7 /\ is_u16 (multiplyGF16 3 7).
Proof.
  apply (multiplyGF16_sixteen_rounds 20 3 7); unfold is_u16; lia.
Defined.

(** [multiplyGF16] and exclusive or make the 16-bit values a field: the
    product is commutative and associative, distributes over exclusive
    or, has the unit 1, an inverse for every non-zero value, and no zero
    divisors. *)
Theorem multiplyGF16_field_laws a b c :
  is_u16 a -> is_u16 b -> is_u16 c ->
  multiplyGF16 a b = multiplyGF16 b a /\
  multiplyGF16 a (multiplyGF16 b c) = multiplyGF16 (multiplyGF16 a b) c /\
  multiplyGF16 a (Z.lxor b c) = Z.lxor (multiplyGF16 a b) (multiplyGF16 a c) /\
  multiplyGF16 1 a = a /\
  (a <> 0 -> exists a', is_u16 a' /\ multiplyGF16 a' a = 1) /\
  (multiplyGF16 a b = 0 -> a = 0 \/ b = 0).
Proof.
  intros Ha Hb Hc.
  split; [now apply multiplyGF16_comm|].
  split; [now apply multiplyGF16_assoc|].
  split; [now apply multiplyGF16_lxor_r|].
  split; [now apply multiplyGF16_1_l|].
  split.
  - intros Hne. destruct (multiplyGF16_inverse a Ha Hne) as (a' & Ha' & _ & H).
    now exists a'.
  - now apply multiplyGF16_integral.
Qed.

Lemma multiplyGF16_field_laws_witness :
  multiplyGF16 3 7 = multiplyGF16 7 3 /\
  (3 <> 0 -> exists a', is_u16 a' /\ multiplyGF16 a' 3 = 1).
Proof.
  destruct (multiplyGF16_field_laws 3 7 9) as (H1 & _ & _ & _ & H5 & _);
    try (unfold is_u16; lia).
  split; [exact H1 | exact H5].
Defined.

(** 257 is a primitive element: every non-zero value is the power of 257
    for exactly one exponent below 65535. *)
Theorem generator_primitive v :
  1 <= v <= 65535 ->
  exists k, (k < order)%nat /\ gf_pow generator k = v /\
            forall j, (j < order)%nat -> gf_pow generator j = v -> j = k.
Proof.
  intros Hv. destruct (gf_log_exists v Hv) as (k & Hk & Hp).
  exists k. split; [exact Hk|]. split; [exact Hp|].
  intros j Hj Hjp. apply gf_pow_inj; [exact Hj | exact Hk | congruence].
Qed.

Lemma generator_primitive_witness :
  exists k, (k < order)%nat /\ gf_pow generator k = 2 /\
            forall j, (j < order)%nat -> gf_pow generator j = 2 -> j = k.
Proof. apply (generator_primitive 2). lia. Defined.

(** The enumeration loop of the tool ends after exactly 65534 rounds: with
    that many rounds or more the self-check passes, [tableGenerator]
    returns what writing the table file returns, and the exit status is 0
    when the file is written and 1 when it is not; with fewer rounds the
    loop has not ended. *)
Theorem tableGenerator_exit fuel env :
  ((order - 1 <= fuel)%nat ->
   tableGenerator fuel env = Some (emit_tables env) /\
   main fuel env = Some (match emit_tables env with
                         | None => 0
                         | Some _ => 1
                         end)) /\
  ((fuel < order - 1)%nat -> main fuel env = None).
Proof.
  split.
  - intros Hf. unfold main, main_for, tableGenerator, tableGenerator_for.
    rewrite (run_generator fuel Hf), final_count, Z.eqb_refl. cbn [negb].
    split; [reflexivity|]. now destruct (emit_tables env).
  - intros Hf. unfold main, main_for, tableGenerator_for, run.
    rewrite gen_loop_runs_out; [reflexivity|].
    intros j Hj. rewrite gen_iter_product.
    apply gf_pow_ne_one. unfold order in *. lia.
Qed.

Lemma tableGenerator_exit_witness :
  main (order - 1)
       {| stderr_WriteString := None; emit_tables := None |} = Some 0 /\
  main 10 {| stderr_WriteString := None; emit_tables := None |} = None.
Proof.
  split.
  - apply (proj1 (tableGenerator_exit (order - 1)
                    {| stderr_WriteString := None; emit_tables := None |})).
    lia.
  - apply (proj2 (tableGenerator_exit 10 _)). unfold order. lia.
Defined.

(** The tables the tool writes have 65536 entries each.  [logTable] undoes
    [expTable] on the exponents 1..65535; the entry of [logTable] at 0 is
    the zero it was made with, and [expTable] ends as it starts, with 1. *)
Theorem table_log_of_exp fuel s :
  run generator fuel = Some s ->
  Z.of_nat (length (expTable s)) = 65536 /\
  Z.of_nat (length (logTable s)) = 65536 /\
  (forall k, 1 <= k <= 65535 -> log_at s (exp_at s k) = k) /\
  log_at s 0 = 0 /\
  exp_at s 65535 = 1.
Proof.
  intros Hrun. apply run_generator_inv in Hrun as ->.
  split; [|split; [|split; [|split]]].
  - with_strategy transparent [final] unfold final.
    rewrite gen_iter_expTable, length_map, length_seq. unfold order. lia.
  - with_strategy transparent [final] unfold final.
    rewrite gen_iter_logTable_length. unfold SizeGF16. lia.
  - intros k Hk. rewrite exp_at_final by lia.
    rewrite log_at_final by (unfold order; lia). lia.
  - apply log_at_final_0.
  - rewrite exp_at_final by lia.
    change (Z.to_nat 65535) with order. apply gf_pow_order.
Qed.

Lemma table_log_of_exp_witness :
  Z.of_nat (length (expTable final)) = 65536 /\
  Z.of_nat (length (logTable final)) = 65536 /\
  (forall k, 1 <= k <= 65535 -> log_at final (exp_at final k) = k) /\
  log_at final 0 = 0 /\
  exp_at final 65535 = 1.
Proof.
  apply (table_log_of_exp (order - 1) final). apply run_generator. lia.
Defined.

End Gen.

(** ** Polynomials over a field and Lagrange interpolation

    The algebra behind [evaluate] and [interpolatePolynomial], for any
    field.  Sample points are addressed by their index, as the loops of
    [interpolatePolynomial] do. *)

Module Poly.

Section Field.

Variable F : Type.
Variables (zero one : F) (add mul sub : F -> F -> F) (opp : F -> F).
Variables (div : F -> F -> F) (inv : F -> F).
Hypothesis Fth : field_theory zero one add mul sub opp div inv eq.

Add Field Ff : Fth.

(** The value of [c0 + c1 t + ... + cd t^d]. *)
Definition eval (p : list F) (t : F) : F :=
  fold_right (fun c acc => add c (mul t acc)) zero p.

Fixpoint padd (p q : list F) : list F :=
  match p, q with
  | [], _ => q
  | _, [] => p
  | a :: p', b :: q' => add a b :: padd p' q'
  end.

Definition scale (k : F) (p : list F) : list F := map (mul k) p.

(** [(X - a) * p]. *)
Definition mul_linear (a : F) (p : list F) : list F :=
  padd (zero :: p) (scale (opp a) p).

Section Samples.

(** The sample points: abscissa and ordinate at each index. *)
Variables (x y : nat -> F).

Definition term (i j : nat) (t : F) : F :=
  div (sub t (x j)) (sub (x i) (x j)).

Definition basis (i : nat) (js : list nat) (t : F) : F :=
  fold_left (fun acc j => if Nat.eqb i j then acc else mul acc (term i j t))
            js one.

Definition lagrange (js : list nat) (t : F) : F :=
  fold_left (fun acc i => add acc (mul (y i) (basis i js t))) js zero.

End Samples.

Lemma eval_cons c p t : eval (c :: p) t = add c (mul t (eval p t)).
Proof. reflexivity. Qed.

Lemma eval_padd p : forall q t, eval (padd p q) t = add (eval p t) (eval q t).
Proof.
  induction p as [|a p IH]; intros q t.
  - simpl. ring.
  - destruct q as [|b q]; simpl.
    + ring.
    + fold (eval (padd p q) t) (eval p t) (eval q t). rewrite IH. ring.
Qed.

Lemma length_padd p : forall q,
  length (padd p q) = Nat.max (length p) (length q).
Proof.
  induction p as [|a p IH]; intros q; [reflexivity|].
  destruct q as [|b q]; simpl; [reflexivity|]. now rewrite IH.
Qed.

Lemma eval_scale k p t : eval (scale k p) t = mul k (eval p t).
Proof.
  induction p as [|a p IH]; simpl.
  - ring.
  - fold (eval (scale k p) t) (eval p t). rewrite IH. ring.
Qed.

Lemma length_scale k p : length (scale k p) = length p.
Proof. apply length_map. Qed.

Lemma eval_mul_linear a p t :
  eval (mul_linear a p) t = mul (sub t a) (eval p t).
Proof.
  unfold mul_linear. rewrite eval_padd, eval_scale, eval_cons. ring.
Qed.

Lemma length_mul_linear a p : length (mul_linear a p) = S (length p).
Proof.
  unfold mul_linear. rewrite length_padd, length_scale. simpl. lia.
Qed.

Lemma mul_zero_inv u v : u <> zero -> mul u v = zero -> v = zero.
Proof.
  intros Hu H.
  assert (E : v = mul (inv u) (mul u v)) by (field; exact Hu).
  rewrite E, H. ring.
Qed.

(** Division by [X - a]: quotient and remainder. *)
Lemma quotient p : forall c a,
  exists q r, length q = length p /\
    forall t, eval (c :: p) t = add r (mul (sub t a) (eval q t)).
Proof.
  induction p as [|c' p IH]; intros c a.
  - exists [], c. split; [reflexivity|]. intros t. simpl. ring.
  - destruct (IH c' a) as (q & r & Hlen & Hq).
    exists (r :: q), (add c (mul a r)). split; [simpl; congruence|].
    intros t. rewrite (eval_cons c), Hq, (eval_cons r). ring.
Qed.

(** A polynomial with no more coefficients than it has distinct roots
    vanishes everywhere. *)
Lemma roots (x : nat -> F) js :
  List.NoDup js ->
  (forall i j, In i js -> In j js -> x i = x j -> i = j) ->
  forall p, (length p <= length js)%nat ->
  (forall j, In j js -> eval p (x j) = zero) ->
  forall t, eval p t = zero.
Proof.
  induction js as [|a js IH]; intros Hnd Hinj p Hlen Hroot t.
  - destruct p; [reflexivity | simpl in Hlen; lia].
  - destruct p as [|c p]; [reflexivity|].
    destruct (quotient p c (x a)) as (q & r & Hq & Hdiv).
    inversion Hnd as [|? ? Hnotin Hnd']; subst.
    assert (Hr : r = zero).
    { pose proof (Hroot a (or_introl eq_refl)) as H. rewrite Hdiv in H.
      rewrite <- H. ring. }
    assert (Hqz : forall t', eval q t' = zero).
    { apply IH; [exact Hnd' | | simpl in Hlen; lia |].
      - intros i j Hi Hj. apply Hinj; now right.
      - intros j Hj.
        pose proof (Hroot j (or_intror Hj)) as H. rewrite Hdiv, Hr in H.
        apply (mul_zero_inv (sub (x j) (x a))).
        + intros Hz. apply Hnotin.
          assert (x j = x a) as E.
          { replace (x j) with (add (sub (x j) (x a)) (x a)) by ring.
            rewrite Hz. ring. }
          apply Hinj in E; [subst; exact Hj | now right | now left].
        + rewrite <- H. ring. }
    rewrite Hdiv, Hr, Hqz. ring.
Qed.

Section Interpolation.

Variables (x y : nat -> F).

Let bstep (i : nat) (t : F) :=
  fun acc j => if Nat.eqb i j then acc else mul acc (term x i j t).
Let lstep (js : list nat) (t : F) :=
  fun acc i => add acc (mul (y i) (basis x i js t)).

Lemma basis_acc i t js : forall acc,
  fold_left (bstep i t) js acc = mul acc (fold_left (bstep i t) js one).
Proof.
  induction js as [|j js IH]; intros acc; simpl.
  - ring.
  - rewrite IH, (IH (bstep i t one j)). unfold bstep.
    destruct (Nat.eqb i j); ring.
Qed.

Lemma lagrange_acc js0 t js : forall acc,
  fold_left (lstep js0 t) js acc = add acc (fold_left (lstep js0 t) js zero).
Proof.
  induction js as [|j js IH]; intros acc; simpl.
  - ring.
  - rewrite IH, (IH (lstep js0 t zero j)). unfold lstep. ring.
Qed.

Lemma basis_cons i j js t :
  basis x i (j :: js) t =
  mul (if Nat.eqb i j then one else term x i j t) (basis x i js t).
Proof.
  unfold basis. simpl. fold (bstep i t). rewrite basis_acc.
  destruct (Nat.eqb i j); [reflexivity|]. f_equal. ring.
Qed.

(** At another sample point the basis polynomial vanishes. *)
Lemma basis_zero i k js :
  In k js -> k <> i -> basis x i js (x k) = zero.
Proof.
  intros Hin Hne. induction js as [|j js IH]; [easy|].
  rewrite basis_cons. destruct Hin as [->|Hin].
  - apply Nat.eqb_neq in Hne. rewrite Nat.eqb_sym, Hne.
    unfold term. destruct Fth as [_ _ Hdiv _]. rewrite Hdiv. ring.
  - rewrite (IH Hin). ring.
Qed.

(** At its own sample point it is one. *)
Lemma basis_one i js :
  (forall j, In j js -> j <> i -> x j <> x i) -> basis x i js (x i) = one.
Proof.
  induction js as [|j js IH]; intros Hd; [reflexivity|].
  rewrite basis_cons, IH by (intros; apply Hd; [now right | assumption]).
  destruct (Nat.eqb_spec i j) as [->|Hne]; [ring|].
  unfold term. field. intros Hz. apply (Hd j); [now left | congruence |].
  symmetry. replace (x i) with (add (sub (x i) (x j)) (x j)) by ring.
  rewrite Hz. ring.
Qed.

Lemma lagrange_partial js0 k l :
  List.NoDup l -> In k js0 ->
  (forall j, In j js0 -> j <> k -> x j <> x k) ->
  fold_left (lstep js0 (x k)) l zero = if in_dec Nat.eq_dec k l then y k else zero.
Proof.
  intros Hnd Hk Hd. induction l as [|i l IH]; [reflexivity|].
  inversion Hnd as [|? ? Hnotin Hnd']; subst.
  simpl fold_left. rewrite lagrange_acc, (IH Hnd'). unfold lstep.
  destruct (in_dec Nat.eq_dec k (i :: l)) as [Hin|Hout].
  - destruct Hin as [->|Hin].
    + rewrite basis_one by exact Hd.
      destruct (in_dec Nat.eq_dec k l); [contradiction|]. ring.
    + destruct (in_dec Nat.eq_dec k l); [|contradiction].
      rewrite basis_zero; [ring | exact Hk | congruence].
  - destruct (in_dec Nat.eq_dec k l) as [Hin|_]; [exfalso; apply Hout; now right|].
    rewrite basis_zero; [ring | exact Hk |].
    intros ->. apply Hout. now left.
Qed.

(** The interpolant passes through every sample. *)
Lemma lagrange_at js k :
  List.NoDup js -> In k js ->
  (forall i j, In i js -> In j js -> x i = x j -> i = j) ->
  lagrange x y js (x k) = y k.
Proof.
  intros Hnd Hk Hinj. unfold lagrange. fold (lstep js (x k)).
  rewrite (lagrange_partial js k js Hnd Hk).
  - destruct (in_dec Nat.eq_dec k js); [reflexivity | contradiction].
  - intros j Hj Hne E. apply Hne. now apply Hinj.
Qed.

Definition others (i : nat) (js : list nat) : list nat :=
  List.filter (fun j => negb (Nat.eqb i j)) js.

Lemma length_others i js :
  List.NoDup js -> In i js -> S (length (others i js)) = length js.
Proof.
  induction js as [|j js IH]; intros Hnd Hin; [easy|].
  inversion Hnd as [|? ? Hnotin Hnd']; subst. unfold others in *. simpl.
  destruct (Nat.eqb_spec i j) as [->|Hne]; simpl.
  - f_equal. clear IH Hin Hnd. induction js as [|k js IH]; [reflexivity|].
    simpl. destruct (Nat.eqb_spec j k) as [->|_].
    + exfalso. apply Hnotin. now left.
    + simpl. f_equal. apply IH.
      * intros H. apply Hnotin. now right.
      * now inversion Hnd'.
  - f_equal. apply IH; [exact Hnd'|]. destruct Hin; [congruence | assumption].
Qed.

(** The basis is a polynomial in the evaluation point. *)
Lemma basis_poly i js : forall accp,
  exists c, length c = (length accp + length (others i js))%nat /\
    forall t, fold_left (bstep i t) js (eval accp t) = eval c t.
Proof.
  induction js as [|j js IH]; intros accp.
  - exists accp. split; [simpl; lia | reflexivity].
  - simpl fold_left. unfold others. simpl List.filter.
    destruct (Nat.eqb_spec i j) as [->|Hne].
    + destruct (IH accp) as (c & Hc & He). exists c. split; [exact Hc|].
      intros t. unfold bstep at 2. rewrite Nat.eqb_refl. apply He.
    + set (k := inv (sub (x i) (x j))).
      destruct (IH (scale k (mul_linear (x j) accp))) as (c & Hc & He).
      exists c. split.
      * rewrite Hc, length_scale, length_mul_linear. simpl. unfold others. lia.
      * intros t. rewrite <- He. f_equal. unfold bstep.
        apply Nat.eqb_neq in Hne. rewrite Hne.
        rewrite eval_scale, eval_mul_linear. unfold term, k.
        destruct Fth as [_ _ Hdiv _]. rewrite Hdiv. ring.
Qed.

Lemma lagrange_poly js : List.NoDup js ->
  exists c, (length c <= length js)%nat /\
    forall t, lagrange x y js t = eval c t.
Proof.
  intros Hnd.
  assert (H : forall l accp,
             (forall i, In i l -> In i js) ->
             (length accp <= length js)%nat ->
             exists c, (length c <= length js)%nat /\
               forall t, fold_left (lstep js t) l (eval accp t) = eval c t).
  { induction l as [|i l IH]; intros accp Hsub Hlen.
    - exists accp. split; [exact Hlen | reflexivity].
    - destruct (basis_poly i js [one]) as (cb & Hcb & Heb).
      destruct (IH (padd accp (scale (y i) cb))) as (c & Hc & He).
      + intros k Hk. apply Hsub. now right.
      + rewrite length_padd, length_scale, Hcb. simpl.
        pose proof (length_others i js Hnd (Hsub i (or_introl eq_refl))). lia.
      + exists c. split; [exact Hc|]. intros t. rewrite <- He. simpl.
        f_equal. unfold lstep. rewrite eval_padd, eval_scale, <- Heb.
        unfold basis. fold (bstep i t). f_equal. f_equal. f_equal.
        simpl. ring. }
  destruct (H js [] (fun i Hi => Hi) ltac:(simpl; lia)) as (c & Hc & He).
  exists c. split; [exact Hc|]. intros t. rewrite <- He. reflexivity.
Qed.

(** Interpolating the samples of a polynomial of small enough degree gives
    the polynomial back, at every point. *)
Theorem lagrange_interpolation js p :
  List.NoDup js ->
  (forall i j, In i js -> In j js -> x i = x j -> i = j) ->
  (length p <= length js)%nat ->
  (forall i, In i js -> y i = eval p (x i)) ->
  forall t, lagrange x y js t = eval p t.
Proof.
  intros Hnd Hinj Hlen Hy t.
  destruct (lagrange_poly js Hnd) as (c & Hc & He).
  set (d := padd p (scale (opp one) c)).
  assert (Hd : forall t', eval d t' = zero).
  { apply (roots x js Hnd Hinj).
    - unfold d. rewrite length_padd, length_scale. lia.
    - intros j Hj. unfold d. rewrite eval_padd, eval_scale, <- He.
      rewrite lagrange_at by assumption. rewrite (Hy j Hj). ring. }
  specialize (Hd t). unfold d in Hd.
  rewrite eval_padd, eval_scale, <- He in Hd.
  replace (lagrange x y js t)
    with (sub (eval p t)
              (add (eval p t) (mul (opp one) (lagrange x y js t)))) by ring.
  rewrite Hd. ring.
Qed.

End Interpolation.

(** Two families of samples that hold the same points, in any order, have
    the same interpolant. *)
Theorem lagrange_unique (x y x' y' : nat -> F) js js' :
  List.NoDup js -> List.NoDup js' -> length js' = length js ->
  (forall i j, In i js -> In j js -> x i = x j -> i = j) ->
  (forall i j, In i js' -> In j js' -> x' i = x' j -> i = j) ->
  (forall k, In k js -> exists i, In i js' /\ x' i = x k /\ y' i = y k) ->
  forall t, lagrange x y js t = lagrange x' y' js' t.
Proof.
  intros Hnd Hnd' Hlen Hinj Hinj' Hsame t.
  destruct (lagrange_poly x y js Hnd) as (c & Hc & He).
  destruct (lagrange_poly x' y' js' Hnd') as (c' & Hc' & He').
  set (d := padd c (scale (opp one) c')).
  assert (Hd : forall t', eval d t' = zero).
  { apply (roots x js Hnd Hinj).
    - unfold d. rewrite length_padd, length_scale. lia.
    - intros k Hk. unfold d. rewrite eval_padd, eval_scale, <- He, <- He'.
      destruct (Hsame k Hk) as (i & Hi & Hx & Hy).
      rewrite lagrange_at by assumption.
      rewrite <- Hx, lagrange_at by assumption. rewrite Hy. ring. }
  specialize (Hd t). unfold d in Hd.
  rewrite eval_padd, eval_scale, <- He, <- He' in Hd.
  replace (lagrange x y js t)
    with (sub (add (lagrange x y js t)
                   (mul (opp one) (lagrange x' y' js' t)))
              (mul (opp one) (lagrange x' y' js' t))) by ring.
  rewrite Hd. ring.
Qed.

(** The line through two points of a polynomial with three coefficients
    misses its value at zero by the product of the top coefficient and
    the two abscissae. *)
Lemma lagrange_two (x y : nat -> F) (v a b : F) :
  x 0%nat <> x 1%nat ->
  y 0%nat = eval [v; a; b] (x 0%nat) ->
  y 1%nat = eval [v; a; b] (x 1%nat) ->
  lagrange x y [0; 1]%nat zero =
  sub v (mul b (mul (x 0%nat) (x 1%nat))).
Proof.
  intros Hne Hy0 Hy1.
  unfold lagrange, basis, term. cbn [fold_left Nat.eqb].
  rewrite Hy0, Hy1. unfold eval. cbn [fold_right].
  field. split; intros E; apply Hne.
  - replace (x 1%nat) with (add (sub (x 1%nat) (x 0%nat)) (x 0%nat)) by ring.
    rewrite E. ring.
  - replace (x 0%nat) with (add (sub (x 0%nat) (x 1%nat)) (x 1%nat)) by ring.
    rewrite E. ring.
Qed.

End Field.

End Poly.

(** ** The library: results, tables and field arithmetic *)

Module Shamir.

Import Gen.

(** A call returns a value, returns a Go [error], or panics. *)
Inductive result (A : Type) : Type :=
| Ok (a : A)
| Err (e : string)
| Panic (m : string).

Arguments Ok {A} a.
Arguments Err {A} e.
Arguments Panic {A} m.

Definition bind {A B} (r : result A) (k : A -> result B) : result B :=
  match r with
  | Ok a => k a
  | Err e => Err e
  | Panic m => Panic m
  end.

Notation "x <- e ;; k" := (bind e (fun x => k))
  (at level 100, e at next level, right associativity).

(** A left-to-right loop over [l] that stops at the first error or panic. *)
Fixpoint foldM {A B} (f : B -> A -> result B) (l : list A) (b : B) : result B :=
  match l with
  | [] => Ok b
  | a :: l' => b' <- f b a ;; foldM f l' b'
  end.

(** Indexing a slice: out of range is a run-time panic. *)
Definition get {A} (l : list A) (i : nat) : result A :=
  match l !! i with
  | Some v => Ok v
  | None => Panic "index out of range"
  end.

(** Modelled from the spec: [tables.go] is not among the sources.  Its header
    and the spec (section 4.1) say that the two embedded constants are the
    tables [tableGenerator] writes for the polynomial 0x1100B and the
    generator 257, so they are taken to be the tables of the state the
    generator's loop ends in. *)
Definition logTable : list Z := Gen.logTable Gen.final.
Definition expTable : list Z := Gen.expTable Gen.final.

(** [crypto/subtle]: constant-time comparison and selection. *)
Definition ConstantTimeEq (x y : Z) : Z := if x =? y then 1 else 0.
Definition ConstantTimeSelect (v x y : Z) : Z := if v =? 1 then x else y.

(** [add] combines two numbers in GF(2^16). *)
Definition add (a b : Z) : Z := Z.lxor a b.

(** [mult] multiplies two numbers in GF(2^16). *)
Definition mult (a b : Z) : Z :=
  let log_a := index logTable a in
  let log_b := index logTable b in
  let sum := Z.rem (log_a + log_b) ModuloGF16 in
  let ret := index expTable sum in
  let ret := ConstantTimeSelect (ConstantTimeEq a 0) 0 ret in
  let ret := ConstantTimeSelect (ConstantTimeEq b 0) 0 ret in
  u16 ret.

(** [div] divides two numbers in GF(2^16). *)
Definition div (a b : Z) : result Z :=
  if b =? 0 then Panic "divide by zero"
  else
    let log_a := index logTable a in
    let log_b := index logTable b in
    let diff := Z.rem ((log_a - log_b) + ModuloGF16) ModuloGF16 in
    let ret := index expTable diff in
    let ret := ConstantTimeSelect (ConstantTimeEq a 0) 0 ret in
    Ok (u16 ret).

Lemma select_eq_0 a r :
  ConstantTimeSelect (ConstantTimeEq a 0) 0 r = if a =? 0 then 0 else r.
Proof.
  unfold ConstantTimeSelect, ConstantTimeEq. now destruct (a =? 0).
Qed.

Lemma index_logTable v : index logTable v = log_at final v.
Proof. reflexivity. Qed.

Lemma index_expTable k : index expTable k = exp_at final k.
Proof. reflexivity. Qed.

(** On field elements the table look-ups compute the generator's own
    multiplication. *)
Lemma mult_spec a b :
  is_u16 a -> is_u16 b -> mult a b = multiplyGF16 a b.
Proof.
  intros Ha Hb. unfold mult. cbv zeta. rewrite !select_eq_0.
  destruct (Z.eqb_spec a 0) as [->|Ha0].
  { rewrite multiplyGF16_0_l. now destruct (b =? 0). }
  destruct (Z.eqb_spec b 0) as [->|Hb0].
  { rewrite multiplyGF16_0_r. change (0 =? 0) with true. cbv iota.
    reflexivity. }
  rewrite (index_logTable a), (index_logTable b), index_expTable.
  destruct (log_at_final_spec a) as [Hla Hpa]; [unfold is_u16 in Ha; lia|].
  destruct (log_at_final_spec b) as [Hlb Hpb]; [unfold is_u16 in Hb; lia|].
  set (la := log_at final a) in *. set (lb := log_at final b) in *.
  unfold ModuloGF16, SizeGF16. change (65536 - 1) with 65535.
  rewrite Z.rem_mod_nonneg by lia.
  pose proof (Z.mod_pos_bound (la + lb) 65535 ltac:(lia)) as Hm.
  rewrite exp_at_final by lia.
  rewrite gf_pow_Zmod by lia.
  rewrite Z2Nat.inj_add, gf_pow_add, Hpa, Hpb by lia.
  apply u16_id. now apply multiplyGF16_u16.
Qed.

Lemma div_spec a b :
  is_u16 a -> is_u16 b -> b <> 0 ->
  exists d, div a b = Ok d /\ is_u16 d /\ multiplyGF16 d b = a.
Proof.
  intros Ha Hb Hb0. unfold div.
  apply Z.eqb_neq in Hb0 as Hb0'. rewrite Hb0'. cbv zeta.
  rewrite select_eq_0.
  destruct (Z.eqb_spec a 0) as [->|Ha0].
  { exists 0. split; [reflexivity|]. split; [unfold is_u16; lia|].
    apply multiplyGF16_0_l. }
  rewrite (index_logTable a), (index_logTable b), index_expTable.
  destruct (log_at_final_spec a) as [Hla Hpa]; [unfold is_u16 in Ha; lia|].
  destruct (log_at_final_spec b) as [Hlb Hpb]; [unfold is_u16 in Hb; lia|].
  set (la := log_at final a) in *. set (lb := log_at final b) in *.
  unfold ModuloGF16, SizeGF16. change (65536 - 1) with 65535.
  rewrite Z.rem_mod_nonneg by lia.
  pose proof (Z.mod_pos_bound (la - lb + 65535) 65535 ltac:(lia)) as Hm.
  rewrite exp_at_final by lia.
  set (d := gf_pow generator (Z.to_nat ((la - lb + 65535) mod 65535))).
  assert (Hd : is_u16 d) by apply gf_pow_u16, generator_u16.
  exists d. rewrite u16_id by exact Hd.
  split; [reflexivity|]. split; [exact Hd|].
  unfold d. clearbody la lb. rewrite <- Hpb. rewrite <- gf_pow_add.
  rewrite <- Z2Nat.inj_add by lia.
  rewrite <- gf_pow_Zmod by lia.
  rewrite Z.add_mod_idemp_l by lia.
  replace (la - lb + 65535 + lb) with (la + 1 * 65535) by lia.
  rewrite Z.mod_add by lia. rewrite gf_pow_Zmod by lia. exact Hpa.
Qed.

Lemma div_zero a : div a 0 = Panic "divide by zero".
Proof. reflexivity. Qed.

(** C6: [div a b] panics exactly when [b] is 0; for every [a] and every
    non-zero [b], [mult (div a b) b = a] and [div 0 b = 0]. *)
Theorem div_mult_consistent a b :
  is_u16 a -> is_u16 b ->
  ((exists m, div a b = Panic m) <-> b = 0) /\
  (b <> 0 -> exists d, div a b = Ok d /\ mult d b = a) /\
  (b <> 0 -> div 0 b = Ok 0).
Proof.
  intros Ha Hb. split; [|split].
  - split.
    + intros [m Hm]. destruct (Z.eq_dec b 0) as [|Hne]; [assumption|].
      destruct (div_spec a b Ha Hb Hne) as (d & Hd & _). congruence.
    + intros ->. eexists. apply div_zero.
  - intros Hne. destruct (div_spec a b Ha Hb Hne) as (d & Hd & Hr & Hm).
    exists d. split; [exact Hd|]. now rewrite mult_spec.
  - intros Hne. unfold div. apply Z.eqb_neq in Hne. rewrite Hne.
    cbv zeta. rewrite select_eq_0. reflexivity.
Qed.

Lemma div_mult_consistent_witness :
  is_u16 6 /\ is_u16 3 /\
  (((exists m, div 6 3 = Panic m) <-> 3 = 0) /\
   (3 <> 0 -> exists d, div 6 3 = Ok d /\ mult d 3 = 6) /\
   (3 <> 0 -> div 0 3 = Ok 0)).
Proof.
  assert (H6 : is_u16 6) by (unfold is_u16; lia).
  assert (H3 : is_u16 3) by (unfold is_u16; lia).
  split; [exact H6|]. split; [exact H3|].
  exact (div_mult_consistent 6 3 H6 H3).
Defined.

(** *** The field GF(2^16) as a type

    Field elements with their range proof, carrying the operations of the
    library, so that the field tactics apply. *)

Record gf : Type := { val : Z; val_ok : is_u16b val = true }.

Lemma val_u16 (a : gf) : is_u16 (val a).
Proof. apply is_u16b_spec, val_ok. Qed.

Lemma gf_eq (a b : gf) : val a = val b -> a = b.
Proof.
  destruct a as [a Ha], b as [b Hb]. simpl. intros ->. f_equal.
  apply Eqdep_dec.UIP_dec, bool_dec.
Qed.

Lemma of_Z_ok z : is_u16b (u16 z) = true.
Proof. apply is_u16b_spec, u16_range. Qed.

Definition of_Z (z : Z) : gf := {| val := u16 z; val_ok := of_Z_ok z |}.

Lemma val_of_Z z : is_u16 z -> val (of_Z z) = z.
Proof. intros H. simpl. now apply u16_id. Qed.

Lemma of_Z_val a : of_Z (val a) = a.
Proof. apply gf_eq. apply val_of_Z, val_u16. Qed.

(** The quotient [div] returns, and 0 where it panics. *)
Definition quot (a b : Z) : Z :=
  match div a b with
  | Ok d => d
  | _ => 0
  end.

Definition gf_zero : gf := of_Z 0.
Definition gf_one : gf := of_Z 1.
Definition gf_add (a b : gf) : gf := of_Z (add (val a) (val b)).
Definition gf_mul (a b : gf) : gf := of_Z (mult (val a) (val b)).
Definition gf_opp (a : gf) : gf := a.
Definition gf_div (a b : gf) : gf := of_Z (quot (val a) (val b)).
Definition gf_inv (a : gf) : gf := gf_div gf_one a.

Lemma add_u16 a b : is_u16 a -> is_u16 b -> is_u16 (add a b).
Proof. apply lxor_u16. Qed.

Lemma mult_u16 a b : is_u16 a -> is_u16 b -> is_u16 (mult a b).
Proof. intros Ha Hb. rewrite mult_spec by assumption. now apply multiplyGF16_u16. Qed.

Lemma quot_spec a b :
  is_u16 a -> is_u16 b -> b <> 0 ->
  div a b = Ok (quot a b) /\ is_u16 (quot a b) /\ mult (quot a b) b = a.
Proof.
  intros Ha Hb Hne. destruct (div_spec a b Ha Hb Hne) as (d & Hd & Hr & Hm).
  unfold quot. rewrite Hd. split; [reflexivity|]. split; [exact Hr|].
  now rewrite mult_spec.
Qed.

Lemma quot_0_r a : quot a 0 = 0.
Proof. reflexivity. Qed.

Lemma quot_u16 a b : is_u16 a -> is_u16 b -> is_u16 (quot a b).
Proof.
  intros Ha Hb. destruct (Z.eq_dec b 0) as [->|Hne].
  - rewrite quot_0_r. unfold is_u16. lia.
  - now apply quot_spec.
Qed.

Lemma val_add a b : val (gf_add a b) = add (val a) (val b).
Proof. apply val_of_Z, add_u16; apply val_u16. Qed.

Lemma val_mul a b : val (gf_mul a b) = mult (val a) (val b).
Proof. apply val_of_Z, mult_u16; apply val_u16. Qed.

Lemma val_div a b : val (gf_div a b) = quot (val a) (val b).
Proof. apply val_of_Z, quot_u16; apply val_u16. Qed.

Lemma mult_comm a b : is_u16 a -> is_u16 b -> mult a b = mult b a.
Proof. intros. rewrite !mult_spec by assumption. now apply multiplyGF16_comm. Qed.

Lemma mult_assoc a b c :
  is_u16 a -> is_u16 b -> is_u16 c -> mult a (mult b c) = mult (mult a b) c.
Proof.
  intros Ha Hb Hc.
  rewrite (mult_spec b c), (mult_spec a b) by assumption.
  rewrite !mult_spec by (auto using multiplyGF16_u16).
  now apply multiplyGF16_assoc.
Qed.

Lemma gf_ring : ring_theory gf_zero gf_one gf_add gf_mul gf_add gf_opp eq.
Proof.
  split; intros; apply gf_eq;
    rewrite ?val_add, ?val_mul, ?val_add, ?val_mul; unfold add.
  - apply Z.lxor_0_l.
  - apply Z.lxor_comm.
  - symmetry. apply Z.lxor_assoc.
  - change (val gf_one) with 1. rewrite mult_spec by (try apply val_u16; unfold is_u16; lia).
    apply multiplyGF16_1_l, val_u16.
  - apply mult_comm; apply val_u16.
  - apply mult_assoc; apply val_u16.
  - rewrite !mult_spec by (try apply lxor_u16; apply val_u16).
    apply multiplyGF16_lxor_l; apply val_u16.
  - reflexivity.
  - apply Z.lxor_nilpotent.
Qed.

Lemma gf_field :
  field_theory gf_zero gf_one gf_add gf_mul gf_add gf_opp gf_div gf_inv eq.
Proof.
  split.
  - exact gf_ring.
  - intros H. apply (f_equal val) in H. discriminate.
  - intros p q. apply gf_eq. unfold gf_inv.
    rewrite val_mul, !val_div. change (val gf_one) with 1.
    pose proof (val_u16 p) as Hp. pose proof (val_u16 q) as Hq.
    destruct (Z.eq_dec (val q) 0) as [E|Hne].
    + rewrite E, !quot_0_r. rewrite mult_spec by (unfold is_u16 in *; lia).
      now rewrite multiplyGF16_0_r.
    + assert (H1 : is_u16 1) by (unfold is_u16; lia).
      destruct (quot_spec (val p) (val q) Hp Hq Hne) as (_ & Hr & Hm).
      destruct (quot_spec 1 (val q) H1 Hq Hne) as (_ & Hr1 & Hm1).
      set (d := quot (val p) (val q)) in *. set (i := quot 1 (val q)) in *.
      clearbody d i. rewrite <- Hm.
      rewrite <- mult_assoc, (mult_comm (val q) i), Hm1 by assumption.
      rewrite mult_spec by assumption. symmetry.
      now apply multiplyGF16_1_r.
  - intros p Hp. apply gf_eq. unfold gf_inv.
    rewrite val_mul, val_div. change (val gf_one) with 1.
    apply quot_spec; [unfold is_u16; lia | apply val_u16 |].
    intros E. apply Hp. apply gf_eq. rewrite E. reflexivity.
Qed.

(** *** Byte order conversion at the API boundary *)

Definition Secret : Type := list byte.
Definition Part : Type := list byte.

Definition byte_val (b : byte) : Z := Z.of_N (Byte.to_N b).

(** Conversion to [byte]: the low eight bits. *)
Definition byte_of (z : Z) : byte :=
  match Byte.of_N (Z.to_N (z mod 256)) with
  | Some b => b
  | None => "000"%byte
  end.

(** [uint16ToByte]: each word as two bytes, most significant first. *)
Fixpoint uint16ToByte (s : list Z) : list byte :=
  match s with
  | [] => []
  | w :: s' => byte_of (w / 256) :: byte_of w :: uint16ToByte s'
  end.

(** [byteToUint16]: [len(s)/2] big-endian words; a trailing odd byte is
    not read. *)
Fixpoint byteToUint16 (s : list byte) : list Z :=
  match s with
  | hi :: lo :: s' => (256 * byte_val hi + byte_val lo) :: byteToUint16 s'
  | _ => []
  end.

Lemma byte_val_range b : 0 <= byte_val b < 256.
Proof.
  unfold byte_val. pose proof (Byte.to_N_bounded b). lia.
Qed.

Lemma byte_of_val b : byte_of (byte_val b) = b.
Proof.
  unfold byte_of. pose proof (byte_val_range b).
  rewrite Z.mod_small by lia. unfold byte_val.
  now rewrite N2Z.id, Byte.of_to_N.
Qed.

Lemma byte_val_of z : byte_val (byte_of z) = z mod 256.
Proof.
  unfold byte_of, byte_val.
  pose proof (Z.mod_pos_bound z 256 ltac:(lia)) as Hm.
  destruct (Byte.of_N (Z.to_N (z mod 256))) as [b|] eqn:E.
  - apply Byte.to_of_N in E. rewrite E. lia.
  - apply Byte.of_N_None_iff in E. lia.
Qed.

Lemma byte_of_mod z : byte_of z = byte_of (z mod 256).
Proof. unfold byte_of. now rewrite Z.mod_mod by lia. Qed.

Lemma list_pair_ind {A} (P : list A -> Prop) :
  P [] -> (forall a, P [a]) ->
  (forall a b l, P l -> P (a :: b :: l)) ->
  forall l, P l.
Proof.
  intros H0 H1 H2.
  assert (H : forall l, P l /\ forall a, P (a :: l)).
  { induction l as [|b l [IH1 IH2]]; split; auto. }
  intros l. apply H.
Qed.

Lemma byteToUint16_u16 s : Forall is_u16 (byteToUint16 s).
Proof.
  induction s as [| a | hi lo s IH] using list_pair_ind; simpl; auto.
  constructor; [|exact IH].
  pose proof (byte_val_range hi). pose proof (byte_val_range lo).
  unfold is_u16. lia.
Qed.

Lemma length_byteToUint16 s :
  length (byteToUint16 s) = Nat.div2 (length s).
Proof.
  induction s as [| a | hi lo s IH] using list_pair_ind; simpl; auto.
Qed.

Lemma length_uint16ToByte l : length (uint16ToByte l) = (2 * length l)%nat.
Proof. induction l as [|w l IH]; simpl; [reflexivity | rewrite IH; lia]. Qed.

Lemma uint16ToByte_byteToUint16 s :
  Nat.even (length s) = true -> uint16ToByte (byteToUint16 s) = s.
Proof.
  induction s as [| a | hi lo s IH] using list_pair_ind; simpl; intros He.
  - reflexivity.
  - discriminate.
  - pose proof (byte_val_range hi) as Hh. pose proof (byte_val_range lo) as Hl.
    rewrite IH by exact He. f_equal; [|f_equal].
    + replace ((256 * byte_val hi + byte_val lo) / 256) with (byte_val hi).
      * apply byte_of_val.
      * apply Z.div_unique with (r := byte_val lo); lia.
    + rewrite byte_of_mod.
      rewrite Z.add_comm, Z.mul_comm, Z.mod_add by lia.
      rewrite <- byte_of_mod. apply byte_of_val.
Qed.

Lemma byteToUint16_uint16ToByte l :
  Forall is_u16 l -> byteToUint16 (uint16ToByte l) = l.
Proof.
  induction 1 as [|w l Hw _ IH]; simpl; [reflexivity|].
  rewrite IH, !byte_val_of. f_equal.
  unfold is_u16 in Hw.
  rewrite (Z.mod_small (w / 256)).
  - pose proof (Z.div_mod w 256 ltac:(lia)). lia.
  - split; [apply Z.div_pos; lia | apply Z.div_lt_upper_bound; lia].
Qed.

Add Field gf_field_tac : gf_field.

(** *** The random source and the effects of a call *)

Record world := {
  tape : nat -> byte;               (* the bytes the source hands out *)
  failing : nat -> option string;   (* the error of the n-th read, if any *)
  pos : nat;                        (* bytes handed out so far *)
  reads : nat;                      (* calls of [rand.Read] so far *)
  allocated : nat                   (* words of share buffers allocated *)
}.

Definition M (A : Type) : Type := world -> result A * world.

Definition ret {A} (a : A) : M A := fun w => (Ok a, w).

Definition lift {A} (r : result A) : M A := fun w => (r, w).

Definition bindM {A B} (m : M A) (k : A -> M B) : M B :=
  fun w =>
    match m w with
    | (Ok a, w') => k a w'
    | (Err e, w') => (Err e, w')
    | (Panic s, w') => (Panic s, w')
    end.

Notation "x <~ e ;; k" := (bindM e (fun x => k))
  (at level 100, e at next level, right associativity).

Fixpoint foldS {A B} (f : B -> A -> M B) (l : list A) (b : B) : M B :=
  match l with
  | [] => ret b
  | a :: l' => b' <~ f b a ;; foldS f l' b'
  end.

(** [rand.Read]: fills a buffer of [n] bytes, or fails. *)
Definition rand_Read (n : nat) : M (list byte) :=
  fun w =>
    match failing w (reads w) with
    | Some e =>
        (Err e, {| tape := tape w; failing := failing w; pos := pos w;
                   reads := S (reads w); allocated := allocated w |})
    | None =>
        (Ok (map (fun k => tape w (pos w + k)%nat) (seq 0 n)),
         {| tape := tape w; failing := failing w; pos := (pos w + n)%nat;
            reads := S (reads w); allocated := allocated w |})
    end.

(** The allocation of [n] words of output share buffers. *)
Definition alloc_shares (n : nat) : M unit :=
  fun w =>
    (Ok tt, {| tape := tape w; failing := failing w; pos := pos w;
               reads := reads w; allocated := (allocated w + n)%nat |}).

(** *** Polynomials *)

Record polynomial := { coefficients : list Z }.

(** [makePolynomial]: a random polynomial of the given degree with the
    given intercept.  [degree*2] is computed in [uint16]. *)
Definition makePolynomial (intercept degree : Z) : M polynomial :=
  let p := {| coefficients := <[0%nat := intercept]> (replicate 1 0) |} in
  coefficients8 <~ rand_Read (Z.to_nat (u16 (degree * 2))) ;;
  ret {| coefficients := coefficients p ++ byteToUint16 coefficients8 |}.

Definition getZ {A} (l : list A) (i : Z) : result A :=
  if i <? 0 then Panic "index out of range" else get l (Z.to_nat i).

(** [evaluate]: the value of the polynomial at [x], by Horner's method. *)
Definition evaluate (p : polynomial) (x : Z) : result Z :=
  if x =? 0 then get (coefficients p) 0
  else
    let degree := Z.of_nat (length (coefficients p)) - 1 in
    out <- getZ (coefficients p) degree ;;
    foldM (fun out i =>
             coeff <- get (coefficients p) i ;;
             Ok (add (mult out x) coeff))
          (rev (seq 0 (Z.to_nat degree))) out.

(** [interpolatePolynomial]: the value at [x] of the Lagrange interpolant
    through the samples. *)
Definition interpolatePolynomial (x_samples y_samples : list Z) (x : Z)
  : result Z :=
  let limit := length x_samples in
  foldM (fun result i =>
           basis <- foldM (fun basis j =>
                      if Nat.eqb i j then Ok basis
                      else
                        xj <- get x_samples j ;;
                        xi <- get x_samples i ;;
                        let num := add x xj in
                        let denom := add xi xj in
                        term <- div num denom ;;
                        Ok (mult basis term))
                    (seq 0 limit) 1 ;;
           yi <- get y_samples i ;;
           let group := mult yi basis in
           Ok (add result group))
        (seq 0 limit) 0.

(** *** The code computes the field's polynomials *)

Definition feval : list gf -> gf -> gf := Poly.eval gf gf_zero gf_add gf_mul.

Definition fbasis : (nat -> gf) -> nat -> list nat -> gf -> gf :=
  Poly.basis gf gf_one gf_mul gf_add gf_div.

Definition flagrange : (nat -> gf) -> (nat -> gf) -> list nat -> gf -> gf :=
  Poly.lagrange gf gf_zero gf_one gf_add gf_mul gf_add gf_div.

(** The samples of a slice, as field elements by index. *)
Definition sample (l : list Z) : nat -> gf := fun i => of_Z (nth i l 0).

Lemma get_nth {A} (l : list A) i d :
  (i < length l)%nat -> get l i = Ok (nth i l d).
Proof.
  intros Hi. unfold get.
  destruct (l !! i) as [v|] eqn:E.
  - now rewrite (nth_lookup_Some _ _ d _ E).
  - apply lookup_ge_None in E. lia.
Qed.

Lemma get_None {A} (l : list A) i :
  (length l <= i)%nat -> get l i = Panic "index out of range".
Proof.
  intros Hi. unfold get. rewrite (proj2 (lookup_ge_None l i)); auto.
Qed.

Lemma Forall_nth_u16 l i : Forall is_u16 l -> is_u16 (nth i l 0).
Proof.
  intros H. destruct (Nat.lt_ge_cases i (length l)) as [Hi|Hi].
  - rewrite List.Forall_forall in H. apply H, nth_In, Hi.
  - rewrite nth_overflow by exact Hi. unfold is_u16. lia.
Qed.

Lemma val_sample l i : Forall is_u16 l -> val (sample l i) = nth i l 0.
Proof. intros H. apply val_of_Z, Forall_nth_u16, H. Qed.

Lemma horner_loop (x : Z) init : forall tail (out : gf),
  Forall is_u16 init -> is_u16 x ->
  foldM (fun out i =>
           coeff <- get (init ++ tail) i ;;
           Ok (add (mult out x) coeff))
        (rev (seq 0 (length init))) (val out) =
  Ok (val (fold_right (fun c acc => gf_add c (gf_mul (of_Z x) acc)) out
                      (map of_Z init))).
Proof.
  induction init as [|c init IH] using rev_ind; intros tail out Hu Hx.
  - reflexivity.
  - apply Forall_app in Hu as [Hu Hc]. inversion Hc as [|? ? Hc' _]; subst.
    rewrite length_app, Nat.add_1_r, seq_S, rev_app_distr. simpl rev.
    simpl foldM. rewrite <- app_assoc.
    rewrite (get_nth _ _ 0) by (rewrite length_app; simpl; lia).
    rewrite app_nth2, Nat.sub_diag by lia. simpl nth. simpl bind.
    replace (add (mult (val out) x) c)
      with (val (gf_add (of_Z c) (gf_mul (of_Z x) out))).
    + rewrite (IH ([c] ++ tail) _ Hu Hx).
      rewrite map_app, fold_right_app. reflexivity.
    + rewrite val_add, val_mul, !val_of_Z by assumption.
      unfold add. rewrite Z.lxor_comm. f_equal.
      apply mult_comm; [assumption | apply val_u16].
Qed.

(** [evaluate] is the value of the polynomial whose coefficients the
    slice holds; it does not panic on a polynomial with a coefficient. *)
Lemma evaluate_spec cs x :
  cs <> [] -> Forall is_u16 cs -> is_u16 x ->
  evaluate {| coefficients := cs |} x = Ok (val (feval (map of_Z cs) (of_Z x))).
Proof.
  intros Hne Hu Hx. unfold evaluate. cbn [coefficients].
  destruct (Z.eqb_spec x 0) as [->|Hx0].
  - destruct cs as [|c cs]; [easy|]. inversion Hu; subst.
    rewrite (get_nth _ 0%nat 0) by (simpl; lia). cbn [nth]. f_equal.
    replace (feval (map of_Z (c :: cs)) (of_Z 0)) with (of_Z c).
    + symmetry. now apply val_of_Z.
    + unfold feval. cbn [map]. rewrite Poly.eval_cons.
      change (of_Z 0) with gf_zero. ring.
  - destruct (exists_last Hne) as (init & cd & ->).
    apply Forall_app in Hu as [Hu Hc]. inversion Hc as [|? ? Hcd _]; subst.
    rewrite length_app, Nat.add_1_r.
    replace (Z.of_nat (S (length init)) - 1) with (Z.of_nat (length init)) by lia.
    unfold getZ. destruct (Z.ltb_spec (Z.of_nat (length init)) 0); [lia|].
    rewrite Nat2Z.id.
    rewrite (get_nth _ _ 0) by (rewrite length_app; simpl; lia).
    rewrite app_nth2, Nat.sub_diag by lia. simpl nth. simpl bind.
    pose proof (horner_loop x init [cd] (of_Z cd) Hu Hx) as HL.
    rewrite (val_of_Z cd Hcd) in HL. rewrite HL. f_equal. f_equal.
    unfold feval, Poly.eval. rewrite map_app, fold_right_app. simpl.
    f_equal. change (of_Z 0) with gf_zero. ring.
Qed.

Lemma lxor_eq_0 a b : Z.lxor a b = 0 -> a = b.
Proof. apply Z.lxor_eq. Qed.

Lemma foldM_cons {A B} (f : B -> A -> result B) a l b :
  foldM f (a :: l) b = (b' <- f b a ;; foldM f l b').
Proof. reflexivity. Qed.

Section Interpolate.

Variables (xs ys : list Z) (x : Z).
Hypothesis Hxs : Forall is_u16 xs.
Hypothesis Hys : Forall is_u16 ys.
Hypothesis Hx : is_u16 x.
Hypothesis Hnd : List.NoDup xs.
Hypothesis Hlen : length ys = length xs.

(** The bodies of the two loops of [interpolatePolynomial]. *)
Let inner (i : nat) : Z -> nat -> result Z :=
  fun basis j =>
    if Nat.eqb i j then Ok basis
    else
      xj <- get xs j ;;
      xi <- get xs i ;;
      let num := add x xj in
      let denom := add xi xj in
      term <- div num denom ;;
      Ok (mult basis term).

Let outer : Z -> nat -> result Z :=
  fun result i =>
    basis <- foldM (inner i) (seq 0 (length xs)) 1 ;;
    yi <- get ys i ;;
    let group := mult yi basis in
    Ok (add result group).

Lemma interpolate_loops :
  interpolatePolynomial xs ys x = foldM outer (seq 0 (length xs)) 0.
Proof. reflexivity. Qed.

Lemma inner_same i (acc : gf) : inner i (val acc) i = Ok (val acc).
Proof. unfold inner. now rewrite Nat.eqb_refl. Qed.

Lemma inner_other i j (acc : gf) :
  (i < length xs)%nat -> (j < length xs)%nat -> i <> j ->
  inner i (val acc) j =
  Ok (val (gf_mul acc (Poly.term gf gf_add gf_div (sample xs) i j (of_Z x)))).
Proof.
  intros Hi Hj Hne. unfold inner.
  apply Nat.eqb_neq in Hne as Hne'. rewrite Hne'.
  rewrite (get_nth xs j 0 Hj). cbn [bind].
  rewrite (get_nth xs i 0 Hi). cbn [bind]. cbv zeta.
  pose proof (Forall_nth_u16 xs i Hxs) as Hui.
  pose proof (Forall_nth_u16 xs j Hxs) as Huj.
  assert (Hd : add (nth i xs 0) (nth j xs 0) <> 0).
  { intros E. apply lxor_eq_0 in E. apply Hne.
    apply (proj1 (NoDup_nth xs 0) Hnd); assumption. }
  destruct (quot_spec (add x (nth j xs 0)) (add (nth i xs 0) (nth j xs 0)))
    as (Hq & Hqr & _); [now apply add_u16 | now apply add_u16 | exact Hd |].
  rewrite Hq. cbn [bind]. f_equal.
  unfold Poly.term. rewrite val_mul, val_div, !val_add.
  rewrite !val_sample, val_of_Z by assumption. reflexivity.
Qed.

Lemma basis_loop_spec i js : forall acc : gf,
  (i < length xs)%nat -> (forall j, In j js -> (j < length xs)%nat) ->
  foldM (inner i) js (val acc) =
  Ok (val (fold_left
             (fun acc j =>
                if Nat.eqb i j then acc
                else gf_mul acc (Poly.term gf gf_add gf_div (sample xs) i j (of_Z x)))
             js acc)).
Proof.
  induction js as [|j js IH]; intros acc Hi Hjs; [reflexivity|].
  rewrite foldM_cons. cbn [fold_left].
  destruct (Nat.eqb_spec i j) as [<-|Hne].
  - rewrite inner_same. cbn [bind].
    apply IH; [exact Hi | intros; apply Hjs; now right].
  - assert (Hj : (j < length xs)%nat) by (apply Hjs; now left).
    rewrite (inner_other i j acc Hi Hj Hne). cbn [bind].
    apply IH; [exact Hi | intros; apply Hjs; now right].
Qed.

Lemma outer_spec i (acc : gf) :
  (i < length xs)%nat ->
  outer (val acc) i =
  Ok (val (gf_add acc (gf_mul (sample ys i)
                         (fbasis (sample xs) i (seq 0 (length xs)) (of_Z x))))).
Proof.
  intros Hi. unfold outer.
  change 1 with (val gf_one).
  rewrite (basis_loop_spec i (seq 0 (length xs)) gf_one Hi)
    by (intros j Hj; apply in_seq in Hj; lia).
  cbn [bind]. rewrite (get_nth ys i 0) by lia. cbn [bind]. cbv zeta.
  f_equal. rewrite val_add, val_mul, val_sample by assumption. reflexivity.
Qed.

Lemma lagrange_loop_spec js : forall acc : gf,
  (forall i, In i js -> (i < length xs)%nat) ->
  foldM outer js (val acc) =
  Ok (val (fold_left
             (fun acc i =>
                gf_add acc (gf_mul (sample ys i)
                              (fbasis (sample xs) i (seq 0 (length xs)) (of_Z x))))
             js acc)).
Proof.
  induction js as [|i js IH]; intros acc Hjs; [reflexivity|].
  assert (Hi : (i < length xs)%nat) by (apply Hjs; now left).
  rewrite foldM_cons, (outer_spec i acc Hi). cbn [bind fold_left].
  apply IH. intros; apply Hjs; now right.
Qed.

(** With distinct abscissae [interpolatePolynomial] does not panic and
    computes the Lagrange interpolant of the field. *)
Lemma interpolate_spec :
  interpolatePolynomial xs ys x =
  Ok (val (flagrange (sample xs) (sample ys) (seq 0 (length xs)) (of_Z x))).
Proof.
  rewrite interpolate_loops.
  change 0 with (val gf_zero).
  rewrite (lagrange_loop_spec (seq 0 (length xs)) gf_zero)
    by (intros i Hi; apply in_seq in Hi; lia).
  reflexivity.
Qed.

End Interpolate.

(** ** Split and Combine *)

(** [fmt.Errorf("...: %w", err)]. *)
Definition wrap {A} (prefix : string) (m : M A) : M A :=
  fun w =>
    match m w with
    | (Err e, w') => (Err (prefix ++ e)%string, w')
    | r => r
    end.

(** The row of [out16] for share [idx], as the first loop of [Split]
    leaves it: zeroes, and the tag [uint16(idx) + 1] in the last slot. *)
Definition init_row (len : nat) (idx : nat) : list Z :=
  <[len := u16 (u16 (Z.of_nat idx) + 1)]> (replicate (len + 1) 0).

(** The inner loop of [Split]: the values of [p] at [x = 1 .. parts], one
    stored in each row at word [idx]. *)
Definition fill (p : polynomial) (parts : nat) (idx : nat)
    (out16 : list (list Z)) : result (list (list Z)) :=
  foldM (fun out16 i =>
           let x := u16 (u16 (Z.of_nat i) + 1) in
           y <- evaluate p x ;;
           Ok (alter (<[idx := y]>) i out16))
        (seq 0 parts) out16.

(** [Split] takes a secret of even length and generates [parts] shares,
    [threshold] of which are required to reconstruct the secret. *)
Definition Split (secret : Secret) (parts threshold : Z) : M (list Part) :=
  if parts <? threshold then
    lift (Err "parts cannot be less than threshold")
  else if MaxPartsGF16 <? parts then
    lift (Err "parts cannot exceed 65535")
  else if threshold <? 2 then
    lift (Err "threshold must be at least 2")
  else if Z.of_nat (length secret) =? 0 then
    lift (Err "cannot split an empty secret")
  else if negb (Z.rem (Z.of_nat (length secret)) 2 =? 0) then
    lift (Err "cannot split odd length secret")
  else
    let secret16 := byteToUint16 secret in
    _ <~ alloc_shares (Z.to_nat parts * (length secret16 + 1)) ;;
    let out16 := map (init_row (length secret16)) (seq 0 (Z.to_nat parts)) in
    out16 <~ foldS (fun out16 '(idx, val) =>
                      p <~ wrap "failed to generate polynomial: "
                             (makePolynomial val (u16 (threshold - 1))) ;;
                      lift (fill p (Z.to_nat parts) idx out16))
                   (combine (seq 0 (length secret16)) secret16) out16 ;;
    ret (map uint16ToByte out16).

(** The loop of [Combine] that reads the tags and rejects duplicates:
    [checkMap] holds the tags seen, [x_samples] is filled by index. *)
Definition read_tags (parts16 : list (list Z)) (x_samples : list Z)
  : result (gset Z * list Z) :=
  foldM (fun '(checkMap, x_samples) '(i, part) =>
           samp <- getZ part (Z.of_nat (length part) - 1) ;;
           if decide (samp ∈ checkMap) then Err "duplicate part detected"
           else Ok ({[samp]} ∪ checkMap, <[i := samp]> x_samples))
        (combine (seq 0 (length parts16)) parts16) (∅, x_samples).

(** The work of one goroutine of [Combine]: the word [idx] of the secret. *)
Definition word (parts16 : list (list Z)) (x_samples : list Z) (idx : nat)
  : result Z :=
  y_samples <- foldM (fun y_samples '(i, part) =>
                        v <- get part idx ;;
                        Ok (<[i := v]> y_samples))
                     (combine (seq 0 (length parts16)) parts16)
                     (replicate (length parts16) 0) ;;
  interpolatePolynomial x_samples y_samples 0.

(** [Combine] reverses a [Split] once [threshold] parts are available.
    The words are computed one per goroutine and stored by index; they are
    taken here in index order. *)
Definition Combine (parts : list Part) : result Secret :=
  if Z.of_nat (length parts) <? 2 then
    Err "less than two parts cannot be used to reconstruct the secret"
  else
    part0 <- get parts 0 ;;
    let firstPartLen := Z.of_nat (length part0) in
    if firstPartLen <? 4 then Err "parts must be at least four bytes"
    else if Z.rem firstPartLen 2 =? 1 then Err "parts must be even bytes long"
    else
      _ <- foldM (fun _ part =>
                    if negb (Z.of_nat (length part) =? firstPartLen)
                    then Err "all parts must be the same length"
                    else Ok tt)
                 (drop 1 parts) tt ;;
      let parts16 := map byteToUint16 parts in
      row0 <- get parts16 0 ;;
      let secret16 := replicate (length row0 - 1) 0 in
      let x_samples := replicate (length parts) 0 in
      tags <- read_tags parts16 x_samples ;;
      let x_samples := snd tags in
      secret16 <- foldM (fun secret16 idx =>
                           val <- word parts16 x_samples idx ;;
                           Ok (<[idx := val]> secret16))
                        (seq 0 (length secret16)) secret16 ;;
      Ok (uint16ToByte secret16).

(** *** Loops that fill a zeroed slice by index *)

Lemma insert_at_end {A} (done : list A) (x y : A) (rest : list A) :
  <[length done := x]> (done ++ y :: rest) = (done ++ [x]) ++ rest.
Proof.
  rewrite insert_app_r_alt by lia. rewrite Nat.sub_diag. simpl.
  now rewrite <- app_assoc.
Qed.

Lemma fill_by_index (h : nat -> result Z) (hv : nat -> Z) m : forall done,
  (forall i, (length done <= i < length done + m)%nat -> h i = Ok (hv i)) ->
  foldM (fun arr idx => v <- h idx ;; Ok (<[idx := v]> arr))
        (seq (length done) m) (done ++ replicate m 0) =
  Ok (done ++ map hv (seq (length done) m)).
Proof.
  induction m as [|m IH]; intros done Hh.
  - reflexivity.
  - cbn [seq foldM replicate map]. rewrite Hh by lia. cbn [bind].
    rewrite insert_at_end.
    replace (S (length done)) with (length (done ++ [hv (length done)]))
      by (rewrite length_app; simpl; lia).
    rewrite IH.
    + now rewrite <- app_assoc.
    + intros i Hi. apply Hh. rewrite length_app in Hi. simpl in Hi. lia.
Qed.

Lemma fill_by_enum {A} (f : A -> result Z) (g : A -> Z) rest : forall done,
  (forall a, In a rest -> f a = Ok (g a)) ->
  foldM (fun arr '(i, a) => v <- f a ;; Ok (<[i := v]> arr))
        (combine (seq (length done) (length rest)) rest)
        (done ++ replicate (length rest) 0) =
  Ok (done ++ map g rest).
Proof.
  induction rest as [|a rest IH]; intros done Hf.
  - reflexivity.
  - cbn [length seq combine foldM replicate map].
    rewrite (Hf a) by (now left). cbn [bind].
    rewrite insert_at_end.
    replace (S (length done)) with (length (done ++ [g a]))
      by (rewrite length_app; simpl; lia).
    rewrite IH.
    + now rewrite <- app_assoc.
    + intros b Hb. apply Hf. now right.
Qed.

(** The check that all parts are as long as the first. *)
Lemma same_length_loop (L : Z) (l : list Part) :
  (Forall (fun p => Z.of_nat (length p) = L) l /\
   foldM (fun _ part =>
            if negb (Z.of_nat (length part) =? L)
            then Err "all parts must be the same length"
            else Ok tt) l tt = Ok tt) \/
  (~ Forall (fun p => Z.of_nat (length p) = L) l /\
   foldM (fun _ part =>
            if negb (Z.of_nat (length part) =? L)
            then Err "all parts must be the same length"
            else Ok tt) l tt = Err "all parts must be the same length").
Proof.
  induction l as [|p l IH].
  - left. split; [constructor | reflexivity].
  - cbn [foldM]. destruct (Z.eqb_spec (Z.of_nat (length p)) L) as [E|E].
    + cbn [negb bind]. destruct IH as [[Hall Hok]|[Hnot Herr]].
      * left. split; [now constructor | exact Hok].
      * right. split; [|exact Herr]. intros H. inversion H; subst. tauto.
    + cbn [negb bind]. right. split; [|reflexivity].
      intros H. inversion H; subst. tauto.
Qed.

Lemma fill_by_index_0 (h : nat -> result Z) (hv : nat -> Z) m :
  (forall i, (i < m)%nat -> h i = Ok (hv i)) ->
  foldM (fun arr idx => v <- h idx ;; Ok (<[idx := v]> arr))
        (seq 0 m) (replicate m 0) =
  Ok (map hv (seq 0 m)).
Proof.
  intros H. apply (fill_by_index h hv m []). intros i Hi. apply H.
  simpl in Hi. lia.
Qed.

Lemma fill_by_enum_0 {A} (f : A -> result Z) (g : A -> Z) l :
  (forall a, In a l -> f a = Ok (g a)) ->
  foldM (fun arr '(i, a) => v <- f a ;; Ok (<[i := v]> arr))
        (combine (seq 0 (length l)) l) (replicate (length l) 0) =
  Ok (map g l).
Proof. intros H. exact (fill_by_enum f g l [] H). Qed.

(** *** The parts [Combine] accepts *)

(** The trailing word of a row, and the x-tag of a part. *)
Definition tag_of_row (r : list Z) : Z := nth (length r - 1) r 0.
Definition tag (p : Part) : Z := tag_of_row (byteToUint16 p).

Definition accepted (parts : list Part) (L : nat) : Prop :=
  (2 <= length parts)%nat /\
  Forall (fun p => length p = L) parts /\
  (4 <= L)%nat /\ Nat.even L = true /\
  List.NoDup (map tag parts).

(** The words of the parts at index [idx], and the word [Combine]
    reconstructs from them. *)
Definition column (parts16 : list (list Z)) (idx : nat) : list Z :=
  map (fun r => nth idx r 0) parts16.

Definition reconstruct (parts : list Part) (idx : nat) : Z :=
  val (flagrange (sample (map tag parts))
                 (sample (column (map byteToUint16 parts) idx))
                 (seq 0 (length parts)) gf_zero).

Lemma read_tags_loop rest : forall (done : list Z) (cm : gset Z),
  (forall z, z ∈ cm <-> In z done) ->
  List.NoDup done ->
  Forall (fun r => r <> []) rest ->
  (List.NoDup (done ++ map tag_of_row rest) /\
   exists cm',
     foldM (fun '(checkMap, x_samples) '(i, part) =>
              samp <- getZ part (Z.of_nat (length part) - 1) ;;
              if decide (samp ∈ checkMap) then Err "duplicate part detected"
              else Ok ({[samp]} ∪ checkMap, <[i := samp]> x_samples))
           (combine (seq (length done) (length rest)) rest)
           (cm, done ++ replicate (length rest) 0) =
     Ok (cm', done ++ map tag_of_row rest)) \/
  (~ List.NoDup (done ++ map tag_of_row rest) /\
   foldM (fun '(checkMap, x_samples) '(i, part) =>
            samp <- getZ part (Z.of_nat (length part) - 1) ;;
            if decide (samp ∈ checkMap) then Err "duplicate part detected"
            else Ok ({[samp]} ∪ checkMap, <[i := samp]> x_samples))
         (combine (seq (length done) (length rest)) rest)
         (cm, done ++ replicate (length rest) 0) =
   Err "duplicate part detected").
Proof.
  induction rest as [|r rest IH]; intros done cm Hcm Hnd Hne.
  - left. cbn [map length seq combine foldM replicate]. rewrite !app_nil_r.
    split; [exact Hnd|]. exists cm. reflexivity.
  - inversion Hne as [|? ? Hr Hne']; subst.
    cbn [length seq combine foldM replicate map].
    assert (Hget : getZ r (Z.of_nat (length r) - 1) = Ok (tag_of_row r)).
    { unfold getZ, tag_of_row. destruct r as [|a r]; [easy|].
      destruct (Z.ltb_spec (Z.of_nat (length (a :: r)) - 1) 0);
        [simpl in *; lia|].
      replace (Z.to_nat (Z.of_nat (length (a :: r)) - 1))
        with (length (a :: r) - 1)%nat by lia.
      apply get_nth. simpl. lia. }
    rewrite Hget. cbn [bind].
    destruct (decide (tag_of_row r ∈ cm)) as [Hin|Hout].
    + right. split; [|reflexivity].
      intros H. apply NoDup_remove_2 in H. apply H.
      apply in_or_app. left. now apply Hcm.
    + rewrite insert_at_end.
      replace (S (length done)) with (length (done ++ [tag_of_row r]))
        by (rewrite length_app; simpl; lia).
      replace (done ++ tag_of_row r :: map tag_of_row rest)
        with ((done ++ [tag_of_row r]) ++ map tag_of_row rest)
        by (now rewrite <- app_assoc).
      apply IH; [| |exact Hne'].
      * intros z. rewrite elem_of_union, elem_of_singleton, in_app_iff, Hcm.
        simpl. intuition.
      * apply List.NoDup_app; [exact Hnd | |].
        -- constructor; [simpl; tauto | constructor].
        -- intros z Hz [<-|[]]. apply Hout. now apply Hcm.
Qed.

Lemma read_tags_spec parts16 :
  Forall (fun r => r <> []) parts16 ->
  (List.NoDup (map tag_of_row parts16) /\
   exists cm, read_tags parts16 (replicate (length parts16) 0) =
              Ok (cm, map tag_of_row parts16)) \/
  (~ List.NoDup (map tag_of_row parts16) /\
   read_tags parts16 (replicate (length parts16) 0) =
   Err "duplicate part detected").
Proof.
  intros Hne. unfold read_tags.
  apply (read_tags_loop parts16 [] ∅); [|constructor|exact Hne].
  intros z. split; [|easy]. intros H. now apply not_elem_of_empty in H.
Qed.

Lemma tag_of_row_u16 r : Forall is_u16 r -> is_u16 (tag_of_row r).
Proof. intros H. unfold tag_of_row. now apply Forall_nth_u16. Qed.

Lemma column_u16 parts16 idx :
  Forall (Forall is_u16) parts16 -> Forall is_u16 (column parts16 idx).
Proof.
  intros H. unfold column. apply List.Forall_forall. intros z Hz.
  apply in_map_iff in Hz as (r & <- & Hr).
  rewrite List.Forall_forall in H. apply Forall_nth_u16, H, Hr.
Qed.

(** One goroutine's word, for rows of a common length and distinct tags. *)
Lemma word_spec parts16 xs idx m :
  Forall (fun r => length r = m) parts16 -> (idx < m)%nat ->
  Forall (Forall is_u16) parts16 ->
  Forall is_u16 xs -> List.NoDup xs -> length xs = length parts16 ->
  word parts16 xs idx =
  Ok (val (flagrange (sample xs) (sample (column parts16 idx))
                     (seq 0 (length xs)) gf_zero)).
Proof.
  intros Hlen Hidx Hu Hxs Hnd Hn. unfold word.
  pose proof (fill_by_enum_0 (fun part : list Z => get part idx)
                (fun part => nth idx part 0) parts16) as Hfill.
  cbv beta in Hfill. rewrite Hfill.
  - cbn [bind]. fold (column parts16 idx).
    apply interpolate_spec; auto.
    + now apply column_u16.
    + unfold is_u16. lia.
    + unfold column. rewrite length_map. lia.
  - intros r Hr. apply get_nth.
    rewrite List.Forall_forall in Hlen. rewrite (Hlen r Hr). exact Hidx.
Qed.

Lemma rem2_even n : (Z.rem (Z.of_nat n) 2 =? 1) = negb (Nat.even n).
Proof.
  rewrite Z.rem_mod_nonneg by lia.
  destruct (Nat.even n) eqn:E.
  - apply Nat.even_spec in E as [k Hk]. simpl. apply Z.eqb_neq.
    Z.div_mod_to_equations. lia.
  - assert (Nat.odd n = true) as Ho by (unfold Nat.odd; now rewrite E).
    apply Nat.odd_spec in Ho as [k Hk]. simpl. apply Z.eqb_eq.
    Z.div_mod_to_equations. lia.
Qed.

(** [Combine] follows its checks: it returns the reconstructed words for
    accepted parts and an error for all others; it never panics. *)
Lemma Combine_cases parts :
  (exists L, accepted parts L /\
     Combine parts =
     Ok (uint16ToByte (map (reconstruct parts) (seq 0 (Nat.div2 L - 1))))) \/
  ((forall L, ~ accepted parts L) /\ exists e, Combine parts = Err e).
Proof.
  unfold Combine.
  destruct (Z.ltb_spec (Z.of_nat (length parts)) 2) as [Hlt|Hge].
  { right. split; [|eexists; reflexivity].
    intros L (H & _). lia. }
  destruct parts as [|p0 rest]; [simpl in Hge; lia|].
  change (get (p0 :: rest) 0) with (Ok (A := Part) p0). cbn [bind]. cbv zeta.
  destruct (Z.ltb_spec (Z.of_nat (length p0)) 4) as [H4|H4].
  { right. split; [|eexists; reflexivity].
    intros L (_ & Hall & HL & _). inversion Hall; subst. lia. }
  rewrite rem2_even. destruct (Nat.even (length p0)) eqn:HevenL; cbn [negb].
  2: { right. split; [|eexists; reflexivity].
       intros L (_ & Hall & _ & He & _). inversion Hall; subst. congruence. }
  change (drop 1 (p0 :: rest)) with rest.
  destruct (same_length_loop (Z.of_nat (length p0)) rest)
    as [[Hall Hok]|[Hnot Herr]]; [rewrite Hok | rewrite Herr].
  2: { right. split; [|eexists; reflexivity].
       intros L (_ & HallL & _). inversion HallL as [|? ? H0 Hr]; subst.
       apply Hnot. revert Hr. apply List.Forall_impl. intros p Hp. lia. }
  cbn [bind].
  set (L := length p0) in *.
  assert (HallL : Forall (fun p => length p = L) (p0 :: rest)).
  { constructor; [reflexivity|]. revert Hall. apply List.Forall_impl. intros; lia. }
  set (parts := p0 :: rest) in *.
  set (parts16 := map byteToUint16 parts).
  assert (Hrows : Forall (fun r => length r = Nat.div2 L) parts16).
  { unfold parts16. apply List.Forall_forall. intros r Hr.
    apply in_map_iff in Hr as (p & <- & Hp).
    rewrite length_byteToUint16.
    rewrite List.Forall_forall in HallL. now rewrite (HallL p Hp). }
  assert (Hdiv : (2 <= Nat.div2 L)%nat).
  { apply Nat.even_spec in HevenL as [k Hk]. rewrite Hk, Nat.div2_double. lia. }
  assert (Hget0 : get parts16 0 = Ok (byteToUint16 p0)) by reflexivity.
  rewrite Hget0. cbn [bind length]. rewrite length_byteToUint16. fold L.
  assert (Hne : Forall (fun r : list Z => r <> []) parts16).
  { revert Hrows. apply List.Forall_impl. intros r Hr E. subst r. simpl in Hr. lia. }
  assert (Htags : map tag_of_row parts16 = map tag parts).
  { unfold parts16. rewrite map_map. reflexivity. }
  replace (length parts) with (length parts16)
    by (unfold parts16; now rewrite length_map).
  rewrite length_replicate.
  destruct (read_tags_spec parts16 Hne) as [[Hnd (cm & Hrt)]|[Hdup Hrt]];
    rewrite Hrt.
  2: { right. split; [|eexists; reflexivity].
       intros L' (_ & _ & _ & _ & Hnd). apply Hdup. now rewrite Htags. }
  cbn [bind snd].
  assert (Hu : Forall (Forall is_u16) parts16).
  { unfold parts16. apply List.Forall_forall. intros r Hr.
    apply in_map_iff in Hr as (p & <- & _). apply byteToUint16_u16. }
  assert (Hxs : Forall is_u16 (map tag_of_row parts16)).
  { apply List.Forall_forall. intros z Hz.
    apply in_map_iff in Hz as (r & <- & Hr).
    rewrite List.Forall_forall in Hu. apply tag_of_row_u16, Hu, Hr. }
  rewrite (fill_by_index_0 (word parts16 (map tag_of_row parts16))
             (reconstruct parts) (Nat.div2 L - 1)).
  - cbn [bind]. left. exists L. split; [|reflexivity].
    split; [simpl in *; lia|]. split; [exact HallL|].
    split; [lia|]. split; [exact HevenL|]. now rewrite <- Htags.
  - intros i Hi.
    rewrite (word_spec parts16 _ i (Nat.div2 L) Hrows ltac:(lia) Hu Hxs Hnd)
      by (now rewrite length_map).
    unfold reconstruct. rewrite Htags. fold parts16.
    rewrite length_map. reflexivity.
Qed.

(** *** When [Combine] fails *)

(** The inputs [Combine] rejects: fewer than two parts, two parts of
    different lengths, a part shorter than four bytes or of odd length, or
    two parts with the same tag. *)
Definition rejected (parts : list Part) : Prop :=
  (length parts < 2)%nat \/
  (exists p q, In p parts /\ In q parts /\ length p <> length q) \/
  (exists p, In p parts /\ ((length p < 4)%nat \/ Nat.even (length p) = false)) \/
  ~ List.NoDup (map tag parts).

Lemma accepted_not_rejected parts L : accepted parts L -> ~ rejected parts.
Proof.
  intros (Hn & Hall & H4 & Hev & Hnd) [H|[(p & q & Hp & Hq & Hne)|[(p & Hp & H)|H]]].
  - lia.
  - rewrite List.Forall_forall in Hall.
    apply Hne. rewrite (Hall p Hp), (Hall q Hq). reflexivity.
  - rewrite List.Forall_forall in Hall. rewrite (Hall p Hp) in H.
    destruct H as [H|H]; [lia | congruence].
  - tauto.
Qed.

Lemma accepted_or_rejected parts : (exists L, accepted parts L) \/ rejected parts.
Proof.
  destruct (le_lt_dec 2 (length parts)) as [Hn|Hn]; [|right; left; exact Hn].
  destruct parts as [|p0 rest]; [simpl in Hn; lia|].
  set (parts := p0 :: rest) in *.
  destruct (List.Forall_dec (fun p => length p = length p0)
              (fun p => Nat.eq_dec (length p) (length p0)) parts) as [Hall|Hall].
  - destruct (le_lt_dec 4 (length p0)) as [H4|H4].
    + destruct (Nat.even (length p0)) eqn:Hev.
      * destruct (ListDec.NoDup_dec Z.eq_dec (map tag parts)) as [Hnd|Hnd].
        -- left. exists (length p0). repeat split; assumption.
        -- right. right. right. right. exact Hnd.
      * right. right. right. left. exists p0. split; [now left | now right].
    + right. right. right. left. exists p0. split; [now left | now left].
  - right. right. left.
    apply List.neg_Forall_Exists_neg in Hall;
      [|intros p; apply Nat.eq_dec].
    apply List.Exists_exists in Hall. destruct Hall as (p & Hp & Hne).
    exists p, p0. split; [exact Hp|]. split; [now left | exact Hne].
Qed.

Lemma even_half L : Nat.even L = true -> (2 * Nat.div2 L = L)%nat.
Proof.
  intros H. apply Nat.even_spec in H. destruct H as [k ->].
  now rewrite Nat.div2_double.
Qed.

(** C5: [Combine] returns an error exactly on the rejected inputs: fewer
    than two parts, parts of different lengths, a common length less than
    four or odd, or a repeated tag.  On every other input it returns,
    without error, a byte sequence two bytes shorter than the parts,
    whatever the threshold the parts were made with. *)
Theorem Combine_error_iff parts :
  ((exists e, Combine parts = Err e) <-> rejected parts) /\
  (~ rejected parts ->
   exists L s, Forall (fun p => length p = L) parts /\
               Combine parts = Ok s /\ length s = (L - 2)%nat).
Proof.
  split; [split|].
  - intros [e He].
    destruct (accepted_or_rejected parts) as [[L HL]|H]; [|exact H].
    destruct (Combine_cases parts) as [(L' & _ & Hok)|[Hno _]].
    + congruence.
    + destruct (Hno L HL).
  - intros Hrej.
    destruct (Combine_cases parts) as [(L & HL & _)|[_ He]]; [|exact He].
    destruct (accepted_not_rejected _ _ HL Hrej).
  - intros Hnot.
    destruct (Combine_cases parts) as [(L & HL & Hok)|[Hno _]].
    + exists L. eexists. split; [apply HL|]. split; [exact Hok|].
      destruct HL as (_ & _ & H4 & Hev & _).
      rewrite length_uint16ToByte, length_map, length_seq.
      pose proof (even_half L Hev). lia.
    + destruct (accepted_or_rejected parts) as [[L HL]|H].
      * destruct (Hno L HL).
      * destruct (Hnot H).
Qed.

(** Two parts of four bytes, the first with tag [0]. *)
Definition zero_tag_parts : list Part :=
  [ [x00; x05; x00; x00]; [x00; x07; x00; x01] ]%byte.

Lemma zero_tag_parts_accepted : accepted zero_tag_parts 4.
Proof.
  unfold accepted, zero_tag_parts.
  split; [simpl; lia|]. split; [repeat constructor|].
  split; [lia|]. split; [reflexivity|].
  assert (E : map tag [[x00; x05; x00; x00]; [x00; x07; x00; x01]]%byte = [0; 1])
    by reflexivity.
  rewrite E. repeat constructor; simpl; intuition lia.
Qed.

Lemma Combine_error_iff_witness :
  exists L s, Forall (fun p => length p = L) zero_tag_parts /\
              Combine zero_tag_parts = Ok s /\ length s = (L - 2)%nat.
Proof.
  apply (proj2 (Combine_error_iff zero_tag_parts)).
  exact (accepted_not_rejected _ _ zero_tag_parts_accepted).
Defined.

(** *** The order of the parts *)

Lemma accepted_unique parts L L' : accepted parts L -> accepted parts L' -> L = L'.
Proof.
  intros (Hn & Hall & _) (_ & Hall' & _).
  destruct parts as [|p rest]; [simpl in Hn; lia|].
  inversion Hall; inversion Hall'; subst. reflexivity.
Qed.

Lemma Combine_accepted parts L :
  accepted parts L ->
  Combine parts =
  Ok (uint16ToByte (map (reconstruct parts) (seq 0 (Nat.div2 L - 1)))).
Proof.
  intros HL. destruct (Combine_cases parts) as [(L' & HL' & Hok)|[Hno _]].
  - now rewrite (accepted_unique _ _ _ HL HL').
  - destruct (Hno L HL).
Qed.

Lemma Combine_Ok_accepted parts s :
  Combine parts = Ok s -> exists L, accepted parts L.
Proof.
  intros Hok. destruct (Combine_cases parts) as [(L & HL & _)|[_ [e He]]].
  - now exists L.
  - congruence.
Qed.

Lemma accepted_perm parts parts' L :
  Permutation parts parts' -> accepted parts L -> accepted parts' L.
Proof.
  intros HP (Hn & Hall & H4 & Hev & Hnd).
  split; [now rewrite <- (Permutation_length HP)|].
  split; [now rewrite <- HP|].
  split; [exact H4|]. split; [exact Hev|].
  apply (Permutation_NoDup (l := map tag parts)); [|exact Hnd].
  now apply Permutation_map.
Qed.

Lemma tag_u16 p : is_u16 (tag p).
Proof. apply tag_of_row_u16, byteToUint16_u16. Qed.

Lemma tags_u16 parts : Forall is_u16 (map tag parts).
Proof. apply List.Forall_forall. intros z Hz. apply in_map_iff in Hz.
  destruct Hz as (p & <- & _). apply tag_u16. Qed.

Lemma nth_tags parts i :
  (i < length parts)%nat -> nth i (map tag parts) 0 = tag (nth i parts []).
Proof.
  intros Hi. rewrite (nth_indep _ 0 (tag [])) by now rewrite length_map.
  apply map_nth.
Qed.

Lemma nth_column parts idx i :
  (i < length parts)%nat ->
  nth i (column (map byteToUint16 parts) idx) 0 =
  nth idx (byteToUint16 (nth i parts [])) 0.
Proof.
  intros Hi. unfold column. rewrite map_map.
  rewrite (nth_indep _ 0 (nth idx (byteToUint16 []) 0)) by now rewrite length_map.
  apply (map_nth (fun p => nth idx (byteToUint16 p) 0)).
Qed.

Lemma sample_inj xs i j :
  Forall is_u16 xs -> List.NoDup xs ->
  (i < length xs)%nat -> (j < length xs)%nat ->
  sample xs i = sample xs j -> i = j.
Proof.
  intros Hu Hnd Hi Hj E. apply (f_equal val) in E.
  rewrite !val_sample in E by assumption.
  exact (proj1 (List.NoDup_nth xs 0) Hnd i j Hi Hj E).
Qed.

Lemma reconstruct_perm parts parts' idx :
  Permutation parts parts' -> List.NoDup (map tag parts) ->
  reconstruct parts' idx = reconstruct parts idx.
Proof.
  intros HP Hnd.
  assert (Hnd' : List.NoDup (map tag parts')).
  { apply (Permutation_NoDup (l := map tag parts)); [|exact Hnd].
    now apply Permutation_map. }
  pose proof (Permutation_length HP) as Hlen.
  unfold reconstruct, flagrange. f_equal.
  apply (Poly.lagrange_unique gf gf_zero gf_one gf_add gf_mul gf_add gf_opp
           gf_div gf_inv gf_field).
  - apply List.seq_NoDup.
  - apply List.seq_NoDup.
  - rewrite !length_seq. exact Hlen.
  - intros i j Hi Hj. apply in_seq in Hi, Hj.
    apply sample_inj; [apply tags_u16 | exact Hnd' | |];
      rewrite length_map; lia.
  - intros i j Hi Hj. apply in_seq in Hi, Hj.
    apply sample_inj; [apply tags_u16 | exact Hnd | |];
      rewrite length_map; lia.
  - intros k Hk. apply List.in_seq in Hk. destruct Hk as [_ Hk].
    change (0 + length parts')%nat with (length parts') in Hk.
    assert (Hin : In (nth k parts' []) parts).
    { apply (Permutation_in _ (Permutation_sym HP)). apply nth_In. exact Hk. }
    destruct (In_nth _ _ [] Hin) as (i & Hi & Ei).
    exists i. split; [apply List.in_seq; split; [apply Nat.le_0_l | exact Hi]|].
    unfold sample.
    rewrite (nth_tags parts i), (nth_tags parts' k) by assumption.
    rewrite (nth_column parts idx i), (nth_column parts' idx k) by assumption.
    split.
    + exact (f_equal (fun p => of_Z (tag p)) Ei).
    + exact (f_equal (fun p => of_Z (nth idx (byteToUint16 p) 0)) Ei).
Qed.

(** C9: when [Combine] accepts a list of parts, it returns the same secret
    on every permutation of the list. *)
Theorem Combine_permutation parts parts' s :
  Combine parts = Ok s -> Permutation parts parts' -> Combine parts' = Ok s.
Proof.
  intros Hok HP.
  destruct (Combine_Ok_accepted _ _ Hok) as [L HL].
  rewrite (Combine_accepted _ _ HL) in Hok.
  rewrite (Combine_accepted _ _ (accepted_perm _ _ _ HP HL)).
  rewrite <- Hok. f_equal. f_equal.
  apply map_ext. intros idx. apply reconstruct_perm; [exact HP|]. apply HL.
Qed.

Lemma Combine_permutation_witness :
  exists s, Combine zero_tag_parts = Ok s /\
            Combine (rev zero_tag_parts) = Ok s.
Proof.
  eexists. split.
  - exact (Combine_accepted _ _ zero_tag_parts_accepted).
  - apply (Combine_permutation zero_tag_parts).
    + exact (Combine_accepted _ _ zero_tag_parts_accepted).
    + apply Permutation_rev.
Defined.

(** *** What [Split] computes *)

(** The evaluation point of share [i], the value of a polynomial there, and
    the row of words [{y1, .., yW, x}] of share [i]. *)
Definition x_of (i : nat) : Z := Z.of_nat i + 1.

Definition share_value (cs : list Z) (i : nat) : Z :=
  val (feval (map of_Z cs) (of_Z (x_of i))).

Definition share_row (polys : list (list Z)) (i : nat) : list Z :=
  map (fun cs => share_value cs i) polys ++ [x_of i].

(** The rows while the words are being filled in: the words of the
    polynomials [done], then [m] words still zero, then the tag. *)
Definition rows_at (done : list (list Z)) (m : nat) (i : nat) : list Z :=
  map (fun cs => share_value cs i) done ++ replicate m 0 ++ [x_of i].

(** The number of random bytes [makePolynomial] asks for, and the random
    coefficients it draws in the world [w]. *)
Definition random_bytes (degree : Z) : nat := Z.to_nat (u16 (degree * 2)).

Definition drawn (t : nat -> byte) (p n : nat) : list Z :=
  byteToUint16 (map (fun k => t (p + k)%nat) (seq 0 n)).

Definition after_read (w : world) (n : nat) : world :=
  {| tape := tape w; failing := failing w; pos := (pos w + n)%nat;
     reads := S (reads w); allocated := allocated w |}.

Definition after_failure (w : world) : world :=
  {| tape := tape w; failing := failing w; pos := pos w;
     reads := S (reads w); allocated := allocated w |}.

Lemma makePolynomial_ok intercept degree w :
  failing w (reads w) = None ->
  makePolynomial intercept degree w =
  (Ok {| coefficients :=
         intercept :: drawn (tape w) (pos w) (random_bytes degree) |},
   after_read w (random_bytes degree)).
Proof.
  intros H. unfold makePolynomial, bindM, rand_Read. rewrite H. reflexivity.
Qed.

Lemma makePolynomial_err intercept degree w e :
  failing w (reads w) = Some e ->
  makePolynomial intercept degree w = (Err e, after_failure w).
Proof.
  intros H. unfold makePolynomial, bindM, rand_Read. rewrite H. reflexivity.
Qed.

Lemma drawn_u16 t p n : Forall is_u16 (drawn t p n).
Proof. apply byteToUint16_u16. Qed.

Lemma length_drawn t p n : length (drawn t p n) = Nat.div2 n.
Proof.
  unfold drawn. now rewrite length_byteToUint16, length_map, length_seq.
Qed.

Lemma x_of_u16 i : Z.of_nat i < 65535 -> u16 (u16 (Z.of_nat i) + 1) = x_of i.
Proof.
  intros Hi. unfold x_of.
  rewrite (u16_id (Z.of_nat i)) by (unfold is_u16; lia).
  apply u16_id. unfold is_u16. lia.
Qed.

Lemma x_of_range i : Z.of_nat i < 65535 -> is_u16 (x_of i).
Proof. unfold x_of, is_u16. lia. Qed.

Lemma init_row_spec len i :
  Z.of_nat i < 65535 -> init_row len i = rows_at [] len i.
Proof.
  intros Hi. unfold init_row, rows_at. rewrite x_of_u16 by exact Hi.
  rewrite Nat.add_1_r, replicate_S_end. cbn [map app].
  rewrite <- (length_replicate len 0) at 1.
  rewrite insert_at_end. now rewrite app_nil_r.
Qed.

(** A loop that alters the rows one after the other. *)
Lemma alter_loop (h : nat -> result Z) (hv : nat -> Z) (idx : nat)
    (post : list (list Z)) : forall pre,
  (forall i, (length pre <= i < length pre + length post)%nat ->
             h i = Ok (hv i)) ->
  foldM (fun out16 i => y <- h i ;; Ok (alter (<[idx := y]>) i out16))
        (seq (length pre) (length post)) (pre ++ post) =
  Ok (pre ++ zip_with (fun i row => <[idx := hv i]> row)
                      (seq (length pre) (length post)) post).
Proof.
  induction post as [|r post IH]; intros pre Hh.
  - reflexivity.
  - cbn [length seq foldM zip_with]. rewrite Hh by (simpl; lia). cbn [bind].
    rewrite alter_app_r_alt by lia. rewrite Nat.sub_diag.
    change (alter (<[idx := hv (length pre)]>) 0%nat (r :: post))
      with (<[idx := hv (length pre)]> r :: post).
    rewrite (cons_middle _ pre post), app_assoc.
    replace (S (length pre))
      with (length (pre ++ [<[idx := hv (length pre)]> r]))
      by (rewrite length_app; simpl; lia).
    rewrite IH.
    + rewrite <- app_assoc. reflexivity.
    + intros i Hi. apply Hh. rewrite length_app in Hi. simpl in *. lia.
Qed.

Lemma zip_with_seq_map {A B} (g : nat -> A -> B) (R : nat -> A) n : forall k,
  zip_with g (seq k n) (map R (seq k n)) = map (fun i => g i (R i)) (seq k n).
Proof.
  induction n as [|n IH]; intros k; [reflexivity|].
  cbn [seq map zip_with]. now rewrite IH.
Qed.

(** The inner loop of [Split] stores, in every row, the value of the
    polynomial at the row's evaluation point. *)
Lemma fill_spec cs n idx (R : nat -> list Z) :
  cs <> [] -> Forall is_u16 cs -> Z.of_nat n <= 65535 ->
  fill {| coefficients := cs |} n idx (map R (seq 0 n)) =
  Ok (map (fun i => <[idx := share_value cs i]> (R i)) (seq 0 n)).
Proof.
  intros Hne Hu Hn. unfold fill.
  pose proof (alter_loop
    (fun i => evaluate {| coefficients := cs |} (u16 (u16 (Z.of_nat i) + 1)))
    (share_value cs) idx (map R (seq 0 n)) []) as H.
  rewrite length_map, length_seq in H. cbn [length app] in H.
  rewrite zip_with_seq_map in H. apply H.
  intros i Hi. rewrite x_of_u16 by lia.
  apply evaluate_spec; [exact Hne | exact Hu | apply x_of_range; lia].
Qed.

Lemma fill_rows cs n done m :
  cs <> [] -> Forall is_u16 cs -> Z.of_nat n <= 65535 ->
  fill {| coefficients := cs |} n (length done)
       (map (rows_at done (S m)) (seq 0 n)) =
  Ok (map (rows_at (done ++ [cs]) m) (seq 0 n)).
Proof.
  intros Hne Hu Hn. rewrite fill_spec by assumption. f_equal.
  apply map_ext. intros i. unfold rows_at.
  rewrite <- (length_map (fun cs0 => share_value cs0 i) done) at 1.
  cbn [replicate app]. rewrite insert_at_end.
  rewrite map_app. reflexivity.
Qed.

(** One round of the outer loop of [Split]: a polynomial for the word
    [val], and its values stored at word [idx] of every row. *)
Definition split_step (parts : nat) (threshold : Z)
    (out16 : list (list Z)) (item : nat * Z) : M (list (list Z)) :=
  let '(idx, val) := item in
  p <~ wrap "failed to generate polynomial: "
         (makePolynomial val (u16 (threshold - 1))) ;;
  lift (fill p parts idx out16).

(** The polynomials [Split] draws for the words [vals] from the tape [t],
    starting at position [p], [n] bytes each. *)
Fixpoint draws (t : nat -> byte) (p n : nat) (vals : list Z) : list (list Z) :=
  match vals with
  | [] => []
  | v :: vals' => (v :: drawn t p n) :: draws t (p + n) n vals'
  end.

(** The world after [k] reads of [n] bytes each. *)
Definition after_reads (w : world) (n k : nat) : world :=
  {| tape := tape w; failing := failing w; pos := (pos w + k * n)%nat;
     reads := (reads w + k)%nat; allocated := allocated w |}.

Definition after_alloc (w : world) (n : nat) : world :=
  {| tape := tape w; failing := failing w; pos := pos w;
     reads := reads w; allocated := (allocated w + n)%nat |}.

Lemma step_ok n threshold done m v w :
  failing w (reads w) = None -> is_u16 v -> Z.of_nat n <= 65535 ->
  split_step n threshold (map (rows_at done (S m)) (seq 0 n)) (length done, v) w =
  (Ok (map (rows_at
             (done ++ [v :: drawn (tape w) (pos w)
                                  (random_bytes (u16 (threshold - 1)))]) m)
           (seq 0 n)),
   after_read w (random_bytes (u16 (threshold - 1)))).
Proof.
  intros Hf Hv Hn. unfold split_step, bindM, wrap.
  rewrite (makePolynomial_ok _ _ _ Hf). unfold lift.
  rewrite fill_rows; [reflexivity | discriminate | | exact Hn].
  constructor; [exact Hv | apply drawn_u16].
Qed.

Lemma step_err n threshold out16 idx v w e :
  failing w (reads w) = Some e ->
  split_step n threshold out16 (idx, v) w =
  (Err ("failed to generate polynomial: " ++ e)%string, after_failure w).
Proof.
  intros Hf. unfold split_step, bindM, wrap.
  rewrite (makePolynomial_err _ _ _ _ Hf). reflexivity.
Qed.

Lemma after_reads_0 w n : after_reads w n 0 = w.
Proof.
  destruct w. unfold after_reads. cbn. f_equal; lia.
Qed.

Lemma after_reads_S w n k :
  after_reads (after_read w n) n k = after_reads w n (S k).
Proof. unfold after_reads, after_read. cbn. f_equal; lia. Qed.

(** The outer loop of [Split], when no read of the random source fails. *)
Lemma split_loop_ok n threshold vals : forall done w,
  Forall is_u16 vals -> Z.of_nat n <= 65535 ->
  (forall k, (k < length vals)%nat -> failing w (reads w + k)%nat = None) ->
  foldS (split_step n threshold)
        (combine (seq (length done) (length vals)) vals)
        (map (rows_at done (length vals)) (seq 0 n)) w =
  (Ok (map (rows_at
             (done ++ draws (tape w) (pos w)
                            (random_bytes (u16 (threshold - 1))) vals) 0)
           (seq 0 n)),
   after_reads w (random_bytes (u16 (threshold - 1))) (length vals)).
Proof.
  induction vals as [|v vals IH]; intros done w Hu Hn Hf.
  - cbn [length seq combine foldS draws]. unfold ret.
    now rewrite app_nil_r, after_reads_0.
  - inversion Hu as [|? ? Hv Hu']; subst.
    cbn [length seq combine foldS draws]. unfold bindM at 1.
    rewrite step_ok; [| | exact Hv | exact Hn].
    2:{ rewrite <- (Nat.add_0_r (reads w)). apply Hf. simpl. lia. }
    match goal with
    | |- context [done ++ [?c]] =>
        replace (S (length done)) with (length (done ++ [c]))
          by (rewrite length_app; simpl; lia)
    end.
    rewrite IH; [| exact Hu' | exact Hn |].
    + rewrite <- app_assoc, after_reads_S. reflexivity.
    + intros k Hk. cbn [after_read failing reads].
      replace (S (reads w) + k)%nat with (reads w + S k)%nat by lia.
      apply Hf. simpl. lia.
Qed.

(** The outer loop of [Split], when the read for word [k] is the first to
    fail: the error of the source is wrapped and returned. *)
Lemma split_loop_err n threshold vals : forall done w k e,
  Forall is_u16 vals -> Z.of_nat n <= 65535 ->
  (k < length vals)%nat ->
  (forall j, (j < k)%nat -> failing w (reads w + j)%nat = None) ->
  failing w (reads w + k)%nat = Some e ->
  foldS (split_step n threshold)
        (combine (seq (length done) (length vals)) vals)
        (map (rows_at done (length vals)) (seq 0 n)) w =
  (Err ("failed to generate polynomial: " ++ e)%string,
   after_failure (after_reads w (random_bytes (u16 (threshold - 1))) k)).
Proof.
  induction vals as [|v vals IH]; intros done w k e Hu Hn Hk Hf He.
  - simpl in Hk. lia.
  - inversion Hu as [|? ? Hv Hu']; subst.
    cbn [length seq combine foldS]. unfold bindM at 1.
    destruct k as [|k].
    + rewrite Nat.add_0_r in He. rewrite (step_err _ _ _ _ _ _ _ He).
      now rewrite after_reads_0.
    + rewrite step_ok; [| | exact Hv | exact Hn].
      2:{ rewrite <- (Nat.add_0_r (reads w)). apply Hf. lia. }
      match goal with
      | |- context [done ++ [?c]] =>
          replace (S (length done)) with (length (done ++ [c]))
            by (rewrite length_app; simpl; lia)
      end.
      rewrite (IH _ _ k e); [| exact Hu' | exact Hn | simpl in Hk; lia | |].
      * now rewrite after_reads_S.
      * intros j Hj. cbn [after_read failing reads].
        replace (S (reads w) + j)%nat with (reads w + S j)%nat by lia.
        apply Hf. lia.
      * cbn [after_read failing reads].
        replace (S (reads w) + k)%nat with (reads w + S k)%nat by lia.
        exact He.
Qed.

(** Either no read among the first [n] fails, or there is a first one
    that does. *)
Lemma first_failure (f : nat -> option string) n :
  (forall k, (k < n)%nat -> f k = None) \/
  (exists k e, (k < n)%nat /\ (forall j, (j < k)%nat -> f j = None) /\
               f k = Some e).
Proof.
  induction n as [|n [IH|(k & e & Hk & Hj & He)]].
  - left. intros k Hk. lia.
  - destruct (f n) as [e|] eqn:E.
    + right. exists n, e. split; [lia|]. split; [|exact E].
      intros j Hj. apply IH. exact Hj.
    + left. intros k Hk. destruct (Nat.eq_dec k n) as [->|Hne]; [exact E|].
      apply IH. lia.
  - right. exists k, e. split; [lia|]. split; assumption.
Qed.

(** The arguments [Split] takes without complaint. *)
Definition valid_split (secret : Secret) (parts threshold : Z) : Prop :=
  threshold <= parts <= 65535 /\ 2 <= threshold /\
  length secret <> 0%nat /\ Nat.even (length secret) = true.

(** The polynomials of a call, one for each word of the secret, and the
    shares made from them. *)
Definition polynomials (secret : Secret) (threshold : Z) (w : world)
  : list (list Z) :=
  draws (tape w) (pos w) (random_bytes (u16 (threshold - 1)))
        (byteToUint16 secret).

Definition shares_of (polys : list (list Z)) (parts : Z) : list Part :=
  map uint16ToByte (map (share_row polys) (seq 0 (Z.to_nat parts))).

(** The world a call leaves when all its reads succeed. *)
Definition after_split (secret : Secret) (parts threshold : Z) (w : world)
  : world :=
  after_reads
    (after_alloc w (Z.to_nat parts * (length (byteToUint16 secret) + 1)))
    (random_bytes (u16 (threshold - 1))) (length (byteToUint16 secret)).

Lemma rem2_zero n : (Z.rem (Z.of_nat n) 2 =? 0) = Nat.even n.
Proof.
  rewrite Z.rem_mod_nonneg by lia.
  destruct (Nat.even n) eqn:E.
  - apply Nat.even_spec in E as [k Hk]. apply Z.eqb_eq.
    Z.div_mod_to_equations. lia.
  - assert (Nat.odd n = true) as Ho by (unfold Nat.odd; now rewrite E).
    apply Nat.odd_spec in Ho as [k Hk]. apply Z.eqb_neq.
    Z.div_mod_to_equations. lia.
Qed.

(** Past its checks, [Split] allocates the rows and runs its loops. *)
Lemma Split_valid secret parts threshold w :
  valid_split secret parts threshold ->
  Split secret parts threshold w =
  match foldS (split_step (Z.to_nat parts) threshold)
              (combine (seq 0 (length (byteToUint16 secret)))
                       (byteToUint16 secret))
              (map (rows_at [] (length (byteToUint16 secret)))
                   (seq 0 (Z.to_nat parts)))
              (after_alloc w (Z.to_nat parts *
                              (length (byteToUint16 secret) + 1))) with
  | (Ok out16, w') => (Ok (map uint16ToByte out16), w')
  | (Err e, w') => (Err e, w')
  | (Panic s, w') => (Panic s, w')
  end.
Proof.
  intros ((H1 & H2) & H3 & H4 & H5). unfold Split.
  destruct (Z.ltb_spec parts threshold) as [H|_]; [lia|].
  unfold MaxPartsGF16, SizeGF16.
  destruct (Z.ltb_spec (65536 - 1) parts) as [H|_]; [lia|].
  destruct (Z.ltb_spec threshold 2) as [H|_]; [lia|].
  destruct (Z.eqb_spec (Z.of_nat (length secret)) 0) as [H|_]; [lia|].
  rewrite rem2_zero, H5. cbn [negb]. cbv zeta.
  unfold bindM at 1. unfold alloc_shares.
  fold (after_alloc w (Z.to_nat parts * (length (byteToUint16 secret) + 1))).
  unfold bindM at 1.
  rewrite (map_ext_in (init_row (length (byteToUint16 secret)))
             (rows_at [] (length (byteToUint16 secret)))).
  - reflexivity.
  - intros i Hi. apply in_seq in Hi. apply init_row_spec. lia.
Qed.

Lemma rows_at_0 polys i : rows_at polys 0 i = share_row polys i.
Proof. reflexivity. Qed.

(** [Split] succeeds when none of its reads fails, one read for each word
    of the secret; its shares are the values of the polynomials it drew. *)
Lemma Split_ok secret parts threshold w :
  valid_split secret parts threshold ->
  (forall k, (k < length (byteToUint16 secret))%nat ->
             failing w (reads w + k)%nat = None) ->
  Split secret parts threshold w =
  (Ok (shares_of (polynomials secret threshold w) parts),
   after_split secret parts threshold w).
Proof.
  intros Hv Hf. rewrite (Split_valid _ _ _ _ Hv).
  pose proof (split_loop_ok (Z.to_nat parts) threshold (byteToUint16 secret) []
    (after_alloc w (Z.to_nat parts * (length (byteToUint16 secret) + 1)))
    (byteToUint16_u16 secret)) as H.
  cbn [length app] in H. rewrite H.
  - reflexivity.
  - destruct Hv as ((? & ?) & ? & _). lia.
  - exact Hf.
Qed.

(** [Split] returns the error of the first read that fails, wrapped. *)
Lemma Split_err secret parts threshold w k e :
  valid_split secret parts threshold ->
  (k < length (byteToUint16 secret))%nat ->
  (forall j, (j < k)%nat -> failing w (reads w + j)%nat = None) ->
  failing w (reads w + k)%nat = Some e ->
  fst (Split secret parts threshold w) =
  Err ("failed to generate polynomial: " ++ e)%string.
Proof.
  intros Hv Hk Hf He. rewrite (Split_valid _ _ _ _ Hv).
  pose proof (split_loop_err (Z.to_nat parts) threshold (byteToUint16 secret) []
    (after_alloc w (Z.to_nat parts * (length (byteToUint16 secret) + 1)))
    k e (byteToUint16_u16 secret)) as H.
  cbn [length app] in H. rewrite H.
  - reflexivity.
  - destruct Hv as ((? & ?) & ? & _). lia.
  - exact Hk.
  - exact Hf.
  - exact He.
Qed.

(** The checks of [Split], in their order; a failed check leaves the
    world as it was. *)
Lemma Split_checks secret parts threshold w :
  (parts < threshold ->
   Split secret parts threshold w =
   (Err "parts cannot be less than threshold", w)) /\
  (threshold <= parts -> 65535 < parts ->
   Split secret parts threshold w = (Err "parts cannot exceed 65535", w)) /\
  (threshold <= parts <= 65535 -> threshold < 2 ->
   Split secret parts threshold w = (Err "threshold must be at least 2", w)) /\
  (threshold <= parts <= 65535 -> 2 <= threshold -> length secret = 0%nat ->
   Split secret parts threshold w = (Err "cannot split an empty secret", w)) /\
  (threshold <= parts <= 65535 -> 2 <= threshold -> length secret <> 0%nat ->
   Nat.even (length secret) = false ->
   Split secret parts threshold w = (Err "cannot split odd length secret", w)).
Proof.
  unfold Split, MaxPartsGF16, SizeGF16, lift.
  destruct (Z.ltb_spec parts threshold) as [H1|H1].
  { repeat split; intros; (reflexivity || lia). }
  destruct (Z.ltb_spec (65536 - 1) parts) as [H2|H2].
  { repeat split; intros; (reflexivity || lia). }
  destruct (Z.ltb_spec threshold 2) as [H3|H3].
  { repeat split; intros; (reflexivity || lia). }
  destruct (Z.eqb_spec (Z.of_nat (length secret)) 0) as [H4|H4].
  { repeat split; intros; (reflexivity || lia). }
  rewrite rem2_zero. destruct (Nat.even (length secret)) eqn:H5.
  { repeat split; intros; (congruence || lia). }
  cbn [negb]. repeat split; intros; (reflexivity || lia).
Qed.

Lemma valid_split_dec secret parts threshold :
  valid_split secret parts threshold \/
  (parts < threshold \/ 65535 < parts \/ threshold < 2 \/
   length secret = 0%nat \/ Nat.even (length secret) = false).
Proof.
  unfold valid_split.
  destruct (Z.lt_ge_cases parts threshold); [tauto|].
  destruct (Z.lt_ge_cases 65535 parts); [tauto|].
  destruct (Z.lt_ge_cases threshold 2); [tauto|].
  destruct (Nat.eq_dec (length secret) 0%nat); [tauto|].
  destruct (Nat.even (length secret));
    [left; repeat split; (lia || assumption) | tauto].
Qed.

Lemma Split_invalid secret parts threshold w :
  ~ valid_split secret parts threshold ->
  exists e, Split secret parts threshold w = (Err e, w).
Proof.
  intros Hnv.
  destruct (Split_checks secret parts threshold w) as (C1 & C2 & C3 & C4 & C5).
  destruct (Z.lt_ge_cases parts threshold); [eexists; apply C1; lia|].
  destruct (Z.lt_ge_cases 65535 parts); [eexists; apply C2; lia|].
  destruct (Z.lt_ge_cases threshold 2); [eexists; apply C3; lia|].
  destruct (Nat.eq_dec (length secret) 0%nat);
    [eexists; apply C4; (lia || assumption)|].
  destruct (Nat.even (length secret)) eqn:E;
    [|eexists; apply C5; (lia || assumption)].
  exfalso. apply Hnv. unfold valid_split. repeat split; (lia || assumption).
Qed.

Lemma valid_split_decidable secret parts threshold :
  valid_split secret parts threshold \/ ~ valid_split secret parts threshold.
Proof.
  destruct (valid_split_dec secret parts threshold) as [H|H]; [now left|].
  right. intros ((H1 & H2) & H3 & H4 & H5).
  destruct H as [H|[H|[H|[H|H]]]]; try lia; congruence.
Qed.

(** A call of [Split] that succeeds had valid arguments and no failing
    read; its shares and the world it leaves are those of [Split_ok]. *)
Lemma Split_Ok_inv secret parts threshold w shares w' :
  Split secret parts threshold w = (Ok shares, w') ->
  valid_split secret parts threshold /\
  (forall k, (k < length (byteToUint16 secret))%nat ->
             failing w (reads w + k)%nat = None) /\
  shares = shares_of (polynomials secret threshold w) parts /\
  w' = after_split secret parts threshold w.
Proof.
  intros Hok.
  destruct (valid_split_decidable secret parts threshold) as [Hv|Hnv].
  - destruct (first_failure (fun k => failing w (reads w + k)%nat)
                (length (byteToUint16 secret))) as [Hf|(k & e & Hk & Hj & He)].
    + rewrite (Split_ok _ _ _ _ Hv Hf) in Hok. inversion Hok. tauto.
    + pose proof (Split_err _ _ _ _ _ _ Hv Hk Hj He) as H.
      rewrite Hok in H. discriminate.
  - destruct (Split_invalid _ _ _ w Hnv) as [e He]. congruence.
Qed.

(** *** The shape of the shares *)

Lemma length_draws t n vals : forall p, length (draws t p n vals) = length vals.
Proof. induction vals as [|v vals IH]; intros p; simpl; [|rewrite IH]; reflexivity. Qed.

Lemma length_share_row polys i : length (share_row polys i) = S (length polys).
Proof. unfold share_row. rewrite length_app, length_map. simpl. lia. Qed.

Lemma share_value_u16 cs i : is_u16 (share_value cs i).
Proof. apply val_u16. Qed.

Lemma share_row_u16 polys i :
  Z.of_nat i < 65535 -> Forall is_u16 (share_row polys i).
Proof.
  intros Hi. unfold share_row. apply Forall_app. split.
  - apply List.Forall_forall. intros z Hz. apply in_map_iff in Hz.
    destruct Hz as (cs & <- & _). apply share_value_u16.
  - constructor; [apply x_of_range, Hi | constructor].
Qed.

Lemma tag_of_row_app l x : tag_of_row (l ++ [x]) = x.
Proof.
  unfold tag_of_row. rewrite length_app. cbn [length].
  replace (length l + 1 - 1)%nat with (length l) by lia.
  rewrite app_nth2 by lia. now rewrite Nat.sub_diag.
Qed.

Lemma tag_share polys i :
  Z.of_nat i < 65535 -> tag (uint16ToByte (share_row polys i)) = x_of i.
Proof.
  intros Hi. unfold tag.
  rewrite byteToUint16_uint16ToByte by (apply share_row_u16, Hi).
  apply tag_of_row_app.
Qed.

Lemma uint16ToByte_app l l' :
  uint16ToByte (l ++ l') = uint16ToByte l ++ uint16ToByte l'.
Proof. induction l as [|w l IH]; simpl; [|rewrite IH]; reflexivity. Qed.

Lemma length_shares_of polys parts :
  length (shares_of polys parts) = Z.to_nat parts.
Proof. unfold shares_of. now rewrite !length_map, length_seq. Qed.

Lemma nth_shares_of polys parts i :
  (i < Z.to_nat parts)%nat ->
  nth i (shares_of polys parts) [] = uint16ToByte (share_row polys i).
Proof.
  intros Hi. unfold shares_of. rewrite map_map.
  rewrite (nth_indep _ [] (uint16ToByte (share_row polys 0%nat)))
    by now rewrite length_map, length_seq.
  rewrite (map_nth (fun j => uint16ToByte (share_row polys j))).
  now rewrite seq_nth.
Qed.

Lemma length_polynomials secret threshold w :
  length (polynomials secret threshold w) = Nat.div2 (length secret).
Proof.
  unfold polynomials. now rewrite length_draws, length_byteToUint16.
Qed.

(** The world in which every byte of the random source is [42] and no
    read fails. *)
Definition quiet_world : world :=
  {| tape := fun _ => "042"%byte; failing := fun _ => None;
     pos := 0; reads := 0; allocated := 0 |}.

Lemma quiet_world_reads (n : nat) k :
  (k < n)%nat -> failing quiet_world (reads quiet_world + k)%nat = None.
Proof. reflexivity. Qed.

Lemma small_call_valid : valid_split ["001"; "002"]%byte 3 2.
Proof. unfold valid_split. simpl. repeat split; (lia || discriminate). Qed.

(** C8: a successful call of [Split] returns [parts] shares, each two
    bytes longer than the secret; share [i] ends with the two bytes of
    the word [i + 1], most significant first, so the tags of the shares
    are [1 .. parts] in this order and none is zero. *)
Theorem Split_share_shape secret parts threshold w shares w' :
  Split secret parts threshold w = (Ok shares, w') ->
  length shares = Z.to_nat parts /\
  Forall (fun p => length p = (length secret + 2)%nat) shares /\
  map tag shares = map (fun i => Z.of_nat i + 1) (seq 0 (Z.to_nat parts)) /\
  forall i, (i < Z.to_nat parts)%nat ->
    (exists body, nth i shares [] =
                  body ++ [byte_of ((Z.of_nat i + 1) / 256);
                           byte_of (Z.of_nat i + 1)]) /\
    tag (nth i shares []) = Z.of_nat i + 1 /\
    1 <= tag (nth i shares []) <= parts.
Proof.
  intros Hok. destruct (Split_Ok_inv _ _ _ _ _ _ Hok) as (Hv & _ & -> & _).
  destruct Hv as ((H1 & H2) & H3 & H4 & H5).
  set (polys := polynomials secret threshold w).
  assert (Hpos : forall i, (i < Z.to_nat parts)%nat -> Z.of_nat i < 65535)
    by (intros; lia).
  split; [apply length_shares_of|]. split; [|split].
  - unfold shares_of. rewrite map_map. apply List.Forall_forall.
    intros p Hp. apply in_map_iff in Hp. destruct Hp as (i & <- & _).
    rewrite length_uint16ToByte, length_share_row.
    unfold polys. rewrite length_polynomials.
    pose proof (even_half _ H5). lia.
  - unfold shares_of. rewrite !map_map. apply map_ext_in.
    intros i Hi. apply in_seq in Hi. apply tag_share, Hpos. lia.
  - intros i Hi. rewrite nth_shares_of by exact Hi.
    rewrite tag_share by (apply Hpos, Hi). unfold x_of.
    split; [|split; [reflexivity | lia]].
    unfold share_row. rewrite uint16ToByte_app. eexists. reflexivity.
Qed.

Lemma Split_share_shape_witness :
  exists shares,
    fst (Split ["001"; "002"]%byte 3 2 quiet_world) = Ok shares /\
    length shares = 3%nat /\
    Forall (fun p => length p = 4%nat) shares /\
    map tag shares = [1; 2; 3].
Proof.
  eexists. split.
  - rewrite (Split_ok _ _ _ _ small_call_valid (quiet_world_reads _)).
    reflexivity.
  - pose proof (Split_share_shape ["001"; "002"]%byte 3 2 quiet_world _ _
                  (Split_ok _ _ _ _ small_call_valid (quiet_world_reads _)))
      as (H1 & H2 & H3 & _).
    split; [exact H1|]. split; [exact H2 | exact H3].
Defined.

(** C4: with a random source that does not fail, [Split] returns an error
    exactly when [parts < threshold], [parts > 65535], [threshold < 2],
    the secret is empty, or its length is odd.  The five checks are made
    in this order, their five messages are distinct, and a failed check
    returns at once: the world is as it was, with no read of the random
    source and no share allocated. *)
Theorem Split_error_iff secret parts threshold w :
  ((forall n, failing w n = None) ->
   ((exists e, fst (Split secret parts threshold w) = Err e) <->
    (parts < threshold \/ 65535 < parts \/ threshold < 2 \/
     length secret = 0%nat \/ Nat.even (length secret) = false))) /\
  (parts < threshold ->
   Split secret parts threshold w =
   (Err "parts cannot be less than threshold", w)) /\
  (threshold <= parts -> 65535 < parts ->
   Split secret parts threshold w = (Err "parts cannot exceed 65535", w)) /\
  (threshold <= parts <= 65535 -> threshold < 2 ->
   Split secret parts threshold w = (Err "threshold must be at least 2", w)) /\
  (threshold <= parts <= 65535 -> 2 <= threshold -> length secret = 0%nat ->
   Split secret parts threshold w = (Err "cannot split an empty secret", w)) /\
  (threshold <= parts <= 65535 -> 2 <= threshold -> length secret <> 0%nat ->
   Nat.even (length secret) = false ->
   Split secret parts threshold w = (Err "cannot split odd length secret", w)) /\
  List.NoDup ["parts cannot be less than threshold"; "parts cannot exceed 65535";
              "threshold must be at least 2"; "cannot split an empty secret";
              "cannot split odd length secret"]%string.
Proof.
  split; [|split; [apply Split_checks|]];
    [|split; [apply Split_checks|]];
    [|split; [apply Split_checks|]];
    [|split; [apply Split_checks|]];
    [|split; [apply Split_checks|]].
  - intros Hf. split.
    + intros [e He].
      destruct (valid_split_dec secret parts threshold) as [Hv|H]; [|exact H].
      rewrite (Split_ok _ _ _ _ Hv) in He by (intros; apply Hf). discriminate.
    + intros H.
      destruct (Split_invalid secret parts threshold w) as [e He].
      * intros ((H1 & H2) & H3 & H4 & H5).
        destruct H as [H|[H|[H|[H|H]]]]; try lia; congruence.
      * exists e. now rewrite He.
  - repeat constructor; simpl; intuition discriminate.
Qed.

Lemma Split_error_iff_witness :
  (exists e, fst (Split ["001"]%byte 3 2 quiet_world) = Err e) /\
  Split ["001"]%byte 3 2 quiet_world =
  (Err "cannot split odd length secret", quiet_world).
Proof.
  destruct (Split_error_iff ["001"]%byte 3 2 quiet_world)
    as (Hiff & _ & _ & _ & _ & Hodd & _).
  split.
  - apply (proj2 (Hiff (fun n => eq_refl))). right. right. right. right.
    reflexivity.
  - apply Hodd; [lia | lia | discriminate | reflexivity].
Defined.

(** *** [Combine] on the shares of [Split] *)

Lemma nth_draws t n vals : forall p idx,
  (idx < length vals)%nat ->
  nth idx (draws t p n vals) [] =
  nth idx vals 0 :: drawn t (p + idx * n) n.
Proof.
  induction vals as [|v vals IH]; intros p idx Hidx; [simpl in Hidx; lia|].
  destruct idx as [|idx]; cbn [draws nth].
  - now rewrite Nat.add_0_r.
  - rewrite IH by (simpl in Hidx; lia). do 2 f_equal. lia.
Qed.

Lemma NoDup_map_inj {A B} (f : A -> B) l :
  (forall a b, In a l -> In b l -> f a = f b -> a = b) ->
  List.NoDup l -> List.NoDup (map f l).
Proof.
  intros Hinj Hnd. induction Hnd as [|a l Ha Hnd IH]; [constructor|].
  cbn [map]. constructor.
  - intros Hin. apply in_map_iff in Hin. destruct Hin as (b & Hb & Hin).
    apply Ha. rewrite <- (Hinj b a); [exact Hin | now right | now left | exact Hb].
  - apply IH. intros x y Hx Hy. apply Hinj; now right.
Qed.

Lemma map_seq_nth (f : nat -> Z) l :
  (forall i, (i < length l)%nat -> f i = nth i l 0) ->
  map f (seq 0 (length l)) = l.
Proof.
  intros H. apply (nth_ext _ _ 0 0).
  - now rewrite length_map, length_seq.
  - intros i Hi. rewrite length_map, length_seq in Hi.
    rewrite (nth_indep _ 0 (f 0%nat)) by now rewrite length_map, length_seq.
    rewrite map_nth, seq_nth by exact Hi. now apply H.
Qed.

Lemma nth_share_row polys i idx :
  (idx < length polys)%nat ->
  nth idx (share_row polys i) 0 = share_value (nth idx polys []) i.
Proof.
  intros Hidx. unfold share_row.
  rewrite app_nth1 by now rewrite length_map.
  rewrite (nth_indep _ 0 (share_value [] i)) by now rewrite length_map.
  apply (map_nth (fun cs => share_value cs i)).
Qed.

(** The parts made of the shares with the indices [idxs]. *)
Definition parts_of (polys : list (list Z)) (idxs : list nat) : list Part :=
  map (fun i => uint16ToByte (share_row polys i)) idxs.

Lemma tags_parts_of polys idxs :
  Forall (fun i => Z.of_nat i < 65535) idxs ->
  map tag (parts_of polys idxs) = map x_of idxs.
Proof.
  intros Hb. unfold parts_of. rewrite map_map. apply map_ext_in.
  intros i Hi. rewrite List.Forall_forall in Hb. apply tag_share, Hb, Hi.
Qed.

Lemma parts_of_accepted polys idxs :
  polys <> [] -> (2 <= length idxs)%nat -> List.NoDup idxs ->
  Forall (fun i => Z.of_nat i < 65535) idxs ->
  accepted (parts_of polys idxs) (2 * S (length polys)).
Proof.
  intros Hne Hn Hnd Hb. unfold accepted.
  split; [unfold parts_of; now rewrite length_map|].
  split; [|split; [|split]].
  - apply List.Forall_forall. intros p Hp. apply in_map_iff in Hp.
    destruct Hp as (i & <- & _).
    now rewrite length_uint16ToByte, length_share_row.
  - destruct polys; [easy | simpl; lia].
  - rewrite Nat.even_mul. reflexivity.
  - rewrite tags_parts_of by exact Hb. apply NoDup_map_inj; [|exact Hnd].
    unfold x_of. intros a b _ _ H. lia.
Qed.

(** Interpolating the words of the shares gives the polynomial's value at
    zero: its intercept. *)
Lemma reconstruct_parts_of polys idxs idx v tl :
  List.NoDup idxs -> Forall (fun i => Z.of_nat i < 65535) idxs ->
  (idx < length polys)%nat -> nth idx polys [] = v :: tl -> is_u16 v ->
  (length tl < length idxs)%nat ->
  reconstruct (parts_of polys idxs) idx = v.
Proof.
  intros Hnd Hb Hidx Hcs Hv Hlen.
  assert (Hlp : length (parts_of polys idxs) = length idxs)
    by (unfold parts_of; now rewrite length_map).
  unfold reconstruct, flagrange.
  rewrite (Poly.lagrange_interpolation gf gf_zero gf_one gf_add gf_mul gf_add
             gf_opp gf_div gf_inv gf_field _ _ _ (map of_Z (v :: tl))).
  - cbn [map]. rewrite Poly.eval_cons.
    replace (gf_add (of_Z v) (gf_mul gf_zero _)) with (of_Z v) by ring.
    now apply val_of_Z.
  - apply List.seq_NoDup.
  - intros i j Hi Hj. apply List.in_seq in Hi, Hj.
    rewrite Hlp in Hi, Hj. rewrite tags_parts_of by exact Hb.
    apply sample_inj.
    + apply List.Forall_forall. intros z Hz. apply in_map_iff in Hz.
      destruct Hz as (k & <- & Hk). rewrite List.Forall_forall in Hb.
      apply x_of_range, Hb, Hk.
    + apply NoDup_map_inj; [|exact Hnd]. unfold x_of. intros a b _ _ H. lia.
    + rewrite length_map. lia.
    + rewrite length_map. lia.
  - rewrite length_map, length_seq, Hlp. simpl. lia.
  - intros j Hj. apply List.in_seq in Hj. rewrite Hlp in Hj.
    destruct Hj as [_ Hj]. cbn [Nat.add] in Hj. unfold sample.
    rewrite tags_parts_of by exact Hb.
    rewrite nth_column by (unfold parts_of; rewrite length_map; exact Hj).
    unfold parts_of.
    rewrite (nth_indep _ [] (uint16ToByte (share_row polys 0%nat)))
      by (rewrite length_map; exact Hj).
    rewrite (map_nth (fun i => uint16ToByte (share_row polys i))).
    rewrite (nth_indep (map x_of idxs) 0 (x_of 0%nat))
      by (rewrite length_map; exact Hj).
    rewrite (map_nth x_of).
    assert (Hbj : Z.of_nat (nth j idxs 0%nat) < 65535).
    { rewrite List.Forall_forall in Hb. apply Hb, nth_In, Hj. }
    rewrite byteToUint16_uint16ToByte by (apply share_row_u16, Hbj).
    rewrite nth_share_row by exact Hidx. rewrite Hcs.
    unfold share_value. apply of_Z_val.
Qed.

(** [Combine] returns the intercepts of the polynomials when it is given
    more shares than the polynomials have random coefficients. *)
Lemma Combine_parts_of polys vals idxs :
  vals <> [] -> Forall is_u16 vals -> length polys = length vals ->
  (forall idx, (idx < length vals)%nat ->
     exists tl, nth idx polys [] = nth idx vals 0 :: tl /\
                (length tl < length idxs)%nat) ->
  (2 <= length idxs)%nat -> List.NoDup idxs ->
  Forall (fun i => Z.of_nat i < 65535) idxs ->
  Combine (parts_of polys idxs) = Ok (uint16ToByte vals).
Proof.
  intros Hne Hu Hlen Hcs Hn Hnd Hb.
  assert (Hpne : polys <> []) by (destruct polys, vals; simpl in *; congruence).
  rewrite (Combine_accepted _ _ (parts_of_accepted _ _ Hpne Hn Hnd Hb)).
  do 2 f_equal. rewrite Nat.div2_double.
  replace (S (length polys) - 1)%nat with (length vals) by lia.
  apply map_seq_nth. intros idx Hidx.
  destruct (Hcs idx Hidx) as (tl & Hp & Htl).
  apply (reconstruct_parts_of _ _ _ _ tl); try assumption.
  - lia.
  - apply Forall_nth_u16, Hu.
Qed.

(** A polynomial of [Split] has fewer random coefficients than the
    threshold, also when [degree*2] wraps around. *)
Lemma coefficient_count threshold :
  2 <= threshold <= 65535 ->
  (Nat.div2 (random_bytes (u16 (threshold - 1))) < Z.to_nat threshold)%nat.
Proof.
  intros Ht. unfold random_bytes.
  rewrite (u16_id (threshold - 1)) by (unfold is_u16; lia).
  set (n := Z.to_nat (u16 ((threshold - 1) * 2))).
  assert (Hn : (n <= 2 * (Z.to_nat threshold - 1))%nat).
  { unfold n, u16.
    pose proof (Z.mod_le ((threshold - 1) * 2) 65536 ltac:(lia) ltac:(lia)).
    pose proof (Z.mod_pos_bound ((threshold - 1) * 2) 65536 ltac:(lia)).
    lia. }
  pose proof (Nat.div2_odd n) as Ho.
  destruct (Nat.odd n); simpl Nat.b2n in Ho; lia.
Qed.

Lemma polynomials_intercept secret threshold w idx :
  (idx < length (byteToUint16 secret))%nat ->
  exists tl,
    nth idx (polynomials secret threshold w) [] =
    nth idx (byteToUint16 secret) 0 :: tl /\
    length tl = Nat.div2 (random_bytes (u16 (threshold - 1))).
Proof.
  intros Hidx. unfold polynomials. rewrite nth_draws by exact Hidx.
  eexists. split; [reflexivity | apply length_drawn].
Qed.

Lemma select_shares polys parts idxs :
  Forall (fun i => (i < Z.to_nat parts)%nat) idxs ->
  map (fun i => nth i (shares_of polys parts) []) idxs = parts_of polys idxs.
Proof.
  intros Hb. unfold parts_of. apply map_ext_in. intros i Hi.
  rewrite List.Forall_forall in Hb. apply nth_shares_of, Hb, Hi.
Qed.

(** C1: when [Split] succeeds, which needs an even, non-empty secret and
    [2 <= threshold <= parts <= 65535], [Combine] returns the secret from
    the shares at any distinct indices, [threshold] of them or more, in
    any order, whatever bytes the random source gave. *)
Theorem Split_Combine secret parts threshold w shares w' idxs :
  Split secret parts threshold w = (Ok shares, w') ->
  List.NoDup idxs -> Forall (fun i => (i < length shares)%nat) idxs ->
  (Z.to_nat threshold <= length idxs)%nat ->
  Combine (map (fun i => nth i shares []) idxs) = Ok secret.
Proof.
  intros Hok Hnd Hb Hlen.
  destruct (Split_Ok_inv _ _ _ _ _ _ Hok) as (Hv & _ & -> & _).
  destruct Hv as ((H1 & H2) & H3 & H4 & H5).
  rewrite length_shares_of in Hb. rewrite (select_shares _ _ _ Hb).
  assert (Hw : (1 <= length (byteToUint16 secret))%nat).
  { rewrite length_byteToUint16. pose proof (even_half _ H5). lia. }
  rewrite (Combine_parts_of _ (byteToUint16 secret)).
  - now rewrite uint16ToByte_byteToUint16.
  - intros E. rewrite E in Hw. simpl in Hw. lia.
  - apply byteToUint16_u16.
  - unfold polynomials. apply length_draws.
  - intros idx Hidx.
    destruct (polynomials_intercept secret threshold w idx Hidx)
      as (tl & Hp & Htl).
    exists tl. split; [exact Hp|]. rewrite Htl.
    pose proof (coefficient_count threshold ltac:(lia)). lia.
  - lia.
  - exact Hnd.
  - eapply List.Forall_impl; [|exact Hb]. cbv beta. intros i Hi. lia.
Qed.

Lemma Split_Combine_witness :
  exists shares,
    fst (Split ["001"; "002"]%byte 3 2 quiet_world) = Ok shares /\
    Combine [nth 2 shares []; nth 0 shares []] = Ok ["001"; "002"]%byte.
Proof.
  eexists. split.
  - rewrite (Split_ok _ _ _ _ small_call_valid (quiet_world_reads _)).
    reflexivity.
  - apply (Split_Combine ["001"; "002"]%byte 3 2 quiet_world _ _ [2; 0]%nat
             (Split_ok _ _ _ _ small_call_valid (quiet_world_reads _))).
    + repeat constructor; simpl; intuition lia.
    + rewrite length_shares_of. repeat constructor.
    + simpl. lia.
Defined.

(** C10: [Combine] does not ask for non-zero tags: there are two parts of
    four bytes, with the distinct tags [0] and [1], on which it returns a
    result; and no share that [Split] returns has the tag [0]. *)
Theorem Combine_accepts_zero_tag :
  (exists parts L s,
     (2 <= length parts)%nat /\ Forall (fun p => length p = L) parts /\
     (4 <= L)%nat /\ Nat.even L = true /\ List.NoDup (map tag parts) /\
     In 0 (map tag parts) /\ Combine parts = Ok s) /\
  (forall secret parts threshold w shares w',
     Split secret parts threshold w = (Ok shares, w') ->
     ~ In 0 (map tag shares)).
Proof.
  split.
  - exists zero_tag_parts, 4%nat. eexists.
    destruct zero_tag_parts_accepted as (H1 & H2 & H3 & H4 & H5).
    split; [exact H1|]. split; [exact H2|]. split; [exact H3|].
    split; [exact H4|]. split; [exact H5|]. split.
    + left. reflexivity.
    + exact (Combine_accepted _ _ zero_tag_parts_accepted).
  - intros secret parts threshold w shares w' Hok.
    destruct (Split_Ok_inv _ _ _ _ _ _ Hok) as (Hv & _ & -> & _).
    destruct Hv as ((H1 & H2) & _).
    unfold shares_of. rewrite !map_map. intros Hin.
    apply in_map_iff in Hin. destruct Hin as (i & Hi & Hin).
    apply in_seq in Hin. rewrite tag_share in Hi by lia.
    unfold x_of in Hi. lia.
Qed.

Lemma Combine_accepts_zero_tag_witness :
  exists shares,
    fst (Split ["001"; "002"]%byte 3 2 quiet_world) = Ok shares /\
    ~ In 0 (map tag shares).
Proof.
  eexists. split.
  - rewrite (Split_ok _ _ _ _ small_call_valid (quiet_world_reads _)).
    reflexivity.
  - exact (proj2 Combine_accepts_zero_tag _ _ _ _ _ _
             (Split_ok _ _ _ _ small_call_valid (quiet_world_reads _))).
Defined.

(** ** Further properties of the library *)

(** *** The arithmetic *)

(** The products [mult] reads from the tables are those the generator
    tool computes by shifting and reducing. *)
Theorem mult_table_lookup a b :
  is_u16 a -> is_u16 b ->
  mult a b = Gen.multiplyGF16 a b /\ is_u16 (mult a b).
Proof.
  intros Ha Hb. split; [now apply mult_spec | now apply mult_u16].
Qed.

Lemma mult_table_lookup_witness :
  mult 3 7 = Gen.multiplyGF16 3 7 /\ is_u16 (mult 3 7).
Proof. apply (mult_table_lookup 3 7); unfold is_u16; lia. Defined.

Lemma mult_cancel d a b :
  is_u16 d -> is_u16 a -> is_u16 b -> b <> 0 -> mult d b = mult a b -> d = a.
Proof.
  intros Hd Ha Hb Hne H. rewrite !mult_spec in H by assumption.
  assert (H0 : multiplyGF16 (Z.lxor d a) b = 0).
  { rewrite multiplyGF16_lxor_l by assumption. rewrite H. apply Z.lxor_nilpotent. }
  apply multiplyGF16_integral in H0; [|now apply lxor_u16 | exact Hb].
  destruct H0 as [H0|H0]; [now apply lxor_eq_0 | contradiction].
Qed.

(** [add], [mult] and [div] are the operations of a field on the 16-bit
    values: [mult] is commutative and associative, distributes over [add]
    and has the unit 1; every value is its own opposite; and [div] by a
    non-zero value undoes [mult] and is the only solution of
    [mult q b = a]. *)
Theorem field_arithmetic a b c :
  is_u16 a -> is_u16 b -> is_u16 c ->
  is_u16 (add a b) /\
  add a a = 0 /\
  mult a b = mult b a /\
  mult a (mult b c) = mult (mult a b) c /\
  mult a (add b c) = add (mult a b) (mult a c) /\
  mult 1 a = a /\
  mult 0 a = 0 /\
  (b <> 0 -> div (mult a b) b = Ok a) /\
  (b <> 0 -> forall q, is_u16 q -> mult q b = a -> div a b = Ok q).
Proof.
  intros Ha Hb Hc.
  split; [now apply add_u16|].
  split; [apply Z.lxor_nilpotent|].
  split; [now apply mult_comm|].
  split; [now apply mult_assoc|].
  split.
  { unfold add. rewrite !mult_spec; try assumption.
    - now apply multiplyGF16_lxor_r.
    - now apply lxor_u16. }
  split.
  { rewrite mult_spec by (assumption || (unfold is_u16; lia)).
    now apply multiplyGF16_1_l. }
  split.
  { rewrite mult_spec by (assumption || (unfold is_u16; lia)).
    apply multiplyGF16_0_l. }
  split.
  - intros Hne.
    destruct (quot_spec (mult a b) b (mult_u16 a b Ha Hb) Hb Hne)
      as (Hd & Hq & Hm).
    rewrite Hd. f_equal. now apply (mult_cancel _ _ b).
  - intros Hne q Hq Hm.
    destruct (quot_spec a b Ha Hb Hne) as (Hd & Hq' & Hm').
    rewrite Hd. f_equal. apply (mult_cancel _ _ b); try assumption.
    congruence.
Qed.

Lemma field_arithmetic_witness :
  mult 3 7 = mult 7 3 /\ (7 <> 0 -> div (mult 3 7) 7 = Ok 3).
Proof.
  destruct (field_arithmetic 3 7 9) as (_ & _ & H & _ & _ & _ & _ & Hd & _);
    try (unfold is_u16; lia).
  split; [exact H | exact Hd].
Defined.

(** *** Polynomials *)

(** [evaluate] returns the value of the polynomial at [x], the intercept
    when [x] is 0; on a polynomial without coefficients it panics. *)
Theorem evaluate_value cs x :
  Forall is_u16 cs -> is_u16 x ->
  evaluate {| coefficients := cs |} x =
  match cs with
  | [] => Panic "index out of range"
  | c :: _ =>
      if x =? 0 then Ok c
      else Ok (val (feval (map of_Z cs) (of_Z x)))
  end.
Proof.
  intros Hu Hx. destruct cs as [|c cs].
  - unfold evaluate. cbn [coefficients length].
    destruct (x =? 0); reflexivity.
  - destruct (Z.eqb_spec x 0) as [->|Hne].
    + reflexivity.
    + now apply evaluate_spec.
Qed.

Lemma evaluate_value_witness :
  evaluate {| coefficients := [42; 7] |} 0 = Ok 42.
Proof.
  apply (evaluate_value [42; 7] 0).
  - repeat constructor; unfold is_u16; lia.
  - unfold is_u16; lia.
Defined.

(** [makePolynomial] reads the random source once.  When the read fails
    it returns the error; otherwise the polynomial has the intercept as
    its first coefficient, followed by 16-bit random coefficients:
    [degree] of them for a degree below 32768, and [degree - 32768] for a
    larger one, since the number of random bytes [degree*2] is computed
    in 16 bits. *)
Theorem makePolynomial_result intercept degree w :
  is_u16 degree ->
  match failing w (reads w) with
  | Some e => makePolynomial intercept degree w = (Err e, after_failure w)
  | None =>
      exists cs,
        makePolynomial intercept degree w =
        (Ok {| coefficients := intercept :: cs |},
         after_read w (Z.to_nat ((degree * 2) mod 65536))) /\
        Forall is_u16 cs /\
        Z.of_nat (length cs) =
        (if degree <? 32768 then degree else degree - 32768)
  end.
Proof.
  intros Hd. destruct (failing w (reads w)) as [e|] eqn:Hf.
  - now apply makePolynomial_err.
  - eexists. split; [now apply makePolynomial_ok|].
    split; [apply drawn_u16|]. rewrite length_drawn. unfold random_bytes, u16.
    unfold is_u16 in Hd.
    set (n := Z.to_nat ((degree * 2) mod 65536)).
    pose proof (Nat.div2_odd n) as Ho.
    assert (Hn : Z.of_nat n = (degree * 2) mod 65536).
    { unfold n. pose proof (Z.mod_pos_bound (degree * 2) 65536 ltac:(lia)). lia. }
    destruct (Z.ltb_spec degree 32768) as [Hlt|Hge].
    + rewrite Z.mod_small in Hn by lia.
      destruct (Nat.odd n); simpl Nat.b2n in Ho; lia.
    + replace (degree * 2) with ((degree - 32768) * 2 + 1 * 65536) in Hn by lia.
      rewrite Z.mod_add, Z.mod_small in Hn by lia.
      destruct (Nat.odd n); simpl Nat.b2n in Ho; lia.
Qed.

Lemma makePolynomial_result_witness :
  exists cs,
    makePolynomial 42 32768 quiet_world =
    (Ok {| coefficients := 42 :: cs |}, after_read quiet_world 0) /\
    Forall is_u16 cs /\ Z.of_nat (length cs) = 0.
Proof.
  apply (makePolynomial_result 42 32768 quiet_world). unfold is_u16. lia.
Defined.

(** *** Bytes and words *)

(** The two conversions undo each other: on byte strings of even length
    and on 16-bit words.  A byte string of odd length loses its last
    byte. *)
Theorem bytes_words_round_trip (s : list byte) (l : list Z) (b : byte) :
  (Nat.even (length s) = true -> uint16ToByte (byteToUint16 s) = s) /\
  (Nat.even (length s) = true -> byteToUint16 (s ++ [b]) = byteToUint16 s) /\
  (Forall is_u16 l -> byteToUint16 (uint16ToByte l) = l) /\
  length (uint16ToByte l) = (2 * length l)%nat /\
  length (byteToUint16 s) = Nat.div2 (length s).
Proof.
  split; [apply uint16ToByte_byteToUint16|].
  split.
  - induction s as [| a | hi lo s IH] using list_pair_ind; intros He.
    + reflexivity.
    + discriminate.
    + cbn [app byteToUint16]. f_equal. apply IH. exact He.
  - split; [apply byteToUint16_uint16ToByte|].
    split; [apply length_uint16ToByte | apply length_byteToUint16].
Qed.

Lemma bytes_words_round_trip_witness :
  uint16ToByte (byteToUint16 ["001"; "002"]%byte) = ["001"; "002"]%byte /\
  byteToUint16 (uint16ToByte [258]) = [258].
Proof.
  destruct (bytes_words_round_trip ["001"; "002"]%byte [258] "003"%byte)
    as (H1 & _ & H3 & _).
  split.
  - apply H1. reflexivity.
  - apply H3. repeat constructor; unfold is_u16; lia.
Defined.

(** *** [Split] and the random source *)

Lemma coefficient_count_exact threshold :
  2 <= threshold <= 65535 ->
  Z.of_nat (Nat.div2 (random_bytes (u16 (threshold - 1)))) =
  (if threshold <? 32769 then threshold - 1 else threshold - 32769) /\
  Z.of_nat (random_bytes (u16 (threshold - 1))) =
  (if threshold <? 32769 then 2 * (threshold - 1)
   else 2 * (threshold - 32769)).
Proof.
  intros Ht. unfold random_bytes.
  rewrite (u16_id (threshold - 1)) by (unfold is_u16; lia). unfold u16.
  set (n := Z.to_nat (((threshold - 1) * 2) mod 65536)).
  pose proof (Nat.div2_odd n) as Ho.
  assert (Hn : Z.of_nat n = ((threshold - 1) * 2) mod 65536).
  { unfold n.
    pose proof (Z.mod_pos_bound ((threshold - 1) * 2) 65536 ltac:(lia)). lia. }
  destruct (Z.ltb_spec threshold 32769) as [Hlt|Hge].
  - rewrite Z.mod_small in Hn by lia.
    destruct (Nat.odd n); simpl Nat.b2n in Ho; lia.
  - replace ((threshold - 1) * 2)
      with ((threshold - 32769) * 2 + 1 * 65536) in Hn by lia.
    rewrite Z.mod_add, Z.mod_small in Hn by lia.
    destruct (Nat.odd n); simpl Nat.b2n in Ho; lia.
Qed.

(** A successful call of [Split] reads the random source once for each
    word of the secret, [2 * (threshold - 1)] bytes each time, reduced
    modulo 65536; it allocates [parts] rows of one word more than the
    secret has, and leaves the source as it was otherwise. *)
Theorem Split_effects secret parts threshold w shares w' :
  Split secret parts threshold w = (Ok shares, w') ->
  reads w' = (reads w + Nat.div2 (length secret))%nat /\
  Z.of_nat (pos w') =
    Z.of_nat (pos w) +
    Z.of_nat (Nat.div2 (length secret)) * ((2 * (threshold - 1)) mod 65536) /\
  allocated w' =
    (allocated w + Z.to_nat parts * (Nat.div2 (length secret) + 1))%nat /\
  tape w' = tape w /\ failing w' = failing w.
Proof.
  intros Hok. destruct (Split_Ok_inv _ _ _ _ _ _ Hok) as (Hv & _ & _ & ->).
  destruct Hv as ((H1 & H2) & H3 & _).
  unfold after_split, after_reads, after_alloc.
  cbn [reads pos allocated tape failing].
  rewrite length_byteToUint16.
  split; [reflexivity|]. split; [|repeat split].
  pose proof (coefficient_count_exact threshold ltac:(lia)) as [_ Hb].
  rewrite Nat2Z.inj_add, Nat2Z.inj_mul, Hb. f_equal. f_equal.
  destruct (Z.ltb_spec threshold 32769).
  - rewrite Z.mod_small; lia.
  - replace (2 * (threshold - 1))
      with (2 * (threshold - 32769) + 1 * 65536) by lia.
    rewrite Z.mod_add, Z.mod_small; lia.
Qed.

Lemma Split_effects_witness :
  exists shares w',
    Split ["001"; "002"]%byte 3 2 quiet_world = (Ok shares, w') /\
    reads w' = 1%nat /\ Z.of_nat (pos w') = 2 /\ allocated w' = 6%nat.
Proof.
  eexists. eexists. split.
  - exact (Split_ok _ _ _ _ small_call_valid (quiet_world_reads _)).
  - destruct (Split_effects ["001"; "002"]%byte 3 2 quiet_world _ _
               (Split_ok _ _ _ _ small_call_valid (quiet_world_reads _)))
      as (H1 & H2 & H3 & _).
    split; [exact H1|]. split; [exact H2 | exact H3].
Defined.

(** With valid arguments [Split] succeeds exactly when none of its reads
    of the random source fails; the error of the first read that fails is
    returned, wrapped, and no share is. *)
Theorem Split_random_failure secret parts threshold w :
  valid_split secret parts threshold ->
  ((exists shares, fst (Split secret parts threshold w) = Ok shares) <->
   (forall k, (k < Nat.div2 (length secret))%nat ->
              failing w (reads w + k)%nat = None)) /\
  (forall k e,
     (k < Nat.div2 (length secret))%nat ->
     (forall j, (j < k)%nat -> failing w (reads w + j)%nat = None) ->
     failing w (reads w + k)%nat = Some e ->
     fst (Split secret parts threshold w) =
     Err ("failed to generate polynomial: " ++ e)%string).
Proof.
  intros Hv. rewrite <- length_byteToUint16. split; [split|].
  - intros [shares Hs].
    destruct (first_failure (fun k => failing w (reads w + k)%nat)
                (length (byteToUint16 secret))) as [Hf|(k & e & Hk & Hj & He)].
    + exact Hf.
    + rewrite (Split_err _ _ _ _ _ _ Hv Hk Hj He) in Hs. discriminate.
  - intros Hf. eexists. now rewrite (Split_ok _ _ _ _ Hv Hf).
  - intros k e Hk Hj He. exact (Split_err _ _ _ _ _ _ Hv Hk Hj He).
Qed.

(** The world in which the first read of the random source fails. *)
Definition broken_world : world :=
  {| tape := fun _ => "042"%byte; failing := fun _ => Some "EOF"%string;
     pos := 0; reads := 0; allocated := 0 |}.

Lemma Split_random_failure_witness :
  fst (Split ["001"; "002"]%byte 3 2 broken_world) =
  Err "failed to generate polynomial: EOF".
Proof.
  apply (proj2 (Split_random_failure ["001"; "002"]%byte 3 2 broken_world
                  small_call_valid) 0%nat "EOF"%string).
  - simpl. lia.
  - intros j Hj. lia.
  - reflexivity.
Defined.

(** [Split] never panics: every call returns shares or an error. *)
Theorem Split_never_panics secret parts threshold w :
  (exists shares, fst (Split secret parts threshold w) = Ok shares) \/
  (exists e, fst (Split secret parts threshold w) = Err e).
Proof.
  destruct (valid_split_decidable secret parts threshold) as [Hv|Hnv].
  - destruct (first_failure (fun k => failing w (reads w + k)%nat)
                (length (byteToUint16 secret))) as [Hf|(k & e & Hk & Hj & He)].
    + left. eexists. now rewrite (Split_ok _ _ _ _ Hv Hf).
    + right. eexists. exact (Split_err _ _ _ _ _ _ Hv Hk Hj He).
  - right. destruct (Split_invalid _ _ _ w Hnv) as [e He].
    exists e. now rewrite He.
Qed.

(** *** The threshold above 32768 *)

Lemma draws_0 t vals : forall p, draws t p 0 vals = map (fun v => [v]) vals.
Proof.
  induction vals as [|v vals IH]; intros p; [reflexivity|].
  cbn [draws map]. now rewrite IH.
Qed.

Lemma share_value_constant v i : is_u16 v -> share_value [v] i = v.
Proof.
  intros Hv. unfold share_value, feval. cbn [map].
  rewrite Poly.eval_cons. cbn [Poly.eval fold_right].
  replace (gf_add (of_Z v) (gf_mul (of_Z (x_of i)) gf_zero)) with (of_Z v)
    by ring.
  now apply val_of_Z.
Qed.

(** With the threshold 32769 the polynomials have no random coefficient,
    since [degree*2] is 65536 and wraps to 0: every share is the secret
    itself followed by the two bytes of the tag. *)
Theorem Split_threshold_32769 secret parts w shares w' :
  Split secret parts 32769 w = (Ok shares, w') ->
  pos w' = pos w /\
  forall i, (i < Z.to_nat parts)%nat ->
    nth i shares [] =
    secret ++ [byte_of ((Z.of_nat i + 1) / 256); byte_of (Z.of_nat i + 1)].
Proof.
  intros Hok. destruct (Split_Ok_inv _ _ _ _ _ _ Hok) as (Hv & _ & -> & ->).
  destruct Hv as (_ & _ & _ & Heven).
  unfold after_split, polynomials.
  change (random_bytes (u16 (32769 - 1))) with 0%nat.
  split.
  - unfold after_reads, after_alloc. cbn [pos]. lia.
  - intros i Hi. rewrite nth_shares_of by exact Hi.
    rewrite draws_0. unfold share_row. rewrite map_map.
    rewrite (map_ext_in _ (fun v => v)).
    + rewrite map_id, uint16ToByte_app.
      now rewrite uint16ToByte_byteToUint16.
    + intros v Hv. apply share_value_constant.
      pose proof (byteToUint16_u16 secret) as Hu.
      rewrite List.Forall_forall in Hu. now apply Hu.
Qed.

Lemma large_call_valid : valid_split ["001"; "002"]%byte 40000 32769.
Proof. unfold valid_split. simpl. repeat split; (lia || discriminate). Qed.

Lemma Split_threshold_32769_witness :
  exists shares w',
    Split ["001"; "002"]%byte 40000 32769 quiet_world = (Ok shares, w') /\
    nth 0 shares [] = ["001"; "002"; "000"; "001"]%byte.
Proof.
  eexists. eexists. split.
  - exact (Split_ok _ _ _ _ large_call_valid (quiet_world_reads _)).
  - apply (proj2 (Split_threshold_32769 ["001"; "002"]%byte 40000 quiet_world
                    _ _ (Split_ok _ _ _ _ large_call_valid
                           (quiet_world_reads _))) 0%nat).
    lia.
Defined.

(** With a threshold above 32768 the polynomials have
    [threshold - 32769] random coefficients only, so that any
    [threshold - 32768] of the shares, and at least two, give the secret
    back: fewer than the threshold asked for. *)
Theorem Split_threshold_wraps secret parts threshold w shares w' idxs :
  Split secret parts threshold w = (Ok shares, w') ->
  32769 <= threshold ->
  List.NoDup idxs -> Forall (fun i => (i < length shares)%nat) idxs ->
  (2 <= length idxs)%nat -> threshold - 32768 <= Z.of_nat (length idxs) ->
  Combine (map (fun i => nth i shares []) idxs) = Ok secret.
Proof.
  intros Hok Hbig Hnd Hb H2 Hlen.
  destruct (Split_Ok_inv _ _ _ _ _ _ Hok) as (Hv & _ & -> & _).
  destruct Hv as ((H1 & H2') & H3 & H4 & H5).
  rewrite length_shares_of in Hb. rewrite (select_shares _ _ _ Hb).
  assert (Hw : (1 <= length (byteToUint16 secret))%nat).
  { rewrite length_byteToUint16. pose proof (even_half _ H5). lia. }
  rewrite (Combine_parts_of _ (byteToUint16 secret)).
  - now rewrite uint16ToByte_byteToUint16.
  - intros E. rewrite E in Hw. simpl in Hw. lia.
  - apply byteToUint16_u16.
  - unfold polynomials. apply length_draws.
  - intros idx Hidx.
    destruct (polynomials_intercept secret threshold w idx Hidx)
      as (tl & Hp & Htl).
    exists tl. split; [exact Hp|]. rewrite Htl.
    pose proof (coefficient_count_exact threshold ltac:(lia)) as [Hc _].
    destruct (Z.ltb_spec threshold 32769); lia.
  - exact H2.
  - exact Hnd.
  - eapply List.Forall_impl; [|exact Hb]. cbv beta. intros i Hi. lia.
Qed.

Lemma Split_threshold_wraps_witness :
  exists shares w',
    Split ["001"; "002"]%byte 40000 32770 quiet_world = (Ok shares, w') /\
    Combine [nth 5 shares []; nth 0 shares []] = Ok ["001"; "002"]%byte.
Proof.
  assert (Hv : valid_split ["001"; "002"]%byte 40000 32770).
  { unfold valid_split. simpl. repeat split; (lia || discriminate). }
  eexists. eexists. split.
  - exact (Split_ok _ _ _ _ Hv (quiet_world_reads _)).
  - apply (Split_threshold_wraps ["001"; "002"]%byte 40000 32770 quiet_world
             _ _ [5; 0]%nat (Split_ok _ _ _ _ Hv (quiet_world_reads _))).
    + lia.
    + repeat constructor; simpl; intuition lia.
    + rewrite length_shares_of.
      constructor; [lia | constructor; [lia | constructor]].
    + simpl. lia.
    + simpl. lia.
Defined.

(** *** Interpolation *)

Lemma Forall_by_nth (P : Z -> Prop) l :
  (forall i, (i < length l)%nat -> P (nth i l 0)) -> Forall P l.
Proof.
  intros H. apply List.Forall_forall. intros z Hz.
  destruct (In_nth _ _ 0 Hz) as (i & Hi & <-). now apply H.
Qed.

(** Interpolating values that [evaluate] gave at distinct points gives
    what [evaluate] gives, at every point, when the polynomial has no
    more coefficients than there are points. *)
Theorem interpolate_evaluate cs xs ys x :
  cs <> [] -> Forall is_u16 cs -> Forall is_u16 xs -> is_u16 x ->
  List.NoDup xs -> length ys = length xs -> (length cs <= length xs)%nat ->
  (forall i, (i < length xs)%nat ->
     evaluate {| coefficients := cs |} (nth i xs 0) = Ok (nth i ys 0)) ->
  interpolatePolynomial xs ys x = evaluate {| coefficients := cs |} x.
Proof.
  intros Hne Hcs Hxs Hx Hnd Hlen Hdeg Hys.
  assert (Hy : forall i, (i < length xs)%nat ->
            nth i ys 0 = val (feval (map of_Z cs) (of_Z (nth i xs 0)))).
  { intros i Hi. specialize (Hys i Hi).
    rewrite evaluate_spec in Hys
      by (try assumption; now apply Forall_nth_u16).
    congruence. }
  assert (Hyu : Forall is_u16 ys).
  { apply Forall_by_nth. intros i Hi. rewrite Hy by lia. apply val_u16. }
  rewrite (interpolate_spec xs ys x Hxs Hyu Hx Hnd Hlen).
  rewrite evaluate_spec by assumption. do 2 f_equal.
  unfold flagrange, feval.
  apply (Poly.lagrange_interpolation gf gf_zero gf_one gf_add gf_mul gf_add
           gf_opp gf_div gf_inv gf_field).
  - apply List.seq_NoDup.
  - intros i j Hi Hj. apply List.in_seq in Hi, Hj.
    apply sample_inj; (assumption || lia).
  - rewrite length_map, length_seq. exact Hdeg.
  - intros i Hi. apply List.in_seq in Hi. unfold sample.
    rewrite Hy by lia. apply of_Z_val.
Qed.

Lemma evaluate_samples cs xs i :
  cs <> [] -> Forall is_u16 cs -> Forall is_u16 xs -> (i < length xs)%nat ->
  evaluate {| coefficients := cs |} (nth i xs 0) =
  Ok (nth i (map (fun xi => val (feval (map of_Z cs) (of_Z xi))) xs) 0).
Proof.
  intros Hne Hcs Hxs Hi.
  rewrite evaluate_spec by (try assumption; now apply Forall_nth_u16).
  f_equal. set (f := fun xi => val (feval (map of_Z cs) (of_Z xi))).
  rewrite (nth_indep (map f xs) 0 (f 0)) by now rewrite length_map.
  rewrite (map_nth f). reflexivity.
Qed.

Lemma interpolate_evaluate_witness :
  interpolatePolynomial [1; 2]
    (map (fun xi => val (feval (map of_Z [42; 7]) (of_Z xi))) [1; 2]) 0 =
  evaluate {| coefficients := [42; 7] |} 0.
Proof.
  assert (Hcs : Forall is_u16 [42; 7])
    by (repeat constructor; unfold is_u16; lia).
  assert (Hxs : Forall is_u16 [1; 2])
    by (repeat constructor; unfold is_u16; lia).
  assert (Hne : [42; 7] <> []) by discriminate.
  refine (interpolate_evaluate [42; 7] [1; 2] _ 0 Hne Hcs Hxs _ _ _ _ _).
  - unfold is_u16; lia.
  - repeat constructor; simpl; intuition lia.
  - apply length_map.
  - apply Nat.le_refl.
  - intros i Hi. exact (evaluate_samples [42; 7] [1; 2] i Hne Hcs Hxs Hi).
Defined.

(** The interpolant passes through every sample. *)
Theorem interpolate_at_sample xs ys k :
  Forall is_u16 xs -> Forall is_u16 ys -> List.NoDup xs ->
  length ys = length xs -> (k < length xs)%nat ->
  interpolatePolynomial xs ys (nth k xs 0) = Ok (nth k ys 0).
Proof.
  intros Hxs Hys Hnd Hlen Hk.
  rewrite (interpolate_spec xs ys _ Hxs Hys (Forall_nth_u16 _ k Hxs) Hnd Hlen).
  f_equal. rewrite <- (val_sample ys k Hys). f_equal.
  unfold flagrange. change (of_Z (nth k xs 0)) with (sample xs k).
  apply (Poly.lagrange_at gf gf_zero gf_one gf_add gf_mul gf_add gf_opp
           gf_div gf_inv gf_field).
  - apply List.seq_NoDup.
  - apply List.in_seq. lia.
  - intros i j Hi Hj. apply List.in_seq in Hi, Hj.
    apply sample_inj; (assumption || lia).
Qed.

Lemma interpolate_at_sample_witness :
  interpolatePolynomial [1; 2] [5; 7] 1 = Ok 5.
Proof.
  apply (interpolate_at_sample [1; 2] [5; 7] 0).
  - repeat constructor; unfold is_u16; lia.
  - repeat constructor; unfold is_u16; lia.
  - repeat constructor; simpl; intuition lia.
  - reflexivity.
  - apply Nat.lt_0_succ.
Defined.

(** When the first two abscissae are the same, the first division is by
    zero and [interpolatePolynomial] panics. *)
Theorem interpolate_duplicate_panics a rest ys x :
  interpolatePolynomial (a :: a :: rest) ys x = Panic "divide by zero".
Proof.
  unfold interpolatePolynomial.
  cbn [length seq]. rewrite foldM_cons.
  rewrite (foldM_cons _ 0%nat). cbn [Nat.eqb bind].
  rewrite (foldM_cons _ 1%nat). cbn [Nat.eqb].
  change (get (a :: a :: rest) 1%nat) with (Ok (A := Z) a).
  change (get (a :: a :: rest) 0%nat) with (Ok (A := Z) a).
  cbn [bind]. cbv zeta. unfold add at 2. rewrite Z.lxor_nilpotent.
  rewrite div_zero. reflexivity.
Qed.

(** *** [Combine]: messages, forged tags, and the order of arrival *)

(** The checks of [Combine], in their order, each with its message. *)
Theorem Combine_checks parts :
  ((length parts < 2)%nat ->
   Combine parts =
   Err "less than two parts cannot be used to reconstruct the secret") /\
  (forall p0 rest, parts = p0 :: rest -> (2 <= length parts)%nat ->
     ((length p0 < 4)%nat ->
      Combine parts = Err "parts must be at least four bytes") /\
     ((4 <= length p0)%nat -> Nat.even (length p0) = false ->
      Combine parts = Err "parts must be even bytes long") /\
     ((4 <= length p0)%nat -> Nat.even (length p0) = true ->
      ~ Forall (fun p => length p = length p0) rest ->
      Combine parts = Err "all parts must be the same length") /\
     ((4 <= length p0)%nat -> Nat.even (length p0) = true ->
      Forall (fun p => length p = length p0) rest ->
      ~ List.NoDup (map tag parts) ->
      Combine parts = Err "duplicate part detected")).
Proof.
  split.
  { intros Hlt. unfold Combine.
    destruct (Z.ltb_spec (Z.of_nat (length parts)) 2) as [_|Hge];
      [reflexivity | lia]. }
  intros p0 rest -> Hn. unfold Combine.
  destruct (Z.ltb_spec (Z.of_nat (length (p0 :: rest))) 2) as [Hlt|_]; [lia|].
  change (get (p0 :: rest) 0) with (Ok (A := Part) p0). cbn [bind]. cbv zeta.
  destruct (Z.ltb_spec (Z.of_nat (length p0)) 4) as [H4|H4].
  { repeat split; intros; (reflexivity || lia). }
  rewrite rem2_even. destruct (Nat.even (length p0)) eqn:He; cbn [negb].
  2: { repeat split; intros; (reflexivity || congruence || lia). }
  change (drop 1 (p0 :: rest)) with rest.
  destruct (same_length_loop (Z.of_nat (length p0)) rest)
    as [[Hall Hok]|[Hnot Herr]]; [rewrite Hok | rewrite Herr].
  2: { cbn [bind]. repeat split; intros; try (reflexivity || lia).
       exfalso. apply Hnot.
       match goal with H : Forall _ rest |- _ => revert H end.
       apply List.Forall_impl. intros p Hp. lia. }
  cbn [bind].
  assert (HallL : Forall (fun p => length p = length p0) rest).
  { revert Hall. apply List.Forall_impl. intros; lia. }
  split; [intros; lia|]. split; [intros; congruence|].
  split; [intros _ _ Hnot; contradiction|].
  intros _ _ _ Hdup.
  set (parts := p0 :: rest) in *.
  set (parts16 := map byteToUint16 parts).
  assert (Hget0 : get parts16 0 = Ok (byteToUint16 p0)) by reflexivity.
  rewrite Hget0. cbn [bind].
  assert (Hne : Forall (fun r : list Z => r <> []) parts16).
  { unfold parts16. apply List.Forall_forall. intros r Hr.
    apply in_map_iff in Hr as (p & <- & Hp).
    assert (Hlp : length p = length p0).
    { destruct Hp as [<-|Hp]; [reflexivity|].
      rewrite List.Forall_forall in HallL. now apply HallL. }
    intros E. apply (f_equal (@length Z)) in E.
    rewrite length_byteToUint16, Hlp in E.
    apply Nat.even_spec in He as [k Hk]. rewrite Hk, Nat.div2_double in E.
    simpl in E. lia. }
  replace (length parts) with (length parts16)
    by (unfold parts16; now rewrite length_map).
  destruct (read_tags_spec parts16 Hne) as [[Hnd _]|[_ Hrt]].
  - exfalso. apply Hdup. unfold parts16 in Hnd. now rewrite map_map in Hnd.
  - rewrite Hrt. reflexivity.
Qed.

Lemma Combine_checks_witness :
  Combine [["000"; "005"; "000"; "001"]; ["000"; "007"; "000"; "001"]]%byte =
  Err "duplicate part detected".
Proof.
  destruct (Combine_checks
              [["000"; "005"; "000"; "001"]; ["000"; "007"; "000"; "001"]]%byte)
    as [_ H].
  destruct (H _ _ eq_refl (Nat.le_refl 2)) as (_ & _ & _ & Hdup).
  apply Hdup.
  - apply Nat.le_refl.
  - reflexivity.
  - repeat constructor.
  - assert (E : map tag
      [["000"; "005"; "000"; "001"]; ["000"; "007"; "000"; "001"]]%byte = [1; 1])
      by reflexivity.
    rewrite E. intros Hnd. inversion Hnd as [|? ? Hin _]. apply Hin. now left.
Defined.

Lemma firstn_words s : forall m,
  (2 * m <= length s)%nat ->
  uint16ToByte (firstn m (byteToUint16 s)) = firstn (2 * m) s.
Proof.
  induction s as [| a | hi lo s IH] using list_pair_ind; intros m Hm.
  - simpl in Hm. assert (m = 0%nat) as -> by lia. reflexivity.
  - simpl in Hm. assert (m = 0%nat) as -> by lia. reflexivity.
  - destruct m as [|m]; [reflexivity|].
    replace (2 * S m)%nat with (S (S (2 * m))) by lia.
    cbn [byteToUint16 firstn uint16ToByte].
    rewrite IH by (simpl in Hm; lia).
    pose proof (uint16ToByte_byteToUint16 [hi; lo] eq_refl) as E.
    cbn [byteToUint16 uint16ToByte] in E. injection E as E1 E2.
    now rewrite E1, E2.
Qed.

Lemma map_nth_firstn (l : list Z) m :
  (m <= length l)%nat -> map (fun i => nth i l 0) (seq 0 m) = firstn m l.
Proof.
  intros Hm. apply (nth_ext _ _ 0 0).
  - rewrite length_map, length_seq, length_firstn. lia.
  - intros i Hi. rewrite length_map, length_seq in Hi.
    rewrite (nth_indep _ 0 ((fun i => nth i l 0) 0%nat))
      by now rewrite length_map, length_seq.
    rewrite (map_nth (fun i => nth i l 0)), seq_nth by exact Hi.
    rewrite nth_firstn. apply Nat.ltb_lt in Hi. now rewrite Hi.
Qed.

(** A part with the tag 0 dictates the result: [Combine] returns the
    bytes of that part, without its tag, whatever the other parts hold. *)
Theorem Combine_zero_tag parts L k :
  accepted parts L -> (k < length parts)%nat -> tag (nth k parts []) = 0 ->
  Combine parts = Ok (firstn (L - 2) (nth k parts [])).
Proof.
  intros HL Hk Htag. rewrite (Combine_accepted _ _ HL). f_equal.
  destruct HL as (Hn & Hall & H4 & Hev & Hnd).
  assert (Hlen : length (nth k parts []) = L).
  { rewrite List.Forall_forall in Hall. apply Hall, nth_In, Hk. }
  pose proof (even_half L Hev) as Hhalf.
  replace (L - 2)%nat with (2 * (Nat.div2 L - 1))%nat by lia.
  rewrite <- firstn_words by lia.
  f_equal. rewrite <- map_nth_firstn
    by (rewrite length_byteToUint16, Hlen; lia).
  apply map_ext. intros idx. unfold reconstruct.
  transitivity (nth k (column (map byteToUint16 parts) idx) 0);
    [|exact (nth_column parts idx k Hk)].
  rewrite <- (val_sample (column (map byteToUint16 parts) idx) k).
  - f_equal. unfold flagrange.
    assert (Hz : sample (map tag parts) k = gf_zero).
    { unfold sample. rewrite nth_tags by exact Hk. now rewrite Htag. }
    pose proof (Poly.lagrange_at gf gf_zero gf_one gf_add gf_mul gf_add gf_opp
                  gf_div gf_inv gf_field (sample (map tag parts))
                  (sample (column (map byteToUint16 parts) idx))
                  (seq 0 (length parts)) k) as H.
    rewrite Hz in H. apply H.
    + apply List.seq_NoDup.
    + apply List.in_seq. split; [apply Nat.le_0_l | exact Hk].
    + intros i j Hi Hj. apply List.in_seq in Hi, Hj.
      destruct Hi as [_ Hi]. destruct Hj as [_ Hj]. cbn [Nat.add] in Hi, Hj.
      apply sample_inj; [apply tags_u16 | exact Hnd | |];
        rewrite length_map; assumption.
  - apply column_u16. apply List.Forall_forall. intros r Hr.
    apply in_map_iff in Hr as (p & <- & _). apply byteToUint16_u16.
Qed.

Lemma Combine_zero_tag_witness :
  Combine zero_tag_parts = Ok ["000"; "005"]%byte.
Proof.
  apply (Combine_zero_tag zero_tag_parts 4 0 zero_tag_parts_accepted).
  - apply Nat.lt_0_succ.
  - reflexivity.
Defined.

(** The loop of [Combine] that receives the words from the goroutines and
    stores each at its index, for the results in their order of arrival. *)
Definition collect (results : list (nat * Z)) (secret16 : list Z) : list Z :=
  fold_left (fun s '(i, v) => <[i := v]> s) results secret16.

Lemma length_collect results : forall s, length (collect results s) = length s.
Proof.
  induction results as [|[i v] results IH]; intros s; [reflexivity|].
  unfold collect in *. cbn [fold_left]. now rewrite IH, length_insert.
Qed.

Lemma collect_other results j : forall s,
  ~ In j (map fst results) -> collect results s !! j = s !! j.
Proof.
  induction results as [|[i v] results IH]; intros s Hj; [reflexivity|].
  unfold collect in *. cbn [fold_left]. cbn [map fst In] in Hj.
  rewrite IH by tauto. apply list_lookup_insert_ne. intros ->. tauto.
Qed.

Lemma collect_at results j v : forall s,
  List.NoDup (map fst results) -> In (j, v) results -> (j < length s)%nat ->
  collect results s !! j = Some v.
Proof.
  induction results as [|[i u] results IH]; intros s Hnd Hin Hj; [easy|].
  cbn [map fst] in Hnd. inversion Hnd as [|? ? Hout Hnd']; subst.
  unfold collect in *. cbn [fold_left].
  destruct Hin as [E|Hin].
  - inversion E; subst.
    pose proof (collect_other results j (<[j := v]> s) Hout) as Ho.
    unfold collect in Ho. rewrite Ho.
    apply list_lookup_insert_eq. exact Hj.
  - apply IH; [exact Hnd' | exact Hin | now rewrite length_insert].
Qed.

(** The secret [Combine] returns does not depend on the order in which
    the goroutines deliver their words: stored by index as they arrive,
    in any order, they give the bytes that [Combine] returns. *)
Theorem Combine_any_arrival parts L results :
  accepted parts L ->
  Permutation results
    (map (fun idx => (idx, reconstruct parts idx)) (seq 0 (Nat.div2 L - 1))) ->
  Combine parts =
  Ok (uint16ToByte (collect results (replicate (Nat.div2 L - 1) 0))).
Proof.
  intros HL HP. rewrite (Combine_accepted _ _ HL). do 2 f_equal.
  set (n := (Nat.div2 L - 1)%nat) in *.
  assert (Hfst : map fst results ≡ₚ seq 0 n).
  { rewrite HP, map_map. cbn [fst]. now rewrite map_id. }
  assert (Hnd : List.NoDup (map fst results)).
  { apply (Permutation_NoDup (l := seq 0 n)); [now symmetry|].
    apply List.seq_NoDup. }
  apply list_eq. intros j.
  destruct (Nat.lt_ge_cases j n) as [Hj|Hj].
  - rewrite (collect_at results j (reconstruct parts j)).
    + apply list_lookup_fmap_Some. exists j. split; [reflexivity|].
      apply lookup_seq. lia.
    + exact Hnd.
    + apply (Permutation_in _ (Permutation_sym HP)).
      apply in_map_iff. exists j. split; [reflexivity|]. apply List.in_seq. lia.
    + now rewrite length_replicate.
  - rewrite !lookup_ge_None_2; [reflexivity | |].
    + now rewrite length_collect, length_replicate.
    + now rewrite length_map, length_seq.
Qed.

(** Two parts of six bytes: two words and a tag each. *)
Definition two_word_parts : list Part :=
  [ ["000"; "005"; "000"; "006"; "000"; "001"];
    ["000"; "007"; "000"; "008"; "000"; "002"] ]%byte.

Lemma two_word_parts_accepted : accepted two_word_parts 6.
Proof.
  unfold accepted, two_word_parts.
  split; [simpl; lia|]. split; [repeat constructor|].
  split; [lia|]. split; [reflexivity|].
  assert (E : map tag [["000"; "005"; "000"; "006"; "000"; "001"];
                       ["000"; "007"; "000"; "008"; "000"; "002"]]%byte
              = [1; 2]) by reflexivity.
  rewrite E. repeat constructor; simpl; intuition lia.
Qed.

Lemma Combine_any_arrival_witness :
  Combine two_word_parts =
  Ok (uint16ToByte
        (collect [(1%nat, reconstruct two_word_parts 1);
                  (0%nat, reconstruct two_word_parts 0)]
                 (replicate 2 0))).
Proof.
  apply (Combine_any_arrival two_word_parts 6
           [(1%nat, reconstruct two_word_parts 1);
            (0%nat, reconstruct two_word_parts 0)]
           two_word_parts_accepted).
  change (map (fun idx => (idx, reconstruct two_word_parts idx))
              (seq 0 (Nat.div2 6 - 1)))
    with [(0%nat, reconstruct two_word_parts 0);
          (1%nat, reconstruct two_word_parts 1)].
  apply perm_swap.
Defined.

(** The tag [uint16(idx) + 1] of a row wraps around: row 65535 would carry
    the tag 0, and row [idx + 65536] the tag of row [idx].  The tags of
    [parts] rows are distinct and non-zero because [Split] refuses more
    than 65535 parts. *)
Theorem init_row_tag len idx :
  tag_of_row (init_row len idx) = (Z.of_nat idx + 1) mod 65536 /\
  init_row len (idx + Z.to_nat 65536) = init_row len idx /\
  (Z.of_nat idx < 65535 -> tag_of_row (init_row len idx) = Z.of_nat idx + 1).
Proof.
  assert (Hrow : forall i, init_row len i =
            replicate len 0 ++ [u16 (u16 (Z.of_nat i) + 1)]).
  { intros i. unfold init_row.
    rewrite Nat.add_1_r, replicate_S_end.
    rewrite <- (length_replicate len 0) at 1.
    rewrite insert_at_end. apply app_nil_r. }
  assert (Hu : forall i,
            u16 (u16 (Z.of_nat i) + 1) = (Z.of_nat i + 1) mod 65536).
  { intros i. unfold u16. rewrite Z.add_mod_idemp_l by lia. reflexivity. }
  split; [|split].
  - rewrite Hrow, tag_of_row_app. apply Hu.
  - rewrite !Hrow, !Hu. do 2 f_equal.
    rewrite Nat2Z.inj_add, Z2Nat.id by lia.
    replace (Z.of_nat idx + 65536 + 1) with (Z.of_nat idx + 1 + 1 * 65536) by lia.
    now rewrite Z.mod_add by lia.
  - intros Hi. rewrite Hrow, tag_of_row_app, Hu. apply Z.mod_small. lia.
Qed.

Lemma init_row_tag_witness : tag_of_row (init_row 3 7) = 8.
Proof.
  apply (proj2 (proj2 (init_row_tag 3 7))). lia.
Defined.

(** *** Fewer shares than the threshold *)

Lemma gf_mul_integral (a b : gf) :
  gf_mul a b = gf_zero -> a = gf_zero \/ b = gf_zero.
Proof.
  intros H. apply (f_equal val) in H.
  rewrite val_mul, mult_spec in H by apply val_u16.
  change (val gf_zero) with 0 in H.
  apply multiplyGF16_integral in H; [|apply val_u16 | apply val_u16].
  destruct H as [H|H]; [left | right]; apply gf_eq; exact H.
Qed.

Lemma sample_tags_parts_of polys idxs k :
  Forall (fun i => Z.of_nat i < 65535) idxs -> (k < length idxs)%nat ->
  sample (map tag (parts_of polys idxs)) k = of_Z (x_of (nth k idxs 0%nat)).
Proof.
  intros Hb Hk. unfold sample. rewrite tags_parts_of by exact Hb.
  rewrite (nth_indep (map x_of idxs) 0 (x_of 0%nat))
    by (rewrite length_map; exact Hk).
  now rewrite (map_nth x_of).
Qed.

Lemma sample_column_parts_of polys idxs idx k :
  Forall (fun i => Z.of_nat i < 65535) idxs -> (k < length idxs)%nat ->
  (idx < length polys)%nat ->
  sample (column (map byteToUint16 (parts_of polys idxs)) idx) k =
  feval (map of_Z (nth idx polys [])) (of_Z (x_of (nth k idxs 0%nat))).
Proof.
  intros Hb Hk Hidx. unfold sample.
  rewrite nth_column by (unfold parts_of; rewrite length_map; exact Hk).
  unfold parts_of.
  rewrite (nth_indep _ [] (uint16ToByte (share_row polys 0%nat)))
    by (rewrite length_map; exact Hk).
  rewrite (map_nth (fun i => uint16ToByte (share_row polys i))).
  assert (Hbk : Z.of_nat (nth k idxs 0%nat) < 65535).
  { rewrite List.Forall_forall in Hb. apply Hb, nth_In, Hk. }
  rewrite byteToUint16_uint16ToByte by (apply share_row_u16, Hbk).
  rewrite nth_share_row by exact Hidx.
  unfold share_value. apply of_Z_val.
Qed.

(** The word two shares give for a polynomial with two random
    coefficients. *)
Lemma reconstruct_two polys i j idx v a b :
  i <> j -> Z.of_nat i < 65535 -> Z.of_nat j < 65535 ->
  (idx < length polys)%nat -> nth idx polys [] = [v; a; b] ->
  reconstruct (parts_of polys [i; j]) idx =
  val (gf_add (of_Z v)
         (gf_mul (of_Z b) (gf_mul (of_Z (x_of i)) (of_Z (x_of j))))).
Proof.
  intros Hij Hi Hj Hidx Hcs.
  assert (Hb : Forall (fun i => Z.of_nat i < 65535) [i; j])
    by (repeat constructor; assumption).
  unfold reconstruct, flagrange. f_equal.
  change (seq 0 (length (parts_of polys [i; j]))) with [0; 1]%nat.
  set (xs := sample (map tag (parts_of polys [i; j]))).
  set (ys := sample (column (map byteToUint16 (parts_of polys [i; j])) idx)).
  assert (Hx0 : xs 0%nat = of_Z (x_of i))
    by (apply (sample_tags_parts_of polys [i; j] 0 Hb); simpl; lia).
  assert (Hx1 : xs 1%nat = of_Z (x_of j))
    by (apply (sample_tags_parts_of polys [i; j] 1 Hb); simpl; lia).
  rewrite (Poly.lagrange_two gf gf_zero gf_one gf_add gf_mul gf_add gf_opp
             gf_div gf_inv gf_field xs ys (of_Z v) (of_Z a) (of_Z b)).
  - now rewrite Hx0, Hx1.
  - rewrite Hx0, Hx1. intros E. apply (f_equal val) in E.
    rewrite !val_of_Z in E by (apply x_of_range; assumption).
    unfold x_of in E. lia.
  - rewrite Hx0. unfold ys.
    rewrite (sample_column_parts_of polys [i; j] idx 0 Hb) by (simpl; lia || exact Hidx).
    rewrite Hcs. reflexivity.
  - rewrite Hx1. unfold ys.
    rewrite (sample_column_parts_of polys [i; j] idx 1 Hb) by (simpl; lia || exact Hidx).
    rewrite Hcs. reflexivity.
Qed.

Lemma x_of_nonzero i : Z.of_nat i < 65535 -> of_Z (x_of i) <> gf_zero.
Proof.
  intros Hi E. apply (f_equal val) in E.
  rewrite val_of_Z in E by (apply x_of_range, Hi).
  change (val gf_zero) with 0 in E. unfold x_of in E. lia.
Qed.

Lemma reconstruct_two_exact polys i j idx v a b :
  i <> j -> Z.of_nat i < 65535 -> Z.of_nat j < 65535 ->
  (idx < length polys)%nat -> nth idx polys [] = [v; a; b] ->
  is_u16 v -> is_u16 b ->
  (reconstruct (parts_of polys [i; j]) idx = v <-> b = 0).
Proof.
  intros Hij Hi Hj Hidx Hcs Hv Hb.
  rewrite (reconstruct_two polys i j idx v a b) by assumption.
  split.
  - intros E.
    assert (E' : gf_mul (of_Z b) (gf_mul (of_Z (x_of i)) (of_Z (x_of j)))
                 = gf_zero).
    { rewrite <- (val_of_Z v Hv) in E at 2. apply gf_eq in E.
      transitivity (gf_add (of_Z v)
        (gf_add (of_Z v)
           (gf_mul (of_Z b) (gf_mul (of_Z (x_of i)) (of_Z (x_of j))))));
        [|rewrite E].
      - generalize (gf_mul (of_Z b) (gf_mul (of_Z (x_of i)) (of_Z (x_of j)))).
        generalize (of_Z v). intros p q. apply gf_eq.
        rewrite !val_add. unfold add.
        rewrite <- Z.lxor_assoc, Z.lxor_nilpotent, Z.lxor_0_l. reflexivity.
      - apply gf_eq. rewrite val_add. unfold add. rewrite Z.lxor_nilpotent.
        reflexivity. }
    apply gf_mul_integral in E' as [E'|E'].
    + apply (f_equal val) in E'. now rewrite val_of_Z in E' by exact Hb.
    + apply gf_mul_integral in E' as [E'|E'];
        [now apply x_of_nonzero in E' | now apply x_of_nonzero in E'].
  - intros ->. rewrite <- (val_of_Z v Hv) at 2. f_equal.
    change (of_Z 0) with gf_zero. ring.
Qed.

(** Two shares of a call with the threshold 3 give a result, but the
    secret only when the top coefficient of every polynomial of the call
    happens to be zero. *)
Theorem Split_two_of_three secret parts w shares w' i j :
  Split secret parts 3 w = (Ok shares, w') ->
  i <> j -> (i < Z.to_nat parts)%nat -> (j < Z.to_nat parts)%nat ->
  (exists s, Combine [nth i shares []; nth j shares []] = Ok s) /\
  (Combine [nth i shares []; nth j shares []] = Ok secret <->
   forall idx, (idx < Nat.div2 (length secret))%nat ->
               nth 2 (nth idx (polynomials secret 3 w) []) 0 = 0).
Proof.
  intros Hok Hij Hi Hj.
  destruct (Split_Ok_inv _ _ _ _ _ _ Hok) as (Hv & _ & -> & _).
  destruct Hv as ((H1 & H2) & H3 & H4 & H5).
  set (polys := polynomials secret 3 w).
  assert (Hsel : [nth i (shares_of polys parts) [];
                  nth j (shares_of polys parts) []] = parts_of polys [i; j]).
  { apply (select_shares polys parts [i; j]). repeat constructor; assumption. }
  rewrite Hsel.
  assert (Hlp : length polys = Nat.div2 (length secret))
    by apply length_polynomials.
  assert (Hw : (1 <= Nat.div2 (length secret))%nat)
    by (pose proof (even_half _ H5); lia).
  assert (Hacc : accepted (parts_of polys [i; j]) (2 * S (length polys))).
  { apply parts_of_accepted.
    - intros E. rewrite E in Hlp. simpl in Hlp. lia.
    - simpl. lia.
    - repeat constructor; simpl; intuition.
    - repeat constructor; lia. }
  rewrite (Combine_accepted _ _ Hacc). rewrite Nat.div2_double.
  replace (S (length polys) - 1)%nat with (length (byteToUint16 secret))
    by (rewrite length_byteToUint16; lia).
  split; [eexists; reflexivity|].
  assert (Hpoly : forall idx, (idx < Nat.div2 (length secret))%nat ->
            exists a b, nth idx polys [] = [nth idx (byteToUint16 secret) 0; a; b]
                        /\ is_u16 b).
  { intros idx Hidx. unfold polys, polynomials.
    rewrite nth_draws by (rewrite length_byteToUint16; exact Hidx).
    change (random_bytes (u16 (3 - 1))) with 4%nat.
    pose proof (drawn_u16 (tape w) (pos w + idx * 4) 4) as Hd.
    unfold drawn in *. cbn [seq map byteToUint16] in *.
    eexists. eexists. split; [reflexivity|].
    inversion Hd as [|? ? _ Hd']. inversion Hd'. assumption. }
  assert (Hrec : forall idx, (idx < Nat.div2 (length secret))%nat ->
            (reconstruct (parts_of polys [i; j]) idx =
             nth idx (byteToUint16 secret) 0 <->
             nth 2 (nth idx polys []) 0 = 0)).
  { intros idx Hidx. destruct (Hpoly idx Hidx) as (a & b & Hp & Hb).
    rewrite Hp. cbn [nth].
    apply (reconstruct_two_exact polys i j idx _ a b); try assumption; try lia.
    apply Forall_nth_u16, byteToUint16_u16. }
  split.
  - intros E idx Hidx. apply Hrec; [exact Hidx|].
    injection E as E. apply (f_equal byteToUint16) in E.
    rewrite byteToUint16_uint16ToByte in E.
    + apply (f_equal (fun l => nth idx l 0)) in E.
      rewrite (nth_indep _ 0 (reconstruct (parts_of polys [i; j]) 0%nat)) in E
        by (rewrite length_map, length_seq, length_byteToUint16; exact Hidx).
      rewrite (map_nth (reconstruct (parts_of polys [i; j]))) in E.
      rewrite seq_nth in E by (rewrite length_byteToUint16; exact Hidx).
      exact E.
    + apply List.Forall_forall. intros z Hz. apply in_map_iff in Hz.
      destruct Hz as (idx' & <- & _). apply val_u16.
  - intros Hall. f_equal.
    rewrite <- (uint16ToByte_byteToUint16 secret H5) at 2. f_equal.
    apply map_seq_nth. intros idx Hidx. apply Hrec.
    + rewrite <- length_byteToUint16. exact Hidx.
    + apply Hall. rewrite <- length_byteToUint16. exact Hidx.
Qed.

Lemma Split_two_of_three_witness :
  exists shares w',
    Split ["001"; "002"]%byte 3 3 quiet_world = (Ok shares, w') /\
    Combine [nth 0 shares []; nth 1 shares []] <> Ok ["001"; "002"]%byte.
Proof.
  assert (Hv : valid_split ["001"; "002"]%byte 3 3).
  { unfold valid_split. simpl. repeat split; (lia || discriminate). }
  eexists. eexists. split.
  - exact (Split_ok _ _ _ _ Hv (quiet_world_reads _)).
  - intros E.
    pose proof (proj1 (proj2 (Split_two_of_three ["001"; "002"]%byte 3
                  quiet_world _ _ 0%nat 1%nat
                  (Split_ok _ _ _ _ Hv (quiet_world_reads _))
                  ltac:(discriminate) ltac:(simpl; lia) ltac:(simpl; lia)))
                  E 0%nat ltac:(simpl; lia)) as E0.
    vm_compute in E0. discriminate.
Defined.

End Shamir.
